(** * car_game_enhanced.py: the game-state engine of the gesture racing game

    A shallow embedding of the simulation part of [main]'s loop body (one
    loop iteration = one tick), of [reset_state], [lerp], [hand_lane],
    [Particle] and [explode], followed by the properties of the
    specification that were checked against it.

    Number representation.  Python [int]s are [Z].  Python [float]s are
    IEEE binary64 numbers and are kept as such: they are Rocq's primitive
    [float]s, whose [+], [-], [*], [/] and comparisons are the hardware
    operations Python uses.  Rendering (every [draw_*] function and every
    [blit]) and the camera pictures are left out: they do not write to the
    session dictionary [s].  What the outside world contributes to a tick --
    the camera reading and the numbers drawn from [random] -- is an
    argument of the tick function. *)

From Stdlib Require Import ZArith List Bool Lia Sorted.
From Stdlib Require Import QArith Qabs.
From Stdlib Require Import PrimFloat SpecFloat FloatOps FloatAxioms Uint63.
Import ListNotations.

Set Warnings "-inexact-float".
Local Open Scope Z_scope.

(** ** Python's number operations on binary64 *)

Module Py.

(** [float(n)] for an [int]: rounded to nearest by the hardware conversion
    (exact below 2^53; the conversion used here is Python's up to 2^63,
    far above every integer the game converts). *)
Definition float_of_int (n : Z) : float :=
  match n with
  | Z0 => zero
  | Zpos p => of_uint63 (Uint63.of_Z (Zpos p))
  | Zneg p => (- of_uint63 (Uint63.of_Z (Zpos p)))%float
  end.

(** [int(x)] for a [float]: truncation toward zero.  Python raises on an
    infinity or a NaN; no float of the game is one, and the model returns 0
    there. *)
Definition int_of_float (x : float) : Z :=
  match Prim2SF x with
  | S754_finite sgn m e =>
      let v := if 0 <=? e then Zpos m * 2 ^ e else Zpos m / 2 ^ (- e) in
      if sgn then - v else v
  | _ => 0
  end.

(** The exact value of a finite float as a rational (0 for the others);
    used in statements only, never by the program. *)
Definition to_Q (x : float) : Q :=
  match Prim2SF x with
  | S754_finite sgn m e =>
      let v := if 0 <=? e then inject_Z (Zpos m * 2 ^ e)
               else Qmake (Zpos m) (Z.to_pos (2 ^ (- e))) in
      if sgn then Qopp v else v
  | _ => 0%Q
  end.

(** C's [fmod]: the exact remainder of the truncated division, which is
    always a binary64 number. *)
Definition fmod (x y : float) : float :=
  match Prim2SF x, Prim2SF y with
  | S754_finite sx mx ex, S754_finite _ my ey =>
      let e := Z.min ex ey in
      let r := Z.rem (Zpos mx * 2 ^ (ex - e)) (Zpos my * 2 ^ (ey - e)) in
      let f := Z.ldexp (float_of_int r) e in
      if sx then (- f)%float else f
  | S754_zero _, S754_finite _ _ _ => x
  | S754_finite _ _ _, S754_infinity _ => x
  | S754_zero _, S754_infinity _ => x
  | _, _ => nan
  end.

(** [x % y] on floats (CPython's [float_rem]): [fmod], moved to the sign of
    the divisor. *)
Definition float_mod (x y : float) : float :=
  let m := fmod x y in
  if (m =? 0)%float then (if (y <? 0)%float then neg_zero else zero)
  else if Bool.eqb (y <? 0)%float (m <? 0)%float then m
  else (m + y)%float.

(** [min(a, b)] and [max(a, b)] of two floats: the first argument unless
    the second is strictly smaller (larger). *)
Definition min (a b : float) : float := if (b <? a)%float then b else a.
Definition max (a b : float) : float := if (a <? b)%float then b else a.

(** [random.randint(a, b)] and an index for [random.choice] out of [n]
    elements, computed from a raw draw of the generator: every result lies
    in the range, and every value of the range is the result of some draw. *)
Definition randint (a b : Z) (raw : N) : Z := a + Z.of_N raw mod (b - a + 1).
Definition choice_index (n : nat) (raw : N) : nat :=
  N.to_nat (raw mod N.of_nat n).

End Py.

(** ** Layout and constants *)

Definition WIN_W : Z := 800.
Definition WIN_H : Z := 600.
Definition ROAD_L : Z := 80.
Definition ROAD_R : Z := 720.
Definition ROAD_W : Z := ROAD_R - ROAD_L.
Definition LANE_COUNT : Z := 3.
Definition LANE_W : Z := ROAD_W / LANE_COUNT.
Definition LANE_X : list Z :=
  map (fun i => ROAD_L + LANE_W * i + LANE_W / 2) [0; 1; 2].

Definition CAR_W : Z := 52.
Definition CAR_H : Z := 84.
Definition ENEMY_W : Z := 52.
Definition ENEMY_H : Z := 84.

Definition FPS : Z := 60.
Definition DASH_LEN : Z := 40.
Definition DASH_GAP : Z := 30.
Definition MAX_ENEMIES : nat := 12.
Definition MAX_SPEED : float := 18.0%float.
Definition CAM_SKIP : Z := 2.

Definition Color : Type := Z * Z * Z.
Definition Palette : Type := Color * Color.

Definition ENEMY_PALETTES : list Palette :=
  [ ((220,  50,  50), (140,  20,  20));
    ((255, 140,   0), (180,  80,   0));
    ((160,  50, 220), (100,  20, 150));
    (( 50, 200, 100), ( 20, 130,  50));
    ((200, 200,  50), (130, 130,  10)) ].

(** [LANE_X[i]]; the game only indexes it with 0, 1 or 2. *)
Definition lane_x (i : Z) : Z := nth (Z.to_nat i) LANE_X 0.

(** ** Helpers *)

Definition lerp (a b t : float) : float := (a + (b - a) * t)%float.

Definition hand_lane (hand_x : option Z) (frame_w : Z) : Z :=
  match hand_x with
  | None => 1
  | Some hx =>
      let thirds := (Py.float_of_int frame_w / 3)%float in
      if (Py.float_of_int hx <? thirds)%float then 0
      else if (Py.float_of_int hx <? 2 * thirds)%float then 1
      else 2
  end.

(** ** pygame.Rect and [colliderect]

    pygame is not part of the repository; [colliderect] is the library's
    documented test: the rectangles overlap on both axes, touching edges do
    not count, and a rectangle of width or height 0 collides with nothing. *)

Record Rect : Type := mkRect { r_x : Z; r_y : Z; r_w : Z; r_h : Z }.

Definition colliderect (a b : Rect) : bool :=
  negb (r_w a =? 0) && negb (r_h a =? 0) &&
  negb (r_w b =? 0) && negb (r_h b =? 0) &&
  (Z.min (r_x a) (r_x a + r_w a) <? Z.max (r_x b) (r_x b + r_w b)) &&
  (Z.min (r_y a) (r_y a + r_h a) <? Z.max (r_y b) (r_y b + r_h b)) &&
  (Z.min (r_x b) (r_x b + r_w b) <? Z.max (r_x a) (r_x a + r_w a)) &&
  (Z.min (r_y b) (r_y b + r_h b) <? Z.max (r_y a) (r_y a + r_h a)).

(** ** Particles *)

Record Particle : Type := mkParticle {
  p_x : float; p_y : float; p_vx : float; p_vy : float;
  p_life : Z; p_max_life : Z; p_color : Color; p_size : Z }.

(** The numbers one [Particle(...)] construction takes from [random]: the
    index of [random.choice] in [explode], the velocity
    [(cos(angle)*speed, sin(angle)*speed)] of the two [random.uniform]
    draws, and the raw draws of the two [randint]s. *)
Record ParticleDraw : Type := mkParticleDraw {
  d_color : N; d_vx : float; d_vy : float; d_life : N; d_size : N }.

(** [Particle.__init__] *)
Definition new_particle (x y : Z) (color : Color) (d : ParticleDraw) : Particle :=
  let life := Py.randint 25 50 (d_life d) in
  {| p_x := Py.float_of_int x; p_y := Py.float_of_int y;
     p_vx := d_vx d; p_vy := d_vy d;
     p_life := life; p_max_life := life;
     p_color := color;
     p_size := Py.randint 3 8 (d_size d) |}.

(** [Particle.update] *)
Definition update (p : Particle) : Particle :=
  {| p_x := (p_x p + p_vx p)%float;
     p_y := (p_y p + p_vy p)%float;
     p_vx := p_vx p;
     p_vy := (p_vy p + 0.25)%float;
     p_life := p_life p - 1;
     p_max_life := p_max_life p;
     p_color := p_color p;
     p_size := p_size p |}.

(** [explode]: 40 times, choose a colour and append a new particle;
    [draws k] holds the random numbers of the [k]-th round. *)
Definition explosion_colors (palette : Palette) : list Color :=
  [fst palette; snd palette; (255, 255, 200); (255, 180, 0)].

Definition explode (particles : list Particle) (x y : Z) (palette : Palette)
    (draws : nat -> ParticleDraw) : list Particle :=
  fold_left
    (fun ps k =>
       let d := draws k in
       let c := nth (Py.choice_index 4 (d_color d)) (explosion_colors palette)
                    (fst palette) in
       ps ++ [new_particle x y c d])
    (seq 0 40) particles.

(** The particle block that ends every tick: update each particle, then
    keep those with [life > 0]. *)
Definition particles_tick (ps : list Particle) : list Particle :=
  filter (fun p => 0 <? p_life p) (map update ps).

(** ** The session state

    The dictionary [s] built by [reset_state], without [cam_frame] (the
    camera picture, only drawn).  An enemy is the list [[cx, y, palette]]. *)

Record Enemy : Type := mkEnemy { e_cx : Z; e_y : float; e_pal : Palette }.

Record State : Type := mkState {
  car_lane : Z;
  car_x_px : float;
  car_y : Z;
  score : Z;
  lives : Z;
  enemies : list Enemy;
  enemy_spd : float;
  spawn_cd : Z;
  game_over : bool;
  go_timer : Z;
  tick : Z;
  dash_off : float;
  hand_x : option Z;
  particles : list Particle }.

Definition reset_state : State :=
  {| car_lane := 1;
     car_x_px := Py.float_of_int (lane_x 1 - CAR_W / 2);
     car_y := WIN_H - CAR_H - 24;
     score := 0;
     lives := 3;
     enemies := [];
     enemy_spd := 5.0%float;
     spawn_cd := 70;
     game_over := false;
     go_timer := 0;
     tick := 0;
     dash_off := 0.0%float;
     hand_x := None;
     particles := [] |}.

(** Assignments [s[key] = v]. *)
Definition set_car (lane : Z) (x : float) (s : State) : State :=
  mkState lane x (car_y s) (score s) (lives s) (enemies s) (enemy_spd s)
    (spawn_cd s) (game_over s) (go_timer s) (tick s) (dash_off s) (hand_x s)
    (particles s).
Definition set_score (v : Z) (s : State) : State :=
  mkState (car_lane s) (car_x_px s) (car_y s) v (lives s) (enemies s)
    (enemy_spd s) (spawn_cd s) (game_over s) (go_timer s) (tick s)
    (dash_off s) (hand_x s) (particles s).
Definition set_lives (v : Z) (s : State) : State :=
  mkState (car_lane s) (car_x_px s) (car_y s) (score s) v (enemies s)
    (enemy_spd s) (spawn_cd s) (game_over s) (go_timer s) (tick s)
    (dash_off s) (hand_x s) (particles s).
Definition set_enemies (v : list Enemy) (s : State) : State :=
  mkState (car_lane s) (car_x_px s) (car_y s) (score s) (lives s) v
    (enemy_spd s) (spawn_cd s) (game_over s) (go_timer s) (tick s)
    (dash_off s) (hand_x s) (particles s).
Definition set_enemy_spd (v : float) (s : State) : State :=
  mkState (car_lane s) (car_x_px s) (car_y s) (score s) (lives s) (enemies s)
    v (spawn_cd s) (game_over s) (go_timer s) (tick s) (dash_off s)
    (hand_x s) (particles s).
Definition set_spawn_cd (v : Z) (s : State) : State :=
  mkState (car_lane s) (car_x_px s) (car_y s) (score s) (lives s) (enemies s)
    (enemy_spd s) v (game_over s) (go_timer s) (tick s) (dash_off s)
    (hand_x s) (particles s).
Definition set_game_over (v : bool) (s : State) : State :=
  mkState (car_lane s) (car_x_px s) (car_y s) (score s) (lives s) (enemies s)
    (enemy_spd s) (spawn_cd s) v (go_timer s) (tick s) (dash_off s)
    (hand_x s) (particles s).
Definition set_go_timer (v : Z) (s : State) : State :=
  mkState (car_lane s) (car_x_px s) (car_y s) (score s) (lives s) (enemies s)
    (enemy_spd s) (spawn_cd s) (game_over s) v (tick s) (dash_off s)
    (hand_x s) (particles s).
Definition set_tick (v : Z) (s : State) : State :=
  mkState (car_lane s) (car_x_px s) (car_y s) (score s) (lives s) (enemies s)
    (enemy_spd s) (spawn_cd s) (game_over s) (go_timer s) v (dash_off s)
    (hand_x s) (particles s).
Definition set_dash_off (v : float) (s : State) : State :=
  mkState (car_lane s) (car_x_px s) (car_y s) (score s) (lives s) (enemies s)
    (enemy_spd s) (spawn_cd s) (game_over s) (go_timer s) (tick s) v
    (hand_x s) (particles s).
Definition set_hand_x (v : option Z) (s : State) : State :=
  mkState (car_lane s) (car_x_px s) (car_y s) (score s) (lives s) (enemies s)
    (enemy_spd s) (spawn_cd s) (game_over s) (go_timer s) (tick s)
    (dash_off s) v (particles s).
Definition set_particles (v : list Particle) (s : State) : State :=
  mkState (car_lane s) (car_x_px s) (car_y s) (score s) (lives s) (enemies s)
    (enemy_spd s) (spawn_cd s) (game_over s) (go_timer s) (tick s)
    (dash_off s) (hand_x s) v.

(** ** What a tick takes from outside

    The camera: whether [cap.read()] succeeded, the width of the picture
    and the hand position [int(lm.x * w)] that MediaPipe reports for it
    ([None] without a hand).  The random numbers: the raw draws of the
    spawn block, and for the explosion of the enemy at index [i] the draws
    [in_burst i k] of its [k]-th particle. *)
Record Input : Type := mkInput {
  in_ret : bool;
  in_width : Z;
  in_hand : option Z;
  in_lane : N;
  in_palette : N;
  in_jitter : N;
  in_burst : nat -> nat -> ParticleDraw }.

(** The variables of [main] that live across iterations: [s], [cam_tick]
    and the picture width [w]. *)
Record World : Type := mkWorld { st : State; cam_tick : Z; frame_w : Z }.

(** ** One tick of the game logic *)

(** [del l[i]] (the loop only deletes indices that exist). *)
Fixpoint del_at {A : Type} (i : nat) (l : list A) : list A :=
  match l, i with
  | [], _ => []
  | _ :: t, O => t
  | x :: t, S j => x :: del_at j t
  end.

(** [sorted(set(l))] for a list of indices: ascending, without repetition. *)
Fixpoint insert_index (i : nat) (l : list nat) : list nat :=
  match l with
  | [] => [i]
  | j :: t =>
      if (i <? j)%nat then i :: l
      else if (i =? j)%nat then l
      else j :: insert_index i t
  end.

Definition sorted_set (l : list nat) : list nat := fold_right insert_index [] l.

(** [for i in reversed(sorted(set(to_remove))): del s['enemies'][i]] *)
Definition delete_indices (to_remove : list nat) (es : list Enemy) : list Enemy :=
  fold_left (fun l i => del_at i l) (rev (sorted_set to_remove)) es.

Definition car_rect_of (s : State) : Rect :=
  mkRect (Py.int_of_float (car_x_px s)) (car_y s) CAR_W CAR_H.

Definition enemy_rect (cx : Z) (ey : float) : Rect :=
  mkRect (cx - ENEMY_W / 2) (Py.int_of_float ey) ENEMY_W ENEMY_H.

(** The block "Spawn enemies". *)
Definition spawn_enemies (i : Input) (s : State) : State :=
  let s := set_spawn_cd (spawn_cd s - 1) s in
  let base_interval := Z.max 25 (70 - score s / 5) in
  if (spawn_cd s <=? 0) && (length (enemies s) <? MAX_ENEMIES)%nat then
    let lane := Py.randint 0 (LANE_COUNT - 1) (in_lane i) in
    let palette := nth (Py.choice_index 5 (in_palette i)) ENEMY_PALETTES
                       ((0, 0, 0), (0, 0, 0)) in
    let s := set_enemies
               (enemies s ++
                [mkEnemy (lane_x lane) (Py.float_of_int (- ENEMY_H)) palette]) s in
    set_spawn_cd (base_interval + Py.randint (-8) 8 (in_jitter i)) s
  else s.

(** What the body of the loop "Update enemies" does to the session for the
    enemy at index [i], once it has been moved to [ey]: a collision, an
    exit at the bottom, or nothing.  The result says whether [i] was
    appended to [to_remove]. *)
Definition resolve_enemy (draws : nat -> ParticleDraw) (car_rect : Rect)
    (cx : Z) (ey : float) (pal : Palette) (s : State) : State * bool :=
  if colliderect car_rect (enemy_rect cx ey) then
    let s := set_particles
               (explode (particles s) cx
                        (Py.int_of_float (ey + Py.float_of_int (ENEMY_H / 2)))
                        pal draws) s in
    let s := set_lives (lives s - 1) s in
    let s := if lives s <=? 0
             then set_go_timer (FPS * 2) (set_game_over true s)
             else s in
    (s, true)
  else if (Py.float_of_int WIN_H <? ey)%float then
    let s := set_score (score s + 1) s in
    let s := if score s mod 8 =? 0
             then set_enemy_spd (Py.min MAX_SPEED (enemy_spd s + 0.5)) s
             else s in
    (s, true)
  else (s, false).

(** The loop "Update enemies" over [enumerate(s['enemies'])], from index [i]
    on: each enemy is moved by the speed the session has at that moment and
    then resolved.  It returns the moved enemies, the session and
    [to_remove]. *)
Fixpoint update_enemies (burst : nat -> nat -> ParticleDraw) (car_rect : Rect)
    (i : nat) (es : list Enemy) (s : State) (to_remove : list nat)
    : list Enemy * State * list nat :=
  match es with
  | [] => ([], s, to_remove)
  | e :: rest =>
      let ey := (e_y e + enemy_spd s)%float in
      let '(s1, gone) := resolve_enemy (burst i) car_rect (e_cx e) ey (e_pal e) s in
      let to_remove1 := if gone then to_remove ++ [i] else to_remove in
      let '(rest', s', to_remove') :=
        update_enemies burst car_rect (S i) rest s1 to_remove1 in
      (mkEnemy (e_cx e) ey (e_pal e) :: rest', s', to_remove')
  end.

(** The branch [if not s['game_over']]. *)
Definition playing (i : Input) (w : Z) (s : State) : State :=
  let target_lane := hand_lane (hand_x s) w in
  let target_x := Py.float_of_int (lane_x target_lane - CAR_W / 2) in
  let s := set_car target_lane (lerp (car_x_px s) target_x 0.25) s in
  let car_rect := car_rect_of s in
  let s := spawn_enemies i s in
  let '(moved, s, to_remove) :=
    update_enemies (in_burst i) car_rect 0 (enemies s) s [] in
  set_enemies (delete_indices to_remove moved) s.

(** The branch [else]: the game-over screen with the restart cooldown. *)
Definition game_over_screen (s : State) : State :=
  if 0 <? go_timer s then set_go_timer (go_timer s - 1) s
  else match hand_x s with
       | Some _ => reset_state
       | None => s
       end.

(** One iteration of [while running]. *)
Definition step (i : Input) (w : World) : World :=
  let s := set_tick (tick (st w) + 1) (st w) in
  let cam_tick' := cam_tick w + 1 in
  let processed := (cam_tick' mod CAM_SKIP =? 0) && in_ret i in
  let w' := if processed then in_width i else frame_w w in
  let s := if processed then set_hand_x (in_hand i) s else s in
  let s := set_dash_off
             (Py.float_mod (dash_off s + enemy_spd s * 0.6)
                           (Py.float_of_int (DASH_LEN + DASH_GAP))) s in
  let s := if negb (game_over s) then playing i w' s else game_over_screen s in
  let s := set_particles (particles_tick (particles s)) s in
  mkWorld s cam_tick' w'.

(** [main] up to the loop: the first session, for a first picture of width
    [w0]. *)
Definition init_world (w0 : Z) : World := mkWorld reset_state 0 w0.

Definition run (inputs : list Input) (w : World) : World :=
  fold_left (fun w i => step i w) inputs w.

(** The worlds the program can be in between two ticks. *)
Inductive reachable : World -> Prop :=
| reachable_init : forall w0, reachable (init_world w0)
| reachable_step : forall i w, reachable w -> reachable (step i w).

(** ** Binary64 on the half-integers of the game

    The enemy speed starts at 5.0 and grows in steps of 0.5 up to 18.0, and
    an enemy starts at -84 and is moved by the speed until it has passed
    600: these floats are the halves [k/2] of small integers.  On them the
    binary64 operations of the loop are exact; this is checked here value
    by value, by evaluating the operations themselves. *)

Definition half (k : Z) : float := (Py.float_of_int k * 0.5)%float.
Definition twice (y : float) : Z := Py.int_of_float (y * 2)%float.

Definition zrange (lo : Z) (n : nat) : list Z :=
  map (fun i => lo + Z.of_nat i) (seq 0 n).

Lemma Forall_zrange (P : Z -> Prop) (lo : Z) (n : nat) :
  Forall P (zrange lo n) -> forall k, lo <= k < lo + Z.of_nat n -> P k.
Proof.
  intros HF k Hk. rewrite Forall_forall in HF. apply HF.
  unfold zrange. apply in_map_iff. exists (Z.to_nat (k - lo)).
  split; [lia | apply in_seq; lia].
Qed.

Lemma forallb_zrange (f : Z -> bool) (lo : Z) (n : nat) :
  forallb f (zrange lo n) = true ->
  forall k, lo <= k < lo + Z.of_nat n -> f k = true.
Proof.
  intros HF. apply Forall_zrange. apply Forall_forall.
  rewrite forallb_forall in HF. exact HF.
Qed.

Ltac each_value tac :=
  vm_compute zrange; repeat (apply Forall_cons; [ tac | ]); apply Forall_nil.

Lemma half_add (k j : Z) :
  -168 <= k <= 1200 -> 10 <= j <= 36 -> (half k + half j)%float = half (k + j).
Proof.
  intros Hk Hj. revert j Hj.
  assert (T : forall k, -168 <= k < -168 + Z.of_nat 1369 ->
              forall j, 10 <= j < 10 + Z.of_nat 27 ->
              (half k + half j)%float = half (k + j)).
  { apply (Forall_zrange
             (fun k => forall j, 10 <= j < 10 + Z.of_nat 27 ->
                       (half k + half j)%float = half (k + j))).
    each_value ltac:(apply (Forall_zrange
                              (fun j => (half _ + half j)%float = half (_ + j)));
                     each_value ltac:(vm_compute; reflexivity)). }
  intros j Hj. apply T; lia.
Qed.

Lemma half_speed_up (j : Z) :
  10 <= j <= 36 ->
  Py.min MAX_SPEED (half j + 0.5)%float = half (Z.min 36 (j + 1)).
Proof.
  intros Hj.
  assert (T : forall j, 10 <= j < 10 + Z.of_nat 27 ->
              Py.min MAX_SPEED (half j + 0.5)%float = half (Z.min 36 (j + 1))).
  { apply (Forall_zrange
             (fun j => Py.min MAX_SPEED (half j + 0.5)%float
                       = half (Z.min 36 (j + 1)))).
    each_value ltac:(vm_compute; reflexivity). }
  apply T; lia.
Qed.

Lemma twice_half (k : Z) : -168 <= k <= 1236 -> twice (half k) = k.
Proof.
  intros Hk.
  assert (T : forall k, -168 <= k < -168 + Z.of_nat 1405 ->
              (twice (half k) =? k) = true).
  { apply forallb_zrange. vm_compute. reflexivity. }
  apply Z.eqb_eq, T. lia.
Qed.

Lemma int_of_half (k : Z) :
  -168 <= k <= 1236 -> Py.int_of_float (half k) = Z.quot k 2.
Proof.
  intros Hk.
  assert (T : forall k, -168 <= k < -168 + Z.of_nat 1405 ->
              (Py.int_of_float (half k) =? Z.quot k 2) = true).
  { apply forallb_zrange. vm_compute. reflexivity. }
  apply Z.eqb_eq, T. lia.
Qed.

Lemma below_half (k : Z) :
  -168 <= k <= 1236 ->
  (Py.float_of_int WIN_H <? half k)%float = (1200 <? k).
Proof.
  intros Hk.
  assert (T : forall k, -168 <= k < -168 + Z.of_nat 1405 ->
              Bool.eqb (Py.float_of_int WIN_H <? half k)%float (1200 <? k) = true).
  { apply forallb_zrange. vm_compute. reflexivity. }
  apply Bool.eqb_prop, T. lia.
Qed.

Lemma half_leb (j j' : Z) :
  10 <= j <= 37 -> 10 <= j' <= 37 -> (half j <=? half j')%float = (j <=? j').
Proof.
  intros Hj Hj'.
  assert (T : forall j, 10 <= j < 10 + Z.of_nat 28 ->
              forallb (fun j' => Bool.eqb (half j <=? half j')%float (j <=? j'))
                      (zrange 10 28) = true).
  { apply forallb_zrange. vm_compute. reflexivity. }
  apply Bool.eqb_prop.
  apply (forallb_zrange _ 10 28 (T j ltac:(lia))). lia.
Qed.

Lemma half_ltb (j j' : Z) :
  10 <= j <= 37 -> 10 <= j' <= 37 -> (half j <? half j')%float = (j <? j').
Proof.
  intros Hj Hj'.
  assert (T : forall j, 10 <= j < 10 + Z.of_nat 28 ->
              forallb (fun j' => Bool.eqb (half j <? half j')%float (j <? j'))
                      (zrange 10 28) = true).
  { apply forallb_zrange. vm_compute. reflexivity. }
  apply Bool.eqb_prop.
  apply (forallb_zrange _ 10 28 (T j ltac:(lia))). lia.
Qed.

(** Adding 0.5 to a speed below the cap: the next half. *)
Lemma half_plus (j : Z) : 10 <= j <= 36 -> (half j + 0.5)%float = half (j + 1).
Proof.
  intros Hj.
  assert (T : forall j, 10 <= j < 10 + Z.of_nat 27 ->
              (half j + 0.5)%float = half (j + 1)).
  { apply (Forall_zrange (fun j => (half j + 0.5)%float = half (j + 1))).
    each_value ltac:(vm_compute; reflexivity). }
  apply T; lia.
Qed.

(** Distinct halves are distinct floats. *)
Lemma half_inj (j j' : Z) :
  -168 <= j <= 1236 -> -168 <= j' <= 1236 -> half j = half j' -> j = j'.
Proof.
  intros Hj Hj' E. rewrite <- (twice_half j), <- (twice_half j') by assumption.
  now rewrite E.
Qed.


(** ** The loop "Update enemies", enemy by enemy *)

(** The three outcomes for a moved enemy. *)
Definition hit (car : Rect) (e : Enemy) : bool :=
  colliderect car (enemy_rect (e_cx e) (e_y e)).
Definition below (e : Enemy) : bool :=
  (Py.float_of_int WIN_H <? e_y e)%float.
Definition exited (car : Rect) (e : Enemy) : bool := negb (hit car e) && below e.
Definition gone (car : Rect) (e : Enemy) : bool := hit car e || below e.

Definition moved_by (spd : float) (e : Enemy) : Enemy :=
  mkEnemy (e_cx e) (e_y e + spd)%float (e_pal e).

Definition resolve (draws : nat -> ParticleDraw) (car : Rect) (e : Enemy)
    (s : State) : State * bool :=
  resolve_enemy draws car (e_cx e) (e_y e) (e_pal e) s.

Definition loop_moved burst car i es s rm : list Enemy :=
  fst (fst (update_enemies burst car i es s rm)).
Definition loop_state burst car i es s rm : State :=
  snd (fst (update_enemies burst car i es s rm)).
Definition loop_marks burst car i es s rm : list nat :=
  snd (update_enemies burst car i es s rm).

Section Loop.

Variable burst : nat -> nat -> ParticleDraw.
Variable car : Rect.

Lemma update_enemies_cons i e rest s rm :
  update_enemies burst car i (e :: rest) s rm =
  let e' := moved_by (enemy_spd s) e in
  let r := resolve (burst i) car e' s in
  let rm1 := if snd r then rm ++ [i] else rm in
  (e' :: loop_moved burst car (S i) rest (fst r) rm1,
   loop_state burst car (S i) rest (fst r) rm1,
   loop_marks burst car (S i) rest (fst r) rm1).
Proof.
  unfold loop_moved, loop_state, loop_marks, resolve, moved_by. simpl.
  destruct (resolve_enemy _ _ _ _ _ _) as [s1 g]. simpl.
  destruct (update_enemies _ _ _ _ _ _) as [[m s'] r']. reflexivity.
Qed.

Lemma loop_moved_cons i e rest s rm :
  loop_moved burst car i (e :: rest) s rm =
  let e' := moved_by (enemy_spd s) e in
  let r := resolve (burst i) car e' s in
  e' :: loop_moved burst car (S i) rest (fst r) (if snd r then rm ++ [i] else rm).
Proof. unfold loop_moved at 1. now rewrite update_enemies_cons. Qed.

Lemma loop_state_cons i e rest s rm :
  loop_state burst car i (e :: rest) s rm =
  let e' := moved_by (enemy_spd s) e in
  let r := resolve (burst i) car e' s in
  loop_state burst car (S i) rest (fst r) (if snd r then rm ++ [i] else rm).
Proof. unfold loop_state at 1. now rewrite update_enemies_cons. Qed.

Lemma loop_marks_cons i e rest s rm :
  loop_marks burst car i (e :: rest) s rm =
  let e' := moved_by (enemy_spd s) e in
  let r := resolve (burst i) car e' s in
  loop_marks burst car (S i) rest (fst r) (if snd r then rm ++ [i] else rm).
Proof. unfold loop_marks at 1. now rewrite update_enemies_cons. Qed.

(** [resolve] by outcome. *)
Lemma resolve_hit draws e s :
  hit car e = true ->
  resolve draws car e s =
  (let s1 := set_lives (lives s - 1)
               (set_particles
                  (explode (particles s) (e_cx e)
                     (Py.int_of_float (e_y e + Py.float_of_int (ENEMY_H / 2)))
                     (e_pal e) draws) s) in
   if lives s1 <=? 0 then set_go_timer (FPS * 2) (set_game_over true s1) else s1,
   true).
Proof. unfold resolve, resolve_enemy, hit. now intros ->. Qed.

Lemma resolve_exited draws e s :
  exited car e = true ->
  resolve draws car e s =
  (let s1 := set_score (score s + 1) s in
   if score s1 mod 8 =? 0
   then set_enemy_spd (Py.min MAX_SPEED (enemy_spd s1 + 0.5)) s1 else s1,
   true).
Proof.
  unfold resolve, resolve_enemy, exited, hit, below.
  intros H. apply andb_prop in H as [H1 H2].
  apply negb_true_iff in H1. now rewrite H1, H2.
Qed.

Lemma resolve_stays draws e s :
  gone car e = false -> resolve draws car e s = (s, false).
Proof.
  unfold resolve, resolve_enemy, gone, hit, below.
  intros H. apply orb_false_elim in H as [H1 H2]. now rewrite H1, H2.
Qed.

Lemma outcome_cases e :
  (hit car e = true /\ exited car e = false /\ gone car e = true) \/
  (hit car e = false /\ exited car e = true /\ gone car e = true) \/
  (hit car e = false /\ exited car e = false /\ gone car e = false).
Proof.
  unfold exited, gone. destruct (hit car e), (below e); simpl; auto.
Qed.

Lemma resolve_snd draws e s : snd (resolve draws car e s) = gone car e.
Proof.
  destruct (outcome_cases e) as [(H & _ & G) | [(_ & X & G) | (_ & _ & G)]];
    rewrite G.
  - now rewrite resolve_hit.
  - now rewrite resolve_exited.
  - now rewrite resolve_stays.
Qed.

(** The indices the loop appends to [to_remove], counted from [i]. *)
Fixpoint marks (i : nat) (l : list Enemy) : list nat :=
  match l with
  | [] => []
  | e :: t => if gone car e then i :: marks (S i) t else marks (S i) t
  end.

Lemma loop_marks_spec es : forall i s rm,
  loop_marks burst car i es s rm = rm ++ marks i (loop_moved burst car i es s rm).
Proof.
  induction es as [|e rest IH]; intros i s rm.
  - unfold loop_marks, loop_moved. simpl. now rewrite app_nil_r.
  - rewrite loop_marks_cons, loop_moved_cons. cbv zeta. simpl marks.
    rewrite IH, resolve_snd.
    destruct (gone car _); [rewrite <- app_assoc|]; reflexivity.
Qed.

Lemma loop_moved_length es : forall i s rm,
  length (loop_moved burst car i es s rm) = length es.
Proof.
  induction es as [|e rest IH]; intros i s rm; [reflexivity|].
  rewrite loop_moved_cons. cbv zeta. simpl. now rewrite IH.
Qed.

End Loop.


(** ** Removal by index *)

Section Removal.

Variable car : Rect.

Lemma marks_ge l : forall i, Forall (fun j => (i <= j)%nat) (marks car i l).
Proof.
  induction l as [|e t IH]; intros i; simpl; [constructor|].
  assert (T : Forall (fun j => (i <= j)%nat) (marks car (S i) t)).
  { eapply Forall_impl; [|apply IH]. simpl. intros; lia. }
  destruct (gone car e); [constructor; [lia | exact T] | exact T].
Qed.

Lemma insert_index_first i m :
  Forall (fun j => (S i <= j)%nat) m -> insert_index i m = i :: m.
Proof.
  destruct m as [|j m]; [reflexivity|]. intros H.
  apply Forall_inv in H. simpl.
  destruct (Nat.ltb_spec i j); [reflexivity | lia].
Qed.

(** The loop appends each index once and in ascending order, so
    [sorted(set(to_remove))] is [to_remove]. *)
Lemma sorted_set_marks l : forall i, sorted_set (marks car i l) = marks car i l.
Proof.
  induction l as [|e t IH]; intros i; simpl; [reflexivity|].
  destruct (gone car e); [|apply IH].
  unfold sorted_set in *. simpl. rewrite IH.
  apply insert_index_first, marks_ge.
Qed.

Lemma del_at_app {A : Type} (pre : list A) (x : A) (post : list A) :
  del_at (length pre) (pre ++ x :: post) = pre ++ post.
Proof. induction pre as [|y pre IH]; simpl; [reflexivity | now rewrite IH]. Qed.

Lemma delete_marks l : forall pre,
  fold_left (fun l i => del_at i l) (rev (marks car (length pre) l)) (pre ++ l)
  = pre ++ filter (fun e => negb (gone car e)) l.
Proof.
  induction l as [|e t IH]; intros pre; simpl; [reflexivity|].
  assert (E : pre ++ e :: t = (pre ++ [e]) ++ t) by now rewrite <- app_assoc.
  assert (L : S (length pre) = length (pre ++ [e])).
  { rewrite length_app. simpl. lia. }
  destruct (gone car e); simpl.
  - rewrite fold_left_app. simpl. rewrite E, L, IH, <- app_assoc. simpl.
    apply del_at_app.
  - rewrite E, L, IH, <- app_assoc. reflexivity.
Qed.

(** Deleting the marked indices, highest first, keeps exactly the enemies
    that were not marked; no element is skipped. *)
Lemma delete_indices_marks l :
  delete_indices (marks car 0 l) l = filter (fun e => negb (gone car e)) l.
Proof.
  unfold delete_indices. rewrite sorted_set_marks.
  apply (delete_marks l []).
Qed.

End Removal.


(** ** Score, speed and positions through the loop *)

(** The speed, in halves, that belongs to a score: 5.0 plus 0.5 for every
    eighth point, capped at 18.0. *)
Definition speed_of_score (sc : Z) : Z := Z.min 36 (10 + sc / 8).

(** The top of an enemy in half pixels. *)
Definition pos2 (e : Enemy) : Z := twice (e_y e).

Definition on_grid (lo hi : Z) (e : Enemy) : Prop :=
  e_y e = half (pos2 e) /\ lo <= pos2 e <= hi.

(** [e'] is [e] after the loop, moved by a speed between [j] and [j']. *)
Definition tracks (j j' : Z) (e e' : Enemy) : Prop :=
  e_cx e' = e_cx e /\ e_pal e' = e_pal e /\
  on_grid (-168) 1236 e' /\
  pos2 e + j <= pos2 e' <= pos2 e + j'.

Lemma speed_of_score_bounds sc : 0 <= sc -> 10 <= speed_of_score sc <= 36.
Proof.
  intros H. unfold speed_of_score.
  assert (0 <= sc / 8) by (apply Z.div_pos; lia). lia.
Qed.

Lemma speed_of_score_mono a b :
  a <= b -> speed_of_score a <= speed_of_score b.
Proof.
  intros H. unfold speed_of_score.
  assert (a / 8 <= b / 8) by (apply Z.div_le_mono; lia). lia.
Qed.

Lemma speed_of_score_succ sc :
  0 <= sc ->
  speed_of_score (sc + 1) =
  if (sc + 1) mod 8 =? 0 then Z.min 36 (speed_of_score sc + 1)
  else speed_of_score sc.
Proof.
  intros H. unfold speed_of_score.
  destruct (Z.eqb_spec ((sc + 1) mod 8) 0) as [E|E];
    Z.div_mod_to_equations; lia.
Qed.

Lemma MAX_SPEED_half : MAX_SPEED = half 36.
Proof. vm_compute. reflexivity. Qed.

Lemma moved_on_grid j e :
  10 <= j <= 36 -> on_grid (-168) 1200 e ->
  on_grid (-168) 1236 (moved_by (half j) e) /\
  pos2 (moved_by (half j) e) = pos2 e + j.
Proof.
  intros Hj [Ey Hr].
  assert (E : e_y (moved_by (half j) e) = half (pos2 e + j)).
  { simpl. rewrite Ey at 1. apply half_add; assumption. }
  assert (P : pos2 (moved_by (half j) e) = pos2 e + j).
  { unfold pos2 at 1. rewrite E. apply twice_half. lia. }
  split; [split|]; [now rewrite P | lia | exact P].
Qed.

(** Fields the loop never writes. *)
Definition same_frame (s s' : State) : Prop :=
  car_lane s' = car_lane s /\ car_x_px s' = car_x_px s /\
  car_y s' = car_y s /\ enemies s' = enemies s /\
  spawn_cd s' = spawn_cd s /\ tick s' = tick s /\
  dash_off s' = dash_off s /\ hand_x s' = hand_x s.

Lemma same_frame_refl s : same_frame s s.
Proof. repeat split. Qed.

Lemma same_frame_trans s1 s2 s3 :
  same_frame s1 s2 -> same_frame s2 s3 -> same_frame s1 s3.
Proof.
  unfold same_frame. intros (a1 & a2 & a3 & a4 & a5 & a6 & a7 & a8)
    (b1 & b2 & b3 & b4 & b5 & b6 & b7 & b8).
  repeat split; congruence.
Qed.

Section LoopFacts.

Variable burst : nat -> nat -> ParticleDraw.
Variable car : Rect.

Lemma resolve_frame draws e s : same_frame s (fst (resolve draws car e s)).
Proof.
  destruct (outcome_cases car e) as [(H & _) | [(_ & X & _) | (_ & _ & G)]].
  - rewrite (resolve_hit car draws e s H). cbv zeta. simpl fst.
    destruct (_ <=? 0); repeat split.
  - rewrite (resolve_exited car draws e s X). cbv zeta. simpl fst.
    destruct (_ =? 0); repeat split.
  - rewrite (resolve_stays car draws e s G). apply same_frame_refl.
Qed.

Lemma loop_frame es : forall i s rm,
  same_frame s (loop_state burst car i es s rm).
Proof.
  induction es as [|e rest IH]; intros i s rm.
  - apply same_frame_refl.
  - rewrite loop_state_cons. cbv zeta.
    eapply same_frame_trans; [apply resolve_frame | apply IH].
Qed.

(** One enemy: the score counts an exit, and the speed follows the score. *)
Lemma resolve_score draws e s :
  0 <= score s ->
  enemy_spd s = half (speed_of_score (score s)) ->
  let s1 := fst (resolve draws car e s) in
  score s1 = score s + (if exited car e then 1 else 0) /\
  enemy_spd s1 = half (speed_of_score (score s1)).
Proof.
  intros Hs Hv. cbv zeta.
  destruct (outcome_cases car e) as [(H & X & _) | [(_ & X & _) | (_ & X & G)]];
    rewrite X.
  - rewrite (resolve_hit car draws e s H). cbv zeta. simpl fst.
    destruct (_ <=? 0); simpl; rewrite Z.add_0_r; auto.
  - rewrite (resolve_exited car draws e s X). cbv zeta. simpl fst.
    pose proof (speed_of_score_succ (score s) Hs) as S.
    pose proof (speed_of_score_bounds (score s) Hs) as B.
    simpl score at 1.
    destruct ((score s + 1) mod 8 =? 0); simpl; split; try reflexivity.
    + rewrite Hv, S. apply half_speed_up. exact B.
    + now rewrite S.
  - rewrite (resolve_stays car draws e s G). simpl. rewrite Z.add_0_r. auto.
Qed.

Lemma loop_score es : forall i s rm,
  0 <= score s ->
  enemy_spd s = half (speed_of_score (score s)) ->
  Forall (on_grid (-168) 1200) es ->
  let m := loop_moved burst car i es s rm in
  let s' := loop_state burst car i es s rm in
  score s' = score s + Z.of_nat (length (filter (exited car) m)) /\
  enemy_spd s' = half (speed_of_score (score s')) /\
  Forall2 (tracks (speed_of_score (score s)) (speed_of_score (score s'))) es m.
Proof.
  induction es as [|e rest IH]; intros i s rm Hs Hv Hg; cbv zeta.
  - unfold loop_moved, loop_state. simpl. rewrite Z.add_0_r. auto.
  - rewrite loop_moved_cons, loop_state_cons. cbv zeta.
    apply Forall_cons_iff in Hg as [He Hrest].
    pose proof (speed_of_score_bounds (score s) Hs) as B.
    set (e' := moved_by (enemy_spd s) e).
    destruct (moved_on_grid _ e B He) as [Ge' Pe']. rewrite <- Hv in Ge', Pe'.
    fold e' in Ge', Pe'.
    destruct (resolve_score (burst i) e' s Hs Hv) as [S1 V1].
    set (s1 := fst (resolve (burst i) car e' s)) in *.
    assert (Hs1 : 0 <= score s1) by (rewrite S1; destruct (exited car e'); lia).
    specialize (IH (S i) s1 (if snd (resolve (burst i) car e' s)
                             then rm ++ [i] else rm) Hs1 V1 Hrest).
    cbv zeta in IH. destruct IH as (S2 & V2 & T2).
    set (m := loop_moved burst car (S i) rest s1 _) in *.
    set (s' := loop_state burst car (S i) rest s1 _) in *.
    assert (L1 : score s <= score s1) by (rewrite S1; destruct (exited car e'); lia).
    assert (L2 : score s1 <= score s') by (rewrite S2; lia).
    pose proof (speed_of_score_mono _ _ L1) as M1.
    pose proof (speed_of_score_mono _ _ L2) as M2.
    split; [|split].
    + rewrite S2, S1. simpl filter. destruct (exited car e'); simpl length; lia.
    + exact V2.
    + constructor.
      * unfold tracks. repeat split; try apply Ge'; rewrite Pe'; lia.
      * eapply Forall2_impl; [|exact T2].
        intros a b (T1 & T3 & T4 & T5). repeat split; try assumption; try apply T4; lia.
Qed.

(** Lives and the game-over flag: each collision costs a life, and the
    flag is raised by a collision that leaves no life. *)
Lemma resolve_lives draws e s :
  let s1 := fst (resolve draws car e s) in
  lives s1 = lives s - (if hit car e then 1 else 0) /\
  game_over s1 = game_over s || (hit car e && (lives s1 <=? 0)) /\
  go_timer s1 = (if hit car e && (lives s1 <=? 0) then FPS * 2 else go_timer s).
Proof.
  cbv zeta.
  destruct (outcome_cases car e) as [(H & X & _) | [(H & X & _) | (H & X & G)]];
    rewrite H.
  - rewrite (resolve_hit car draws e s H). cbv zeta. simpl fst.
    simpl lives at 1. destruct (lives s - 1 <=? 0) eqn:E; simpl; rewrite ?E;
      repeat split; auto using orb_true_r, orb_false_r.
  - rewrite (resolve_exited car draws e s X). cbv zeta. simpl fst.
    destruct (_ =? 0); simpl; rewrite Z.sub_0_r, orb_false_r; auto.
  - rewrite (resolve_stays car draws e s G). simpl.
    rewrite Z.sub_0_r, orb_false_r; auto.
Qed.

Lemma loop_lives es : forall i s rm,
  let m := loop_moved burst car i es s rm in
  let s' := loop_state burst car i es s rm in
  let hits := Z.of_nat (length (filter (hit car) m)) in
  lives s' = lives s - hits /\
  game_over s' = game_over s || ((0 <? hits) && (lives s' <=? 0)).
Proof.
  induction es as [|e rest IH]; intros i s rm; cbv zeta.
  - unfold loop_moved, loop_state. simpl. rewrite Z.sub_0_r, orb_false_r. auto.
  - rewrite loop_moved_cons, loop_state_cons. cbv zeta.
    set (e' := moved_by (enemy_spd s) e).
    destruct (resolve_lives (burst i) e' s) as (L1 & G1 & _).
    set (s1 := fst (resolve (burst i) car e' s)) in *.
    specialize (IH (S i) s1 (if snd (resolve (burst i) car e' s)
                             then rm ++ [i] else rm)).
    cbv zeta in IH. destruct IH as (L2 & G2).
    set (m := loop_moved burst car (S i) rest s1 _) in *.
    set (s' := loop_state burst car (S i) rest s1 _) in *.
    simpl filter. rewrite G2, G1, L2, L1.
    destruct (hit car e'); simpl length; simpl andb.
    + split; [lia|].
      set (h := Z.of_nat (length (filter (hit car) m))).
      assert (0 <= h) by (unfold h; lia).
      replace (0 <? Z.of_nat (S (length (filter (hit car) m)))) with true
        by (symmetry; apply Z.ltb_lt; lia).
      destruct (game_over s); simpl; [reflexivity|].
      destruct (Z.leb_spec (lives s - 1) 0), (Z.ltb_spec 0 h),
        (Z.leb_spec (lives s - 1 - h) 0); simpl; try reflexivity; lia.
    + rewrite Z.sub_0_r, orb_false_r. auto.
Qed.

End LoopFacts.


(** ** Distances between enemies *)

(** [a] is at least 168 pixels below [b], plus the speed that is still to
    come before the cap (all in halves): the loop moves a later enemy by at
    most that much more than an earlier one. *)
Definition apart (j : Z) (a b : Enemy) : Prop := 372 - j <= pos2 a - pos2 b.

Lemma Forall2_Forall {A B : Type} (R : A -> B -> Prop) (P : A -> Prop)
    (Q : B -> Prop) (l : list A) (m : list B) :
  (forall x y, R x y -> P x -> Q y) ->
  Forall2 R l m -> Forall P l -> Forall Q m.
Proof.
  intros H F. induction F as [|x y l m Rxy F IH]; intros HP; constructor.
  - apply (H x y Rxy). now apply Forall_inv in HP.
  - apply IH. now apply Forall_inv_tail in HP.
Qed.

Lemma Forall2_right {A B : Type} (R : A -> B -> Prop) (Q : B -> Prop)
    (l : list A) (m : list B) :
  (forall x y, R x y -> Q y) -> Forall2 R l m -> Forall Q m.
Proof.
  intros H F. induction F; constructor; eauto.
Qed.

Lemma tracks_sorted j j' es m :
  Forall2 (tracks j j') es m ->
  StronglySorted (apart j) es -> StronglySorted (apart j') m.
Proof.
  intros F. induction F as [|a a' es m Ta F IH]; intros S; [constructor|].
  apply StronglySorted_inv in S as [S Ha].
  constructor; [now apply IH|].
  eapply Forall2_Forall; [|exact F|exact Ha].
  intros b b' (_ & _ & _ & Tb) Hab. destruct Ta as (_ & _ & _ & Ta).
  unfold apart in *. lia.
Qed.

Lemma StronglySorted_filter {A : Type} (R : A -> A -> Prop) (f : A -> bool)
    (l : list A) :
  StronglySorted R l -> StronglySorted R (filter f l).
Proof.
  induction 1 as [|a l S IH Ha]; simpl; [constructor|].
  destruct (f a); [|exact IH].
  constructor; [exact IH|].
  rewrite Forall_forall in *. intros x Hx. apply Ha.
  now apply filter_In in Hx.
Qed.

Lemma Forall_filter_keep {A : Type} (P : A -> Prop) (f : A -> bool) (l : list A) :
  Forall P l -> Forall P (filter f l).
Proof.
  rewrite !Forall_forall. intros H x Hx. apply H. now apply filter_In in Hx.
Qed.

Lemma filter_none {A : Type} (f : A -> bool) (l : list A) :
  Forall (fun x => f x = false) l -> filter f l = [].
Proof.
  induction 1 as [|x l Hx _ IH]; simpl; [reflexivity|now rewrite Hx].
Qed.

Section Window.

Variable car : Rect.
Hypothesis car_top : r_y car = 492.
Hypothesis car_height : r_h car = 84.

(** An enemy that overlaps the car has its top between 409 and 575. *)
Lemma hit_window e :
  hit car e = true -> 409 <= Py.int_of_float (e_y e) <= 575.
Proof.
  unfold hit, colliderect, enemy_rect, ENEMY_H. simpl.
  rewrite car_top, car_height. intros H.
  repeat (apply andb_prop in H as [H ?]).
  repeat match goal with X : (_ <? _) = true |- _ => apply Z.ltb_lt in X end.
  lia.
Qed.

Lemma hit_window2 e :
  on_grid (-168) 1236 e -> hit car e = true -> 818 <= pos2 e <= 1151.
Proof.
  intros [Ey Hr] H. apply hit_window in H.
  rewrite Ey, int_of_half in H by exact Hr.
  Z.quot_rem_to_equations. lia.
Qed.

Lemma below_pos2 e :
  on_grid (-168) 1236 e -> below e = (1200 <? pos2 e).
Proof.
  intros [Ey Hr]. unfold below. rewrite Ey at 1. now apply below_half.
Qed.

(** In the game an enemy that overlaps the car is not below the bottom. *)
Lemma hit_not_below e :
  on_grid (-168) 1236 e -> hit car e = true -> below e = false.
Proof.
  intros G H. rewrite (below_pos2 e G). apply hit_window2 in H; [|exact G].
  apply Z.ltb_ge. lia.
Qed.

Lemma at_most_one_hit j m :
  j <= 36 -> StronglySorted (apart j) m ->
  Forall (on_grid (-168) 1236) m ->
  (length (filter (hit car) m) <= 1)%nat.
Proof.
  intros Hj S. induction S as [|a m S IH Ha]; intros G; simpl; [lia|].
  apply Forall_cons_iff in G as [Ga Gm].
  destruct (hit car a) eqn:E; [|now apply IH].
  rewrite filter_none; [simpl; lia|].
  rewrite Forall_forall in *. intros b Hb.
  destruct (hit car b) eqn:Eb; [|reflexivity].
  apply hit_window2 in E; [|exact Ga].
  apply hit_window2 in Eb; [|now apply Gm].
  specialize (Ha b Hb). unfold apart in Ha. lia.
Qed.

Lemma at_most_one_exit j m :
  j <= 36 -> StronglySorted (apart j) m ->
  Forall (on_grid (-168) 1236) m ->
  (length (filter (exited car) m) <= 1)%nat.
Proof.
  intros Hj S. induction S as [|a m S IH Ha]; intros G; simpl; [lia|].
  apply Forall_cons_iff in G as [Ga Gm].
  rewrite filter_none; [destruct (exited car a); simpl; lia|].
  rewrite Forall_forall in *. intros b Hb.
  destruct (exited car b) eqn:Eb; [|reflexivity].
  unfold exited in Eb. apply andb_prop in Eb as [_ Eb].
  rewrite (below_pos2 b (Gm b Hb)) in Eb. apply Z.ltb_lt in Eb.
  specialize (Ha b Hb). unfold apart in Ha. destruct Ga as [_ Ga]. lia.
Qed.

End Window.

(** ** Particles through the loop *)

Lemma randint_range a b raw : a <= b -> a <= Py.randint a b raw <= b.
Proof.
  intros H. unfold Py.randint.
  pose proof (Z.mod_pos_bound (Z.of_N raw) (b - a + 1) ltac:(lia)). lia.
Qed.

Definition burst_particle (x y : Z) (palette : Palette)
    (draws : nat -> ParticleDraw) (k : nat) : Particle :=
  new_particle x y
    (nth (Py.choice_index 4 (d_color (draws k))) (explosion_colors palette)
         (fst palette))
    (draws k).

Lemma fold_left_append {A B : Type} (f : B -> A) (l : list B) : forall acc,
  fold_left (fun ps k => ps ++ [f k]) l acc = acc ++ map f l.
Proof.
  induction l as [|k l IH]; intros acc; simpl.
  - now rewrite app_nil_r.
  - now rewrite IH, <- app_assoc.
Qed.

Lemma explode_eq ps x y palette draws :
  explode ps x y palette draws =
  ps ++ map (burst_particle x y palette draws) (seq 0 40).
Proof. unfold explode. apply fold_left_append. Qed.

(** A particle as [explode] makes it. *)
Definition born (x y : Z) (p : Particle) : Prop :=
  p_x p = Py.float_of_int x /\ p_y p = Py.float_of_int y /\
  p_life p = p_max_life p /\ 25 <= p_life p <= 50.

Lemma burst_particle_born x y palette draws k :
  born x y (burst_particle x y palette draws k).
Proof.
  pose proof (randint_range 25 50 (d_life (draws k)) ltac:(lia)).
  unfold born, burst_particle, new_particle; cbn [p_x p_y p_life p_max_life].
  auto.
Qed.

(** What holds of every particle during a tick, and between ticks. *)
Definition alive (p : Particle) : Prop :=
  1 <= p_life p <= p_max_life p /\ p_max_life p <= 50.
Definition aged (p : Particle) : Prop :=
  1 <= p_life p < p_max_life p /\ p_max_life p <= 50.

Lemma aged_alive p : aged p -> alive p.
Proof. unfold aged, alive. lia. Qed.

Lemma born_alive x y p : born x y p -> alive p.
Proof. unfold born, alive. lia. Qed.

Lemma particles_tick_aged ps : Forall alive ps -> Forall aged (particles_tick ps).
Proof.
  intros H. unfold particles_tick. apply Forall_forall. intros p Hp.
  apply filter_In in Hp as [Hp L]. apply in_map_iff in Hp as (q & <- & Hq).
  rewrite Forall_forall in H. specialize (H q Hq).
  apply Z.ltb_lt in L. simpl in *. unfold alive in H. unfold aged. simpl. lia.
Qed.

Section LoopParticles.

Variable burst : nat -> nat -> ParticleDraw.
Variable car : Rect.

Lemma resolve_particles draws e s :
  particles (fst (resolve draws car e s)) =
  if hit car e
  then explode (particles s) (e_cx e)
         (Py.int_of_float (e_y e + Py.float_of_int (ENEMY_H / 2))) (e_pal e) draws
  else particles s.
Proof.
  destruct (outcome_cases car e) as [(H & X & _) | [(H & X & _) | (H & X & G)]];
    rewrite H.
  - rewrite (resolve_hit car draws e s H). cbv zeta. simpl fst.
    destruct (_ <=? 0); reflexivity.
  - rewrite (resolve_exited car draws e s X). cbv zeta. simpl fst.
    destruct (_ =? 0); reflexivity.
  - now rewrite (resolve_stays car draws e s G).
Qed.

(** The loop only appends to the particle list: 40 new-born particles for
    each collision. *)
Lemma loop_particles es : forall i s rm,
  let m := loop_moved burst car i es s rm in
  let s' := loop_state burst car i es s rm in
  exists added,
    particles s' = particles s ++ added /\
    Forall (fun p => p_life p = p_max_life p /\ 25 <= p_life p <= 50) added /\
    length added = (40 * length (filter (hit car) m))%nat.
Proof.
  induction es as [|e rest IH]; intros i s rm; cbv zeta.
  - exists []. unfold loop_state, loop_moved. simpl.
    rewrite app_nil_r. auto.
  - rewrite loop_moved_cons, loop_state_cons. cbv zeta.
    set (e' := moved_by (enemy_spd s) e).
    pose proof (resolve_particles (burst i) e' s) as P1.
    set (s1 := fst (resolve (burst i) car e' s)) in *.
    destruct (IH (S i) s1 (if snd (resolve (burst i) car e' s)
                           then rm ++ [i] else rm)) as (added & P2 & F2 & L2).
    simpl filter. destruct (hit car e').
    + rewrite explode_eq in P1.
      eexists. rewrite P2, P1, <- app_assoc. split; [reflexivity|]. split.
      * apply Forall_app. split; [|exact F2].
        apply Forall_forall. intros p Hp.
        apply in_map_iff in Hp as (k & <- & _).
        destruct (burst_particle_born (e_cx e')
          (Py.int_of_float (e_y e' + Py.float_of_int (ENEMY_H / 2)))
          (e_pal e') (burst i) k) as (_ & _ & B1 & B2). auto.
      * rewrite length_app, length_map, length_seq, L2. simpl length. lia.
    + exists added. rewrite P2, P1. auto.
Qed.

End LoopParticles.


(** ** The tick in the playing state, block by block *)

(** Lane selection and the smooth slide of the car. *)
Definition slide (w : Z) (s : State) : State :=
  let target_lane := hand_lane (hand_x s) w in
  set_car target_lane
    (lerp (car_x_px s) (Py.float_of_int (lane_x target_lane - CAR_W / 2)) 0.25) s.

(** The car rectangle of the tick, the enemies as the loop leaves them
    (moved, before the deletions) and the session after the loop. *)
Definition tick_car (w : Z) (s : State) : Rect := car_rect_of (slide w s).
Definition tick_moved (i : Input) (w : Z) (s : State) : list Enemy :=
  let s1 := spawn_enemies i (slide w s) in
  loop_moved (in_burst i) (tick_car w s) 0 (enemies s1) s1 [].
Definition tick_state (i : Input) (w : Z) (s : State) : State :=
  let s1 := spawn_enemies i (slide w s) in
  loop_state (in_burst i) (tick_car w s) 0 (enemies s1) s1 [].

Lemma playing_eq i w s :
  playing i w s =
  set_enemies (filter (fun e => negb (gone (tick_car w s) e)) (tick_moved i w s))
              (tick_state i w s).
Proof.
  unfold playing, tick_moved, tick_state, tick_car. fold (slide w s).
  set (s0 := slide w s). set (s1 := spawn_enemies i s0).
  pose proof (loop_marks_spec (in_burst i) (car_rect_of s0) (enemies s1) 0%nat s1 [])
    as M.
  unfold loop_marks, loop_moved, loop_state in *.
  destruct (update_enemies _ _ _ _ _ _) as [[m s'] rm]. simpl in *.
  now rewrite M, delete_indices_marks.
Qed.

(** The enemy the spawn block appends. *)
Definition spawned (i : Input) : Enemy :=
  mkEnemy (lane_x (Py.randint 0 (LANE_COUNT - 1) (in_lane i)))
          (Py.float_of_int (- ENEMY_H))
          (nth (Py.choice_index 5 (in_palette i)) ENEMY_PALETTES
               ((0, 0, 0), (0, 0, 0))).

Definition base_interval (sc : Z) : Z := Z.max 25 (70 - sc / 5).

Lemma spawn_enemies_eq i s :
  spawn_enemies i s =
  if (spawn_cd s - 1 <=? 0) && (length (enemies s) <? MAX_ENEMIES)%nat
  then set_spawn_cd (base_interval (score s) + Py.randint (-8) 8 (in_jitter i))
         (set_enemies (enemies s ++ [spawned i]) s)
  else set_spawn_cd (spawn_cd s - 1) s.
Proof.
  unfold spawn_enemies. cbn [spawn_cd set_spawn_cd enemies score].
  destruct (_ && _); reflexivity.
Qed.

Lemma spawned_on_grid i : on_grid (-168) 1200 (spawned i) /\ pos2 (spawned i) = -168.
Proof.
  assert (P : pos2 (spawned i) = -168) by (vm_compute; reflexivity).
  split; [split|]; [rewrite P; vm_compute; reflexivity | lia | exact P].
Qed.

(** The distance a new enemy gets before the next one can appear: the
    shortest spawn interval times the speed is never below 186 pixels. *)
Lemma spawn_gap sc :
  0 <= sc -> 372 <= speed_of_score sc * (base_interval sc - 7).
Proof.
  intros H. destruct (Z_lt_le_dec sc 208) as [L|L].
  - assert (T : forall sc, 0 <= sc < 0 + Z.of_nat 208 ->
                (372 <=? speed_of_score sc * (base_interval sc - 7)) = true).
    { apply forallb_zrange. vm_compute. reflexivity. }
    apply Z.leb_le, T. lia.
  - assert (E : speed_of_score sc = 36).
    { unfold speed_of_score. Z.div_mod_to_equations. lia. }
    rewrite E. unfold base_interval. lia.
Qed.

(** ** The invariant of the sessions the game reaches *)

Record Inv (s : State) : Prop := mkInv {
  inv_car_y : car_y s = 492;
  inv_score : 0 <= score s;
  inv_spd : enemy_spd s = half (speed_of_score (score s));
  inv_lives : if game_over s then lives s = 0 else 1 <= lives s <= 3;
  inv_grid : Forall (on_grid (-168) 1200) (enemies s);
  inv_apart : StronglySorted (apart (speed_of_score (score s))) (enemies s);
  inv_next :
    Forall (fun e => 204 <= pos2 e
                     + speed_of_score (score s) * Z.max (spawn_cd s) 0)
           (enemies s);
  inv_cap : (length (enemies s) <= MAX_ENEMIES)%nat }.

Lemma Inv_reset : Inv reset_state.
Proof.
  constructor; cbn [car_y score enemy_spd lives game_over enemies spawn_cd
                    reset_state].
  - reflexivity.
  - lia.
  - vm_compute. reflexivity.
  - lia.
  - constructor.
  - constructor.
  - constructor.
  - unfold MAX_ENEMIES. simpl. lia.
Qed.

(** The invariant reads only these fields. *)
Lemma Inv_same s s' :
  car_y s' = car_y s -> score s' = score s -> enemy_spd s' = enemy_spd s ->
  lives s' = lives s -> game_over s' = game_over s ->
  enemies s' = enemies s -> spawn_cd s' = spawn_cd s ->
  Inv s -> Inv s'.
Proof.
  intros E1 E2 E3 E4 E5 E6 E7 [I1 I2 I3 I4 I5 I6 I7 I8].
  constructor; rewrite ?E1, ?E2, ?E3, ?E4, ?E5, ?E6, ?E7; assumption.
Qed.

(** The enemies before the loop: still on the grid and apart, and far
    enough down for the next spawn. *)
Lemma spawn_inv i s :
  Inv s ->
  let s1 := spawn_enemies i s in
  let j := speed_of_score (score s) in
  Forall (on_grid (-168) 1200) (enemies s1) /\
  StronglySorted (apart j) (enemies s1) /\
  Forall (fun e => 204 <= pos2 e + j + j * Z.max (spawn_cd s1) 0) (enemies s1) /\
  (length (enemies s1) <= MAX_ENEMIES)%nat.
Proof.
  intros [I1 I2 I3 I4 I5 I6 I7 I8]. cbv zeta.
  pose proof (speed_of_score_bounds _ I2) as B.
  rewrite spawn_enemies_eq.
  destruct (Z.leb_spec (spawn_cd s - 1) 0) as [C|C];
    [destruct (Nat.ltb_spec (length (enemies s)) MAX_ENEMIES) as [L|L]|];
    cbn [andb enemies spawn_cd set_spawn_cd set_enemies].
  - (* a new enemy *)
    destruct (spawned_on_grid i) as [G P].
    pose proof (randint_range (-8) 8 (in_jitter i) ltac:(lia)) as J.
    pose proof (spawn_gap _ I2) as SG.
    assert (Old : Forall (fun e => 204 <= pos2 e + speed_of_score (score s))
                    (enemies s)).
    { eapply Forall_impl; [|exact I7]. cbv beta. intros e He. nia. }
    assert (BI : 25 <= base_interval (score s)) by (unfold base_interval; lia).
    repeat split.
    + apply Forall_app. split; [exact I5 | constructor; [exact G | constructor]].
    + clear I7. induction I6 as [|a l S IH Ha]; simpl.
      * constructor; constructor.
      * apply Forall_cons_iff in Old as [Oa Ol].
        apply Forall_cons_iff in I5 as [_ I5].
        simpl in I8.
        constructor; [apply IH; auto; lia|].
        apply Forall_app. split; [exact Ha|].
        constructor; [|constructor]. unfold apart. rewrite P. lia.
    + apply Forall_app. split.
      * eapply Forall_impl; [|exact Old]. cbv beta. intros e He. nia.
      * constructor; [|constructor]. rewrite P. nia.
    + rewrite length_app. simpl. unfold MAX_ENEMIES in *. lia.
  - (* the cap: no spawn *)
    repeat split; try assumption.
    eapply Forall_impl; [|exact I7]. cbv beta. intros e He. nia.
  - (* the countdown is still running *)
    repeat split; try assumption.
    eapply Forall_impl; [|exact I7]. cbv beta. intros e He. nia.
Qed.

Lemma spawn_enemies_frame i s :
  let s1 := spawn_enemies i s in
  car_lane s1 = car_lane s /\ car_x_px s1 = car_x_px s /\ car_y s1 = car_y s /\
  score s1 = score s /\ lives s1 = lives s /\ enemy_spd s1 = enemy_spd s /\
  game_over s1 = game_over s /\ go_timer s1 = go_timer s /\
  tick s1 = tick s /\ dash_off s1 = dash_off s /\ hand_x s1 = hand_x s /\
  particles s1 = particles s.
Proof.
  cbv zeta. rewrite spawn_enemies_eq. destruct (_ && _); repeat split.
Qed.

(** What the loop of one tick does, from a session that satisfies the
    invariant. *)
Lemma tick_facts i w s :
  Inv s ->
  let car := tick_car w s in
  let m := tick_moved i w s in
  let s' := tick_state i w s in
  let j' := speed_of_score (score s') in
  score s' = score s + Z.of_nat (length (filter (exited car) m)) /\
  enemy_spd s' = half j' /\
  lives s' = lives s - Z.of_nat (length (filter (hit car) m)) /\
  game_over s' = game_over s
                 || ((0 <? Z.of_nat (length (filter (hit car) m)))
                     && (lives s' <=? 0)) /\
  (length (filter (hit car) m) <= 1)%nat /\
  (length (filter (exited car) m) <= 1)%nat /\
  Forall (on_grid (-168) 1236) m /\
  StronglySorted (apart j') m /\
  Forall (fun e => 204 <= pos2 e + j' * Z.max (spawn_cd s') 0) m /\
  (length m <= MAX_ENEMIES)%nat /\
  car_y s' = 492.
Proof.
  intros I. cbv zeta. unfold tick_moved, tick_state, tick_car.
  set (s0 := slide w s).
  assert (I0 : Inv s0) by (apply (Inv_same s); auto).
  destruct (spawn_inv i s0 I0) as (G1 & A1 & N1 & C1).
  destruct (spawn_enemies_frame i s0) as
    (_ & _ & F3 & F4 & F5 & F6 & F7 & _).
  set (s1 := spawn_enemies i s0) in *.
  set (car := car_rect_of s0).
  assert (S0 : score s0 = score s) by reflexivity.
  assert (Hs1 : 0 <= score s1) by (rewrite F4, S0; apply I).
  assert (Hv1 : enemy_spd s1 = half (speed_of_score (score s1))).
  { rewrite F6, F4. apply I0. }
  destruct (loop_score (in_burst i) car (enemies s1) 0%nat s1 [] Hs1 Hv1 G1)
    as (Sc & Sp & Tr).
  destruct (loop_lives (in_burst i) car (enemies s1) 0%nat s1 []) as (Li & Go).
  destruct (loop_frame (in_burst i) car (enemies s1) 0%nat s1 [])
    as (_ & _ & Fy & _ & Fc & _).
  set (m := loop_moved (in_burst i) car 0 (enemies s1) s1 []) in *.
  set (s' := loop_state (in_burst i) car 0 (enemies s1) s1 []) in *.
  assert (Hs' : 0 <= score s') by (rewrite Sc; lia).
  pose proof (speed_of_score_bounds _ Hs') as B'.
  pose proof (speed_of_score_bounds _ Hs1) as B1.
  assert (Mono : speed_of_score (score s1) <= speed_of_score (score s'))
    by (apply speed_of_score_mono; rewrite Sc; lia).
  assert (Gm : Forall (on_grid (-168) 1236) m).
  { eapply Forall2_right; [|exact Tr]. intros x y T. apply T. }
  assert (Am : StronglySorted (apart (speed_of_score (score s'))) m).
  { eapply tracks_sorted; [exact Tr|]. now rewrite F4. }
  assert (Cy : r_y car = 492) by (simpl; apply I).
  assert (Ch : r_h car = 84) by reflexivity.
  rewrite F4, S0 in Sc. rewrite F5 in Li. rewrite F7 in Go.
  repeat split; try assumption; try lia.
  - apply (at_most_one_hit car Cy Ch (speed_of_score (score s'))); auto; lia.
  - apply (at_most_one_exit car (speed_of_score (score s'))); auto; lia.
  - eapply Forall2_Forall; [|exact Tr|exact N1].
    cbv beta. intros x y (_ & _ & _ & T) N. rewrite Fc.
    rewrite F4 in T, Mono.
    assert (0 <= Z.max (spawn_cd s1) 0) by lia.
    nia.
  - unfold m. now rewrite loop_moved_length.
  - rewrite Fy, F3. apply I.
Qed.

Lemma playing_inv i w s :
  Inv s -> game_over s = false -> Inv (playing i w s).
Proof.
  intros I Go. rewrite playing_eq.
  destruct (tick_facts i w s I) as
    (Sc & Sp & Li & Gv & H1 & X1 & Gm & Am & Nm & Cm & Cy).
  set (car := tick_car w s) in *. set (m := tick_moved i w s) in *.
  set (s' := tick_state i w s) in *.
  pose proof (inv_lives s I) as L. rewrite Go in L.
  constructor; cbn [car_y score enemy_spd lives game_over enemies spawn_cd
                    set_enemies].
  - exact Cy.
  - rewrite Sc. pose proof (inv_score s I). lia.
  - exact Sp.
  - rewrite Gv, Go, Li. simpl orb.
    destruct (length (filter (hit car) m)) as [|[|n]]; [| |lia].
    + simpl. lia.
    + change (Z.of_nat 1) with 1. simpl andb.
      destruct (Z.leb_spec (lives s - 1) 0); lia.
  - apply Forall_forall. intros e He. apply filter_In in He as [He K].
    rewrite Forall_forall in Gm. specialize (Gm e He).
    apply negb_true_iff, orb_false_elim in K as [_ K].
    assert (r_y car = 492) by (simpl; apply I).
    rewrite (below_pos2 e Gm) in K. apply Z.ltb_ge in K.
    destruct Gm as [Ey Hr]. split; [exact Ey | lia].
  - now apply StronglySorted_filter.
  - now apply Forall_filter_keep.
  - pose proof (filter_length_le (fun e => negb (gone car e)) m). lia.
Qed.

Lemma game_over_screen_inv s : Inv s -> Inv (game_over_screen s).
Proof.
  intros I. unfold game_over_screen.
  destruct (0 <? go_timer s); [apply (Inv_same s); auto|].
  destruct (hand_x s); [apply Inv_reset | exact I].
Qed.

(** The session inside a tick, before and after the branch on
    [game_over]. *)
Definition before_logic (i : Input) (w : World) : State :=
  let s := set_tick (tick (st w) + 1) (st w) in
  let processed := ((cam_tick w + 1) mod CAM_SKIP =? 0) && in_ret i in
  let s := if processed then set_hand_x (in_hand i) s else s in
  set_dash_off
    (Py.float_mod (dash_off s + enemy_spd s * 0.6)
                  (Py.float_of_int (DASH_LEN + DASH_GAP))) s.

Definition width_seen (i : Input) (w : World) : Z :=
  if ((cam_tick w + 1) mod CAM_SKIP =? 0) && in_ret i
  then in_width i else frame_w w.

Definition after_logic (i : Input) (w : World) : State :=
  let s := before_logic i w in
  if negb (game_over s) then playing i (width_seen i w) s
  else game_over_screen s.

Lemma step_eq i w :
  step i w =
  mkWorld (set_particles (particles_tick (particles (after_logic i w)))
                         (after_logic i w))
          (cam_tick w + 1) (width_seen i w).
Proof.
  unfold step, after_logic, before_logic, width_seen.
  destruct (_ && _); reflexivity.
Qed.

Lemma before_logic_frame i w :
  let s := before_logic i w in
  car_lane s = car_lane (st w) /\ car_x_px s = car_x_px (st w) /\
  car_y s = car_y (st w) /\ score s = score (st w) /\
  lives s = lives (st w) /\ enemies s = enemies (st w) /\
  enemy_spd s = enemy_spd (st w) /\ spawn_cd s = spawn_cd (st w) /\
  game_over s = game_over (st w) /\ go_timer s = go_timer (st w) /\
  particles s = particles (st w).
Proof.
  cbv zeta. unfold before_logic. destruct (_ && _); repeat split.
Qed.

Lemma before_logic_inv i w : Inv (st w) -> Inv (before_logic i w).
Proof.
  destruct (before_logic_frame i w) as
    (_ & _ & F3 & F4 & F5 & F6 & F7 & F8 & F9 & _).
  now apply Inv_same.
Qed.

Lemma after_logic_inv i w : Inv (st w) -> Inv (after_logic i w).
Proof.
  intros I. apply (before_logic_inv i) in I. unfold after_logic.
  destruct (game_over (before_logic i w)) eqn:G; simpl.
  - now apply game_over_screen_inv.
  - now apply playing_inv.
Qed.

Theorem reachable_inv w : reachable w -> Inv (st w).
Proof.
  induction 1 as [w0 | i w R IH].
  - apply Inv_reset.
  - rewrite step_eq. simpl st.
    apply (Inv_same (after_logic i w)); auto. now apply after_logic_inv.
Qed.


(** ** Runs used as examples *)

Definition no_draw : ParticleDraw := mkParticleDraw 0 0 0 0 0.

(** A camera picture of width 640 with the hand at [hand], every spawn in
    lane [lane] with the shortest interval. *)
Definition input (hand : option Z) (lane : N) : Input :=
  mkInput true 640 hand lane 0 0 (fun _ _ => no_draw).

Definition after_ticks (n : N) (i : Input) : World :=
  N.iter n (step i) (init_world 640).

Lemma reachable_iter n i w : reachable w -> reachable (N.iter n (step i) w).
Proof.
  intros R. induction n as [|n IH] using N.peano_ind; [exact R|].
  rewrite N.iter_succ. now constructor.
Qed.

Lemma reachable_after_ticks n i : reachable (after_ticks n i).
Proof. apply reachable_iter. constructor. Qed.

(** The hand is away and every enemy comes down the car's lane: three
    collisions, and the game is over. *)
Definition crashed : World :=
  Eval vm_compute in after_ticks 511 (input None 1).

(** The hand is away and every enemy comes down the left lane: after 8967
    ticks the score is 215 and the speed has been at the cap for a while. *)
Definition at_cap : World :=
  Eval vm_compute in after_ticks 8967 (input None 0).

Lemma reachable_crashed : reachable crashed.
Proof.
  replace crashed with (after_ticks 511 (input None 1))
    by (vm_compute; reflexivity).
  apply reachable_after_ticks.
Qed.

Lemma reachable_at_cap : reachable at_cap.
Proof.
  replace at_cap with (after_ticks 8967 (input None 0))
    by (vm_compute; reflexivity).
  apply reachable_after_ticks.
Qed.

(** ** The particle invariant *)

Lemma playing_particles i w s :
  exists added,
    particles (playing i w s) = particles s ++ added /\
    Forall (fun p => p_life p = p_max_life p /\ 25 <= p_life p <= 50) added /\
    length added = (40 * length (filter (hit (tick_car w s)) (tick_moved i w s)))%nat.
Proof.
  rewrite playing_eq. cbn [particles set_enemies].
  unfold tick_state, tick_moved.
  set (s1 := spawn_enemies i (slide w s)).
  destruct (loop_particles (in_burst i) (tick_car w s) (enemies s1) 0%nat s1 [])
    as (added & P & F & L).
  exists added. rewrite P. split; [|auto].
  destruct (spawn_enemies_frame i (slide w s)) as (_&_&_&_&_&_&_&_&_&_&_&Fp).
  fold s1 in Fp. now rewrite Fp.
Qed.

Lemma after_logic_alive i w :
  Forall aged (particles (st w)) -> Forall alive (particles (after_logic i w)).
Proof.
  intros A.
  destruct (before_logic_frame i w) as (_&_&_&_&_&_&_&_&_&_&Fp).
  unfold after_logic. destruct (negb _).
  - destruct (playing_particles i (width_seen i w) (before_logic i w))
      as (added & -> & F & _).
    rewrite Fp. apply Forall_app. split.
    + eapply Forall_impl; [|exact A]. apply aged_alive.
    + eapply Forall_impl; [|exact F]. unfold alive. cbv beta. lia.
  - unfold game_over_screen. destruct (0 <? _); [|destruct (hand_x _)];
      cbn [particles set_go_timer reset_state]; rewrite ?Fp;
      try constructor; (eapply Forall_impl; [|exact A]; apply aged_alive).
Qed.

Lemma reachable_aged w : reachable w -> Forall aged (particles (st w)).
Proof.
  induction 1 as [w0 | i w R IH]; [constructor|].
  rewrite step_eq. cbn [st particles set_particles].
  now apply particles_tick_aged, after_logic_alive.
Qed.

(** ** The properties of the specification *)

(** C1.  In every session the game reaches, as it stands between two
    ticks, [lives] is not negative, and [lives] is 0 exactly when
    [game_over] is set. *)
Theorem lives_and_game_over (w : World) :
  reachable w ->
  0 <= lives (st w) /\ (lives (st w) = 0 <-> game_over (st w) = true).
Proof.
  intros R. pose proof (inv_lives _ (reachable_inv w R)) as L.
  destruct (game_over (st w)); split; try lia; split; intros; try lia;
    try reflexivity; discriminate.
Qed.

Lemma lives_and_game_over_witness :
  reachable crashed /\
  0 <= lives (st crashed) /\
  (lives (st crashed) = 0 <-> game_over (st crashed) = true).
Proof.
  split; [apply reachable_crashed|].
  apply (lives_and_game_over crashed). apply reachable_crashed.
Defined.

(** The score after the loop, for any session: one point for each enemy
    that left the window without overlapping the car. *)
Lemma loop_exits burst car es : forall i s rm,
  score (loop_state burst car i es s rm)
  = score s
    + Z.of_nat (length (filter (exited car) (loop_moved burst car i es s rm))).
Proof.
  induction es as [|e rest IH]; intros i s rm.
  - unfold loop_moved, loop_state. simpl. lia.
  - rewrite loop_moved_cons, loop_state_cons. cbv zeta.
    set (e' := moved_by (enemy_spd s) e).
    rewrite IH. simpl filter.
    assert (S1 : score (fst (resolve (burst i) car e' s))
                 = score s + (if exited car e' then 1 else 0)).
    { destruct (outcome_cases car e') as [(H & X & _) | [(_ & X & _) | (_ & X & G)]];
        rewrite X.
      - rewrite (resolve_hit car (burst i) e' s H). cbv zeta. simpl fst.
        destruct (_ <=? 0); simpl; lia.
      - rewrite (resolve_exited car (burst i) e' s X). cbv zeta. simpl fst.
        destruct (_ =? 0); simpl; lia.
      - rewrite (resolve_stays car (burst i) e' s G). simpl. lia. }
    rewrite S1. destruct (exited car e'); simpl length; lia.
Qed.

Lemma playing_score_lives i w s :
  let car := tick_car w s in
  let m := tick_moved i w s in
  score (playing i w s) = score s + Z.of_nat (length (filter (exited car) m)) /\
  lives (playing i w s) = lives s - Z.of_nat (length (filter (hit car) m)).
Proof.
  cbv zeta. rewrite playing_eq. unfold set_enemies. cbn [score lives].
  unfold tick_state, tick_moved.
  destruct (spawn_enemies_frame i (slide w s)) as (_&_&_&F4&F5&_).
  set (s1 := spawn_enemies i (slide w s)) in *.
  rewrite loop_exits.
  destruct (loop_lives (in_burst i) (tick_car w s) (enemies s1) 0%nat s1 [])
    as (L & _).
  rewrite L, F4, F5. split; reflexivity.
Qed.

(** The session 167 ticks after the start, the hand away and every enemy
    in the car's lane: the next tick is the first collision. *)
Definition before_crash : World :=
  Eval vm_compute in after_ticks 167 (input None 1).

Lemma reachable_before_crash : reachable before_crash.
Proof.
  replace before_crash with (after_ticks 167 (input None 1))
    by (vm_compute; reflexivity).
  apply reachable_after_ticks.
Qed.

(** C2.  In a tick of the playing state, an enemy that after its move
    overlaps the car is resolved as a collision whether or not its top is
    also below the bottom of the window.  Its own step of the loop, from
    whatever session [s0] the loop has reached, marks it for removal,
    takes one life, adds the 40 particles of [explode] and leaves the score
    and the speed as they are.  For the tick as a whole: the enemy is not
    in the list the tick leaves, which holds exactly the moved enemies that
    neither overlap the car nor are below the bottom; the lives go down by
    the number of overlapping enemies, and the score goes up by the number
    of enemies below the bottom that do not overlap the car, so this enemy
    is not counted.  (In a session that satisfies the invariant of the
    game, an overlapping enemy is never below the bottom.) *)
Theorem collision_before_exit (i : Input) (w : Z) (s : State) (e : Enemy) :
  In e (tick_moved i w s) ->
  hit (tick_car w s) e = true ->
  let car := tick_car w s in
  let m := tick_moved i w s in
  let s' := playing i w s in
  (forall draws s0,
     let r := resolve_enemy draws car (e_cx e) (e_y e) (e_pal e) s0 in
     snd r = true /\
     lives (fst r) = lives s0 - 1 /\
     score (fst r) = score s0 /\
     enemy_spd (fst r) = enemy_spd s0 /\
     particles (fst r) =
       explode (particles s0) (e_cx e)
         (Py.int_of_float (e_y e + Py.float_of_int (ENEMY_H / 2)))
         (e_pal e) draws /\
     length (particles (fst r)) = (length (particles s0) + 40)%nat) /\
  ~ In e (enemies s') /\
  enemies s' = filter (fun e' => negb (hit car e' || below e')) m /\
  (1 <= length (filter (hit car) m))%nat /\
  lives s' = lives s - Z.of_nat (length (filter (hit car) m)) /\
  score s' = score s
             + Z.of_nat (length (filter (fun e' => negb (hit car e') && below e') m)) /\
  length (particles s')
  = (length (particles s) + 40 * length (filter (hit car) m))%nat /\
  (Inv s -> below e = false).
Proof.
  intros He H. cbv zeta.
  assert (En : enemies (playing i w s)
               = filter (fun e' => negb (hit (tick_car w s) e' || below e'))
                   (tick_moved i w s))
    by (rewrite playing_eq; reflexivity).
  split; [|split; [|split; [|split; [|split; [|split; [|split]]]]]].
  - intros draws s0. cbv zeta. unfold resolve_enemy.
    unfold hit in H. rewrite H.
    cbn [fst snd lives set_lives set_particles particles].
    assert (L : forall ps x y, length (explode ps x y (e_pal e) draws)
                               = (length ps + 40)%nat).
    { intros. rewrite explode_eq, length_app, length_map, length_seq.
      reflexivity. }
    destruct (_ <=? 0);
      unfold set_go_timer, set_game_over, set_lives, set_particles;
      cbn [lives score enemy_spd particles];
      rewrite L; repeat split; reflexivity.
  - rewrite En. intros F. apply filter_In in F as [_ F].
    rewrite H in F. discriminate.
  - exact En.
  - assert (F : In e (filter (hit (tick_car w s)) (tick_moved i w s)))
      by (apply filter_In; split; assumption).
    clear En.
    destruct (filter (hit (tick_car w s)) (tick_moved i w s));
      [destruct (in_nil F) | simpl; lia].
  - apply playing_score_lives.
  - apply playing_score_lives.
  - destruct (playing_particles i w s) as (added & -> & _ & L).
    rewrite length_app, L. reflexivity.
  - intros I.
    destruct (tick_facts i w s I) as (_&_&_&_&_&_&G&_).
    rewrite Forall_forall in G.
    apply (hit_not_below (tick_car w s));
      [|reflexivity | apply G, He | exact H].
    unfold tick_car, car_rect_of, slide, set_car. cbn [r_y car_y].
    apply I.
Qed.

(** In the session [before_crash] the next tick moves the first enemy onto
    the car: it is gone after the tick, a life is lost, and the score
    stays 0. *)
Lemma collision_before_exit_witness :
  let i := input None 1 in
  let s := before_logic i before_crash in
  let w := width_seen i before_crash in
  let e := mkEnemy 399 411 (nth 0 ENEMY_PALETTES ((0,0,0),(0,0,0))) in
  reachable before_crash /\
  (In e (tick_moved i w s) /\ hit (tick_car w s) e = true) /\
  game_over s = false /\
  enemies (st (step i before_crash)) = enemies (playing i w s) /\
  length (enemies s) = 2%nat /\ length (enemies (playing i w s)) = 1%nat /\
  lives s = 3 /\ lives (playing i w s) = 2 /\
  score s = 0 /\ score (playing i w s) = 0 /\
  length (particles (playing i w s)) = 40%nat.
Proof.
  cbv zeta.
  split; [apply reachable_before_crash|].
  split; [split; vm_compute; auto|].
  split; [vm_compute; reflexivity|].
  split; [vm_compute; reflexivity|].
  split; [vm_compute; reflexivity|].
  destruct (collision_before_exit (input None 1)
              (width_seen (input None 1) before_crash)
              (before_logic (input None 1) before_crash)
              (mkEnemy 399 411 (nth 0 ENEMY_PALETTES ((0,0,0),(0,0,0)))))
    as (_ & _ & E & _ & L & S & P & _);
    [vm_compute; auto | vm_compute; reflexivity |].
  split; [rewrite E; vm_compute; reflexivity|].
  split; [vm_compute; reflexivity|].
  split; [rewrite L; vm_compute; reflexivity|].
  split; [vm_compute; reflexivity|].
  split; [rewrite S; vm_compute; reflexivity|].
  rewrite P. vm_compute. reflexivity.
Defined.

(** C4.  A tick that finds the game over, the cooldown at 0 and a hand in
    the picture leaves a fresh session: score 0, three lives, no enemies,
    no particles, the speed and the spawn countdown at their first values,
    the dash offset 0 and the car centred in lane 1. *)
Theorem restart_resets (i : Input) (w : World) (hx : Z) :
  game_over (st w) = true ->
  go_timer (st w) = 0 ->
  hand_x (before_logic i w) = Some hx ->
  let s' := st (step i w) in
  s' = reset_state /\
  score s' = 0 /\ lives s' = 3 /\ enemies s' = [] /\ particles s' = [] /\
  enemy_spd s' = 5.0%float /\ spawn_cd s' = 70 /\ dash_off s' = 0.0%float /\
  game_over s' = false /\
  car_lane s' = 1 /\
  car_x_px s' = Py.float_of_int (lane_x 1 - CAR_W / 2) /\
  Py.int_of_float (car_x_px s') + CAR_W / 2 = lane_x 1.
Proof.
  intros G T Hh. cbv zeta.
  destruct (before_logic_frame i w) as (_&_&_&_&_&_&_&_&Fg&Ft&_).
  assert (E : st (step i w) = reset_state).
  { rewrite step_eq. cbn [st]. unfold after_logic.
    rewrite Fg, G. cbn [negb]. unfold game_over_screen.
    rewrite Ft, T, Hh. reflexivity. }
  rewrite E. repeat split; vm_compute; reflexivity.
Qed.

Lemma restart_resets_witness :
  game_over (st crashed) = true /\ go_timer (st crashed) = 0 /\
  st (step (input (Some 100) 1) crashed) = reset_state.
Proof.
  split; [vm_compute; reflexivity|]. split; [vm_compute; reflexivity|].
  apply (restart_resets (input (Some 100) 1) crashed 100);
    vm_compute; reflexivity.
Defined.

(** C5.  While the game is over and the cooldown is positive, a tick takes
    exactly 1 off the cooldown, whatever the input, and does not restart:
    the session stays over and keeps its score, lives, enemies, speed and
    spawn countdown. *)
Theorem cooldown_counts_down (i : Input) (w : World) :
  game_over (st w) = true ->
  0 < go_timer (st w) ->
  let s' := st (step i w) in
  go_timer s' = go_timer (st w) - 1 /\
  game_over s' = true /\
  score s' = score (st w) /\ lives s' = lives (st w) /\
  enemies s' = enemies (st w) /\ enemy_spd s' = enemy_spd (st w) /\
  spawn_cd s' = spawn_cd (st w) /\ car_x_px s' = car_x_px (st w).
Proof.
  intros G T. cbv zeta.
  destruct (before_logic_frame i w) as
    (F1 & F2 & F3 & F4 & F5 & F6 & F7 & F8 & F9 & F10 & F11).
  rewrite step_eq. cbn [st]. unfold after_logic.
  rewrite F9, G. cbn [negb]. unfold game_over_screen. rewrite F10.
  apply Z.ltb_lt in T. rewrite T.
  unfold set_particles, set_go_timer.
  cbn [go_timer game_over score lives enemies enemy_spd spawn_cd car_x_px].
  rewrite F2, F4, F5, F6, F7, F8, F9, G. repeat split.
Qed.

Lemma cooldown_counts_down_witness :
  let w := after_ticks 390 (input None 1) in
  (game_over (st w) = true /\ go_timer (st w) = 22) /\
  go_timer (st (step (input (Some 100) 1) w)) = 21 /\
  game_over (st (step (input (Some 100) 1) w)) = true.
Proof.
  cbv zeta. split; [split; vm_compute; reflexivity|].
  destruct (cooldown_counts_down (input (Some 100) 1)
              (after_ticks 390 (input None 1)))
    as (T & G & _); [vm_compute; reflexivity | vm_compute; reflexivity |].
  split; [rewrite T; vm_compute; reflexivity | exact G].
Defined.

(** C6.  No session the game reaches holds more than [MAX_ENEMIES] = 12
    enemies; and when the countdown has run out but 12 or more enemies are
    there, the spawn block only takes 1 off the countdown: nothing is
    appended, nothing fails. *)
Theorem enemy_cap (w : World) (i : Input) (s : State) :
  (reachable w -> (length (enemies (st w)) <= MAX_ENEMIES)%nat) /\
  (spawn_cd s - 1 <= 0 -> (MAX_ENEMIES <= length (enemies s))%nat ->
   spawn_enemies i s = set_spawn_cd (spawn_cd s - 1) s /\
   enemies (spawn_enemies i s) = enemies s).
Proof.
  split.
  - intros R. apply (inv_cap _ (reachable_inv w R)).
  - intros C L. rewrite spawn_enemies_eq.
    destruct (Nat.ltb_spec (length (enemies s)) MAX_ENEMIES); [lia|].
    rewrite andb_false_r. split; reflexivity.
Qed.

(** Twelve enemies and a countdown at 0. *)
Definition full_road : State :=
  set_spawn_cd 0
    (set_enemies (repeat (mkEnemy 186 100 ((0,0,0),(0,0,0))) 12) reset_state).

Lemma enemy_cap_witness :
  (length (enemies (st crashed)) <= MAX_ENEMIES)%nat /\
  enemies (spawn_enemies (input None 0) full_road) = enemies full_road.
Proof.
  destruct (enemy_cap crashed (input None 0) full_road) as [A B].
  split; [apply A, reachable_crashed|].
  apply B; vm_compute; [discriminate | lia].
Defined.


(** The session after a tick, in the two branches. *)
Lemma step_playing i w :
  game_over (st w) = false ->
  let b := before_logic i w in
  let ww := width_seen i w in
  st (step i w) =
  set_particles (particles_tick (particles (tick_state i ww b)))
    (set_enemies (filter (fun e => negb (gone (tick_car ww b) e))
                         (tick_moved i ww b))
                 (tick_state i ww b)).
Proof.
  intros G. cbv zeta.
  destruct (before_logic_frame i w) as (_&_&_&_&_&_&_&_&Fg&_).
  rewrite step_eq. cbn [st]. unfold after_logic. rewrite Fg, G. cbn [negb].
  now rewrite playing_eq.
Qed.

Lemma step_game_over i w :
  game_over (st w) = true ->
  st (step i w) =
  set_particles (particles_tick (particles (game_over_screen (before_logic i w))))
    (game_over_screen (before_logic i w)).
Proof.
  intros G.
  destruct (before_logic_frame i w) as (_&_&_&_&_&_&_&_&Fg&_).
  rewrite step_eq. cbn [st]. unfold after_logic. now rewrite Fg, G.
Qed.

(** C3 (as amended).  In a session the game reaches the speed lies between
    5.0 and [MAX_SPEED] = 18.0.  A tick of the playing state never lowers
    it: the score grows by 0 or 1, and the speed grows by 0.5 exactly when
    the score has grown to a multiple of 8 while the speed was still below
    [MAX_SPEED]; on every other tick, also when the score reaches a
    multiple of 8 at [MAX_SPEED], it stays as it is.  A tick of the
    game-over state leaves it as it is, unless it restarts the game. *)
Theorem speed_steps (w : World) (i : Input) :
  reachable w ->
  let s := st w in
  let s' := st (step i w) in
  ((5 <=? enemy_spd s)%float = true /\ (enemy_spd s <=? MAX_SPEED)%float = true) /\
  (game_over s = false ->
   (score s' = score s \/ score s' = score s + 1) /\
   (enemy_spd s <=? enemy_spd s')%float = true /\
   enemy_spd s' =
     if (score s' =? score s + 1) && (score s' mod 8 =? 0)
        && (enemy_spd s <? MAX_SPEED)%float
     then (enemy_spd s + 0.5)%float else enemy_spd s) /\
  (game_over s = true -> s' = reset_state \/ enemy_spd s' = enemy_spd s).
Proof.
  intros R. cbv zeta. pose proof (reachable_inv w R) as I.
  pose proof (inv_score _ I) as Hs. pose proof (inv_spd _ I) as Hv.
  pose proof (speed_of_score_bounds _ Hs) as B.
  split; [|split].
  - rewrite Hv, MAX_SPEED_half. change 5%float with (half 10).
    rewrite !half_leb by lia. split; apply Z.leb_le; lia.
  - intros G. rewrite (step_playing i w G). cbv zeta.
    unfold set_particles, set_enemies. cbn [score enemy_spd].
    pose proof (before_logic_inv i w I) as Ib.
    destruct (before_logic_frame i w) as (_&_&_&F4&_&_&F7&_).
    destruct (tick_facts i (width_seen i w) (before_logic i w) Ib)
      as (Sc & Sp & _ & _ & _ & X1 & _).
    set (s' := tick_state i (width_seen i w) (before_logic i w)) in *.
    set (x := length (filter _ _)) in *.
    rewrite F4 in Sc. rewrite Sp, Hv, MAX_SPEED_half.
    assert (Hs' : 0 <= score s') by lia.
    pose proof (speed_of_score_bounds _ Hs') as B'.
    rewrite half_leb, half_ltb by lia.
    pose proof (speed_of_score_succ (score (st w)) Hs) as Su.
    destruct x as [|[|x]]; [| |lia].
    + replace (score s') with (score (st w)) by lia.
      split; [left; reflexivity|]. split; [apply Z.leb_le; lia|].
      replace (score (st w) =? score (st w) + 1) with false
        by (symmetry; apply Z.eqb_neq; lia). reflexivity.
    + replace (score s') with (score (st w) + 1) by lia.
      split; [right; reflexivity|]. rewrite Z.eqb_refl, Su. cbn [andb].
      destruct ((score (st w) + 1) mod 8 =? 0); cbn [andb].
      * split; [apply Z.leb_le; lia|].
        destruct (Z.ltb_spec (speed_of_score (score (st w))) 36).
        -- rewrite half_plus by lia. f_equal. lia.
        -- f_equal. lia.
      * split; [apply Z.leb_le; lia | reflexivity].
  - intros G. rewrite (step_game_over i w G).
    destruct (before_logic_frame i w) as (_&_&_&_&_&_&F7&_).
    unfold game_over_screen.
    destruct (0 <? _); [right; cbn; exact F7|].
    destruct (hand_x _); [left; reflexivity | right; cbn; exact F7].
Qed.

Lemma speed_steps_witness :
  reachable at_cap /\
  ((5 <=? enemy_spd (st at_cap))%float = true /\
   (enemy_spd (st at_cap) <=? MAX_SPEED)%float = true).
Proof.
  split; [apply reachable_at_cap|].
  destruct (speed_steps at_cap (input None 0)) as [A _];
    [apply reachable_at_cap | exact A].
Defined.

(** The claim as the specification has it fails at the cap: the tick after
    [at_cap] retires an enemy, the score goes from 215 to 216, a multiple
    of 8, and the speed stays at 18.0 instead of growing by 0.5. *)
Lemma speed_stays_at_cap :
  reachable at_cap /\
  game_over (st at_cap) = false /\
  score (st at_cap) = 215 /\
  score (st (step (input None 0) at_cap)) = 216 /\
  216 mod 8 = 0 /\
  enemy_spd (st at_cap) = 18.0%float /\
  enemy_spd (st (step (input None 0) at_cap)) = 18.0%float /\
  (enemy_spd (st (step (input None 0) at_cap))
   =? enemy_spd (st at_cap) + 0.5)%float = false.
Proof.
  split; [apply reachable_at_cap|].
  repeat split; vm_compute; reflexivity.
Qed.





(** ** The life of a particle *)







(** C10.  In a session the game reaches, a tick of the playing state adds
    to the score the number of enemies that the loop finds below the bottom
    without a collision -- 1 for each, and there is at most one in a tick --
    and removes them; a tick of the game-over state leaves the score as it
    is, unless it restarts the game.  So the score never goes down within
    a session. *)
Theorem score_counts_exits (w : World) (i : Input) :
  reachable w ->
  let s := st w in
  let s' := st (step i w) in
  let car := tick_car (width_seen i w) (before_logic i w) in
  let moved := tick_moved i (width_seen i w) (before_logic i w) in
  (game_over s = false ->
   score s' = score s + Z.of_nat (length (filter (exited car) moved)) /\
   (length (filter (exited car) moved) <= 1)%nat /\
   score s <= score s' /\
   enemies s' = filter (fun e => negb (hit car e || below e)) moved) /\
  (game_over s = true -> score s' = score s \/ s' = reset_state).
Proof.
  intros R. cbv zeta. pose proof (reachable_inv w R) as I. split.
  - intros G. rewrite (step_playing i w G). cbv zeta.
    unfold set_particles, set_enemies. cbn [score enemies].
    pose proof (before_logic_inv i w I) as Ib.
    destruct (before_logic_frame i w) as (_&_&_&F4&_).
    destruct (tick_facts i (width_seen i w) (before_logic i w) Ib)
      as (Sc & _ & _ & _ & _ & X1 & _).
    rewrite F4 in Sc. rewrite Sc. repeat split; try assumption. lia.
  - intros G. rewrite (step_game_over i w G).
    destruct (before_logic_frame i w) as (_&_&_&F4&_).
    unfold game_over_screen.
    destruct (0 <? _); [left; cbn; exact F4|].
    destruct (hand_x _); [right; reflexivity | left; cbn; exact F4].
Qed.

(** The tick after [at_cap] retires one enemy. *)
Lemma score_counts_exits_witness :
  reachable at_cap /\
  (game_over (st at_cap) = false /\
   score (st (step (input None 0) at_cap)) = score (st at_cap) + 1) /\
  score (st at_cap) <= score (st (step (input None 0) at_cap)).
Proof.
  split; [apply reachable_at_cap|].
  split; [split; vm_compute; reflexivity|].
  destruct (score_counts_exits at_cap (input None 0)) as [A _];
    [apply reachable_at_cap|].
  apply A. vm_compute. reflexivity.
Defined.

(** ** Binary64 rounding, for the normal numbers

    The operations of the primitive floats are specified by the library's
    [SpecFloat] ([FloatAxioms]: [Prim2SF (x + y) = SF64add ...]).  This
    part derives from that specification what the slide of the car needs:
    a sum or a difference whose value is in the normal range is rounded
    faithfully, with a relative error of at most [2^-52], and a
    multiplication by 0.25 is exact. *)

Module Binary64.

Lemma digits2_bounds (m : positive) :
  2 ^ (Zpos (digits2_pos m) - 1) <= Zpos m < 2 ^ Zpos (digits2_pos m).
Proof.
  induction m as [m IH | m IH |]; cbn [digits2_pos].
  - rewrite Pos2Z.inj_succ.
    replace (Z.succ (Zpos (digits2_pos m)) - 1) with (Z.succ (Zpos (digits2_pos m) - 1)) by lia.
    rewrite !Z.pow_succ_r by lia. lia.
  - rewrite Pos2Z.inj_succ.
    replace (Z.succ (Zpos (digits2_pos m)) - 1) with (Z.succ (Zpos (digits2_pos m) - 1)) by lia.
    rewrite !Z.pow_succ_r by lia. lia.
  - simpl. lia.
Qed.

Lemma digits2_unique (m : positive) (k : Z) :
  2 ^ (k - 1) <= Zpos m < 2 ^ k -> Zpos (digits2_pos m) = k.
Proof.
  intros H. pose proof (digits2_bounds m) as B.
  assert (0 < k).
  { destruct (Z_lt_le_dec 0 k); [assumption|].
    assert (2 ^ k <= 2 ^ 0) by (apply Z.pow_le_mono_r; lia).
    simpl in *. lia. }
  destruct (Z_lt_le_dec (Zpos (digits2_pos m)) k) as [L|L].
  - assert (2 ^ Zpos (digits2_pos m) <= 2 ^ (k - 1))
      by (apply Z.pow_le_mono_r; lia). lia.
  - destruct (Z_lt_le_dec k (Zpos (digits2_pos m))) as [L'|L']; [|lia].
    assert (2 ^ k <= 2 ^ (Zpos (digits2_pos m) - 1))
      by (apply Z.pow_le_mono_r; lia). lia.
Qed.

(** One step and [n] steps of the right shift. *)
Lemma shr_1_nonneg m r s :
  0 <= m ->
  shr_1 (Build_shr_record m r s) = Build_shr_record (m / 2) (Z.odd m) (r || s).
Proof.
  intros H. destruct m as [|p|p]; [reflexivity| |lia].
  destruct p as [p|p|]; cbn [shr_1].
  - f_equal. rewrite Pos2Z.inj_xI. Z.div_mod_to_equations. lia.
  - f_equal. rewrite Pos2Z.inj_xO. Z.div_mod_to_equations. lia.
  - reflexivity.
Qed.

Definition shifted (M k : Z) (rec : shr_record) : Prop :=
  shr_m rec = M / 2 ^ k /\
  (M mod 2 ^ k = 0 -> shr_r rec = false /\ shr_s rec = false).

Lemma shifted_step M k rec :
  0 <= M -> 0 <= k -> shifted M k rec -> shifted M (k + 1) (shr_1 rec).
Proof.
  intros HM Hk [Hm Hz]. destruct rec as [m r s]. cbn [shr_m shr_r shr_s] in *.
  assert (P : 0 < 2 ^ k) by (apply Z.pow_pos_nonneg; lia).
  assert (0 <= m) by (subst m; apply Z.div_pos; lia).
  rewrite shr_1_nonneg by assumption. unfold shifted. cbn [shr_m shr_r shr_s].
  rewrite Z.pow_add_r by lia. change (2 ^ 1) with 2.
  split.
  - subst m. rewrite Z.div_div by lia. reflexivity.
  - intros Z0. apply Z.mod_divide in Z0; [|lia]. destruct Z0 as [c Hc].
    assert (Zk : M mod 2 ^ k = 0).
    { apply Z.mod_divide; [lia|]. exists (c * 2). lia. }
    destruct (Hz Zk) as [-> ->]. split; [|reflexivity].
    subst m. rewrite Hc.
    replace (c * (2 ^ k * 2)) with ((c * 2) * 2 ^ k) by ring.
    rewrite Z.div_mul by lia. rewrite Z.odd_mul. simpl. apply andb_false_r.
Qed.

Lemma shifted_iter p : forall M k rec,
  0 <= M -> 0 <= k -> shifted M k rec ->
  shifted M (k + Zpos p) (iter_pos shr_1 p rec).
Proof.
  induction p as [p IH | p IH |]; intros M k rec HM Hk H; cbn [iter_pos].
  - replace (k + Zpos p~1) with (k + 1 + Zpos p + Zpos p) by lia.
    apply IH; [lia | lia |]. apply IH; [lia | lia |].
    now apply shifted_step.
  - replace (k + Zpos p~0) with (k + Zpos p + Zpos p) by lia.
    apply IH; [lia | lia |]. now apply IH.
  - now apply shifted_step.
Qed.

Lemma shifted_start M : shifted M 0 (Build_shr_record M false false).
Proof.
  unfold shifted. simpl. rewrite Z.div_1_r. auto.
Qed.

Lemma fexp_normal e : -1074 <= e - 53 -> fexp prec emax e = e - 53.
Proof. unfold fexp, SpecFloat.emin, prec, emax. lia. Qed.

Lemma round_nearest_even_cases q l :
  round_nearest_even q l = q \/ round_nearest_even q l = q + 1.
Proof.
  destruct l as [|[| |]]; cbn [round_nearest_even]; auto.
  destruct (Z.even q); auto.
Qed.

(** A normal number: 53 digits and an exponent in range. *)
Definition normal (m : positive) (e : Z) : Prop :=
  Zpos (digits2_pos m) = 53 /\ -1074 <= e <= 971.

Lemma normal_valid s m e : normal m e -> valid_binary (S754_finite s m e) = true.
Proof.
  intros [D R]. unfold valid_binary, SpecFloat.valid_binary, bounded, canonical_mantissa.
  rewrite D, fexp_normal by lia.
  apply andb_true_intro. split; [apply Z.eqb_eq; lia | apply Z.leb_le].
  unfold prec, emax. lia.
Qed.

Lemma pow2_pos k : 0 <= k -> 0 < 2 ^ k.
Proof. intros. apply Z.pow_pos_nonneg; lia. Qed.

(** Rounding a positive integer mantissa [M] of at least 53 digits at
    exponent [E]: the result is normal, and its mantissa is the quotient
    of [M] by the [n = digits - 53] bits dropped, or that plus one, and
    the quotient itself when nothing but zeros was dropped. *)
Lemma binary_round_aux_normal s M E n :
  n = Zpos (digits2_pos M) - 53 ->
  0 <= n -> -1074 <= E + n -> E + n <= 970 ->
  exists m e M1,
    binary_round_aux prec emax s (Zpos M) E loc_Exact = S754_finite s m e /\
    normal m e /\
    (M1 = Zpos M / 2 ^ n \/ M1 = Zpos M / 2 ^ n + 1) /\
    (Zpos M mod 2 ^ n = 0 -> M1 = Zpos M / 2 ^ n) /\
    E + n <= e /\ Zpos m * 2 ^ (e - (E + n)) = M1 /\
    2 ^ 52 <= Zpos M / 2 ^ n.
Proof.
  intros Hn Hd Hlo Hhi.
  set (d := Zpos (digits2_pos M)) in *.
  pose proof (digits2_bounds M) as B. fold d in B.
  assert (Pn : 0 < 2 ^ n) by (apply pow2_pos; lia).
  set (q := Zpos M / 2 ^ n).
  assert (Q : 2 ^ 52 <= q < 2 ^ 53).
  { assert (E1 : 2 ^ (d - 1) = 2 ^ 52 * 2 ^ n).
    { rewrite <- Z.pow_add_r by lia. f_equal. lia. }
    assert (E2 : 2 ^ d = 2 ^ 53 * 2 ^ n).
    { rewrite <- Z.pow_add_r by lia. f_equal. lia. }
    unfold q. split.
    - apply Z.div_le_lower_bound; lia.
    - apply Z.div_lt_upper_bound; lia. }
  unfold binary_round_aux, shr_fexp.
  cbn [Zdigits2]. fold d.
  rewrite fexp_normal by lia.
  replace (d + E - 53 - E) with n by lia.
  cbn [shr_record_of_loc].
  assert (Step2 : forall M1 e1,
            2 ^ 52 <= M1 <= 2 ^ 53 -> -1074 <= e1 <= 970 ->
            exists m e,
              (let '(mrs'', e'') :=
                 shr (shr_record_of_loc M1 loc_Exact) e1
                     (fexp prec emax (Zdigits2 M1 + e1) - e1) in
               match shr_m mrs'' with
               | 0 => S754_zero s
               | Zpos m => if e'' <=? emax - prec then S754_finite s m e''
                           else S754_infinity s
               | Zneg _ => S754_nan
               end) = S754_finite s m e /\
              normal m e /\ e1 <= e /\ Zpos m * 2 ^ (e - e1) = M1).
  { intros M1 e1 HM He.
    destruct M1 as [|p|p]; try (simpl in HM; lia).
    destruct (Z_lt_le_dec (Zpos p) (2 ^ 53)) as [L|L].
    - assert (Dp : Zpos (digits2_pos p) = 53)
        by (apply digits2_unique; change (53 - 1) with 52; lia).
      cbn [Zdigits2]. rewrite Dp, fexp_normal by lia.
      replace (53 + e1 - 53 - e1) with 0 by lia.
      cbn [shr shr_record_of_loc shr_m].
      exists p, e1. replace (e1 <=? emax - prec) with true
        by (symmetry; apply Z.leb_le; unfold emax, prec; lia).
      rewrite Z.sub_diag. simpl (2 ^ 0).
      repeat split; lia.
    - assert (Ep : Zpos p = 2 ^ 53) by lia.
      assert (Dp : Zpos (digits2_pos p) = 54)
        by (apply digits2_unique; rewrite Ep; simpl; lia).
      cbn [Zdigits2]. rewrite Dp, fexp_normal by lia.
      replace (54 + e1 - 53 - e1) with 1 by lia.
      cbn [shr shr_record_of_loc iter_pos].
      rewrite shr_1_nonneg by lia. cbn [shr_m]. rewrite Ep.
      change (2 ^ 53 / 2) with (Zpos (2 ^ 52)).
      exists (2 ^ 52)%positive, (e1 + 1).
      replace (e1 + 1 <=? emax - prec) with true
        by (symmetry; apply Z.leb_le; unfold emax, prec; lia).
      replace (e1 + 1 - e1) with 1 by lia.
      repeat split; try lia. }
  clearbody d. clear B.
  destruct n as [|p|p]; [| |lia].
  - cbn [shr shr_m loc_of_shr_record round_nearest_even].
    rewrite Z.add_0_r in *.
    assert (Eq : q = Zpos M) by (unfold q; change (2 ^ 0) with 1; apply Z.div_1_r).
    destruct (Step2 (Zpos M) E ltac:(lia) ltac:(lia)) as (m & e & E1 & Nm & Le & V).
    exists m, e, (Zpos M). rewrite Eq.
    repeat split; try assumption; try lia; try apply Nm; auto.
  - cbn [shr].
    pose proof (shifted_iter p (Zpos M) 0 _ ltac:(lia) ltac:(lia)
                  (shifted_start (Zpos M))) as Sh.
    rewrite Z.add_0_l in Sh. destruct Sh as [Sm Sz].
    set (rec := iter_pos shr_1 p _) in *.
    set (M1 := round_nearest_even (shr_m rec) (loc_of_shr_record rec)).
    assert (C : M1 = q \/ M1 = q + 1).
    { unfold M1. rewrite Sm. apply round_nearest_even_cases. }
    assert (X : Zpos M mod 2 ^ Zpos p = 0 -> M1 = q).
    { intros Z0. destruct (Sz Z0) as [R0 S0]. unfold M1.
      destruct rec as [rm rr rs]. cbn [shr_m shr_r shr_s] in *. subst rr rs.
      cbn [loc_of_shr_record round_nearest_even]. exact Sm. }
    destruct (Step2 M1 (E + Zpos p) ltac:(lia) ltac:(lia))
      as (m & e & E1 & Nm & Le & V).
    exists m, e, M1. repeat split; try assumption; try lia; try apply Nm.
Qed.

(** The value of [m * 2^e], in units of [2^-1200]. *)
Definition val (m : positive) (e : Z) : Z := Zpos m * 2 ^ (e + 1200).

Lemma normal_mantissa m e : normal m e -> 2 ^ 52 <= Zpos m < 2 ^ 53.
Proof.
  intros [D _]. pose proof (digits2_bounds m) as B. rewrite D in B. exact B.
Qed.

Lemma pow2_split a b : 0 <= a -> 0 <= b -> 2 ^ (a + b) = 2 ^ a * 2 ^ b.
Proof. intros. apply Z.pow_add_r; assumption. Qed.

(** The order of two normal numbers: by exponent, then by mantissa. *)
Lemma val_exponent_lt m1 e1 m2 e2 :
  normal m1 e1 -> normal m2 e2 -> e1 < e2 -> val m1 e1 < val m2 e2.
Proof.
  intros N1 N2 L. pose proof (normal_mantissa _ _ N1).
  pose proof (normal_mantissa _ _ N2).
  destruct N1 as [_ R1]. destruct N2 as [_ R2]. unfold val.
  replace (e2 + 1200) with ((e1 + 1200) + (e2 - e1)) by lia.
  rewrite (pow2_split (e1 + 1200) (e2 - e1)) by lia.
  assert (0 < 2 ^ (e1 + 1200)) by (apply pow2_pos; lia).
  assert (2 ^ 1 <= 2 ^ (e2 - e1)) by (apply Z.pow_le_mono_r; lia).
  change (2 ^ 1) with 2 in *. change (2 ^ 53) with (2 * 2 ^ 52) in *.
  set (c := 2 ^ (e2 - e1)) in *. set (A := 2 ^ (e1 + 1200)) in *.
  set (T := 2 ^ 52) in *.
  assert (Zpos m1 < Zpos m2 * c) by nia.
  rewrite (Z.mul_comm A c), Z.mul_assoc.
  apply Z.mul_lt_mono_pos_r; assumption.
Qed.

Lemma SFcompare_normal m1 e1 m2 e2 :
  normal m1 e1 -> normal m2 e2 ->
  SFcompare (S754_finite false m1 e1) (S754_finite false m2 e2)
  = Some (val m1 e1 ?= val m2 e2).
Proof.
  intros N1 N2. cbn [SFcompare]. f_equal.
  destruct (Z.compare_spec e1 e2) as [E|L|L].
  - subst e2. unfold val.
    assert (0 < 2 ^ (e1 + 1200)) by (apply pow2_pos; destruct N1; lia).
    change (Pos.compare_cont Eq m1 m2) with (Pos.compare m1 m2).
    rewrite Pos2Z.inj_compare.
    apply Zmult_compare_compat_r. lia.
  - symmetry. apply Z.compare_lt_iff. now apply val_exponent_lt.
  - symmetry. apply Z.compare_gt_iff. now apply val_exponent_lt.
Qed.

Lemma SFleb_normal m1 e1 m2 e2 :
  normal m1 e1 -> normal m2 e2 ->
  SFleb (S754_finite false m1 e1) (S754_finite false m2 e2)
  = (val m1 e1 <=? val m2 e2).
Proof.
  intros N1 N2. unfold SFleb. rewrite SFcompare_normal by assumption.
  unfold Z.leb. destruct (val m1 e1 ?= val m2 e2); reflexivity.
Qed.

(** A result [v] on the grid of step [G] around the exact value [X] is
    faithful: no normal number lies between [X] and [v]. *)
Definition faithful (X v : Z) : Prop :=
  forall m e, normal m e ->
    (val m e <= X -> val m e <= v) /\ (X <= val m e -> v <= val m e).

Lemma grid_faithful (X v q e' : Z) :
  -1200 <= e' ->
  2 ^ 52 <= q ->
  q * 2 ^ (e' + 1200) <= X < (q + 1) * 2 ^ (e' + 1200) ->
  (v = q * 2 ^ (e' + 1200) \/ v = (q + 1) * 2 ^ (e' + 1200)) ->
  (X = q * 2 ^ (e' + 1200) -> v = X) ->
  faithful X v.
Proof.
  intros He Hq HX Hv Hx m e N.
  pose proof (normal_mantissa _ _ N) as Bm. destruct N as [_ Re].
  set (G := 2 ^ (e' + 1200)) in *.
  assert (PG : 0 < G) by (apply pow2_pos; lia).
  unfold val.
  destruct (Z_lt_le_dec e e') as [L|L].
  - (* below the binade of [X] *)
    assert (EG : G = 2 ^ (e + 1200) * 2 ^ (e' - e)).
    { unfold G. rewrite <- (pow2_split (e + 1200) (e' - e)) by lia. f_equal. lia. }
    assert (0 < 2 ^ (e + 1200)) by (apply pow2_pos; lia).
    assert (2 ^ 1 <= 2 ^ (e' - e)) by (apply Z.pow_le_mono_r; lia).
    change (2 ^ 1) with 2 in *. change (2 ^ 53) with (2 * 2 ^ 52) in *.
    assert (Zpos m * 2 ^ (e + 1200) < q * G) by nia.
    split; intros; nia.
  - (* a multiple of the grid step *)
    assert (EF : 2 ^ (e + 1200) = G * 2 ^ (e - e')).
    { unfold G. rewrite <- (pow2_split (e' + 1200) (e - e')) by lia. f_equal. lia. }
    rewrite EF. set (c := 2 ^ (e - e')).
    assert (0 < c) by (apply pow2_pos; lia).
    replace (Zpos m * (G * c)) with ((Zpos m * c) * G) by ring.
    set (k := Zpos m * c).
    split; intros H1.
    + assert (k < q + 1) by nia. destruct Hv; subst v; nia.
    + destruct Hv as [->| ->]; [nia|].
      assert (X <> q * G) by (intros E; specialize (Hx E); nia).
      assert (q < k) by nia. nia.
Qed.

Lemma iter_xO (d m : positive) :
  Zpos (Pos.iter xO m d) = Zpos m * 2 ^ Zpos d.
Proof.
  induction d as [|d IH] using Pos.peano_ind.
  - cbn [Pos.iter]. rewrite Pos2Z.inj_xO. change (2 ^ 1) with 2. ring.
  - rewrite Pos.iter_succ, Pos2Z.inj_xO, IH, Pos2Z.inj_succ, Z.pow_succ_r by lia.
    ring.
Qed.

Lemma shl_align_spec m e e' :
  e' <= e ->
  exists m', shl_align m e e' = (m', e') /\ Zpos m' = Zpos m * 2 ^ (e - e').
Proof.
  intros L. unfold shl_align. destruct (e' - e) as [|p|p] eqn:D; try lia.
  - exists m. replace e' with e by lia. rewrite Z.sub_diag. split; [reflexivity|].
    change (2 ^ 0) with 1. lia.
  - exists (Pos.iter xO m p). split; [reflexivity|].
    rewrite iter_xO. f_equal. f_equal. lia.
Qed.

Lemma digits2_le (M : positive) (k : Z) :
  0 <= k -> Zpos M < 2 ^ k -> Zpos (digits2_pos M) <= k.
Proof.
  intros Hk L. pose proof (digits2_bounds M) as [B _].
  assert (2 ^ (Zpos (digits2_pos M) - 1) < 2 ^ k) by lia.
  apply Z.pow_lt_mono_r_iff in H; lia.
Qed.

(** Rounding a positive integer [M * 2^E] whose value is in the normal
    range: the result is a normal number, faithful, and within a relative
    error of [2^-52]. *)
Lemma binary_round_normal s M E :
  -1200 <= E ->
  -1021 <= E + Zpos (digits2_pos M) ->
  E + Zpos (digits2_pos M) <= 1023 ->
  exists m e,
    binary_round prec emax s M E = S754_finite s m e /\
    normal m e /\
    faithful (Zpos M * 2 ^ (E + 1200)) (val m e) /\
    2 ^ 52 * Z.abs (val m e - Zpos M * 2 ^ (E + 1200))
    <= Zpos M * 2 ^ (E + 1200).
Proof.
  intros HE Hlo Hhi. set (d := Zpos (digits2_pos M)) in *.
  pose proof (digits2_bounds M) as BM. fold d in BM.
  assert (PE : 0 < 2 ^ (E + 1200)) by (apply pow2_pos; lia).
  unfold binary_round. fold d.
  rewrite fexp_normal by lia.
  destruct (Z_le_gt_dec d 53) as [L|L].
  - (* fewer than 53 digits: aligned to 53, nothing is lost *)
    destruct (shl_align_spec M E (d + E - 53) ltac:(lia)) as (M' & -> & EM).
    replace (E - (d + E - 53)) with (53 - d) in EM by lia.
    assert (BM' : 2 ^ (53 - 1) <= Zpos M' < 2 ^ 53).
    { rewrite EM.
      replace (2 ^ (53 - 1)) with (2 ^ (d - 1) * 2 ^ (53 - d))
        by (rewrite <- pow2_split by lia; f_equal; lia).
      replace (2 ^ 53) with (2 ^ d * 2 ^ (53 - d))
        by (rewrite <- pow2_split by lia; f_equal; lia).
      assert (0 < 2 ^ (53 - d)) by (apply pow2_pos; lia). nia. }
    pose proof (digits2_unique M' 53 BM') as DM'.
    destruct (binary_round_aux_normal s M' (d + E - 53) 0)
      as (m & e & M1 & R & N & _ & Ex & Le & Vm & _); try lia.
    exists m, e. split; [exact R|]. split; [exact N|].
    assert (V : val m e = Zpos M * 2 ^ (E + 1200)).
    { unfold val. rewrite Z.add_0_r in Le, Vm.
      replace (e + 1200) with ((e - (d + E - 53)) + (d + E - 53 + 1200)) by lia.
      rewrite pow2_split by lia. rewrite Z.mul_assoc, Vm.
      rewrite Ex by (change (2 ^ 0) with 1; apply Z.mod_1_r).
      change (2 ^ 0) with 1. rewrite Z.div_1_r, EM.
      rewrite <- Z.mul_assoc, <- pow2_split by lia. f_equal. f_equal. lia. }
    rewrite V. split.
    + intros m0 e0 _. split; intros; assumption.
    + rewrite Z.sub_diag. cbn [Z.abs]. lia.
  - (* more than 53 digits: the low ones are rounded away *)
    destruct (d + E - 53 - E) as [|p|p] eqn:Dp; try lia. clear Dp.
    unfold shl_align.
    replace (d + E - 53 - E) with (d - 53) by lia.
    destruct (d - 53) as [|p'|p'] eqn:Dp; try lia.
    destruct (binary_round_aux_normal s M E (d - 53))
      as (m & e & M1 & R & N & C & Ex & Le & Vm & Q52); try lia.
    rewrite Dp in *.
    exists m, e. split; [exact R|]. split; [exact N|].
    set (n := Zpos p') in *. set (q := Zpos M / 2 ^ n) in *.
    assert (Pn : 0 < 2 ^ n) by (apply pow2_pos; lia).
    pose proof (Z.div_mod (Zpos M) (2 ^ n) ltac:(lia)) as DM. fold q in DM.
    pose proof (Z.mod_pos_bound (Zpos M) (2 ^ n) Pn) as BR.
    set (r := Zpos M mod 2 ^ n) in *.
    assert (EG : 2 ^ (E + n + 1200) = 2 ^ n * 2 ^ (E + 1200)).
    { rewrite <- pow2_split by lia. f_equal. lia. }
    assert (V : val m e = M1 * 2 ^ (E + n + 1200)).
    { unfold val.
      replace (e + 1200) with ((e - (E + n)) + (E + n + 1200)) by lia.
      rewrite pow2_split by lia. rewrite Z.mul_assoc, Vm. reflexivity. }
    set (G := 2 ^ (E + n + 1200)) in *. set (U := 2 ^ (E + 1200)) in *.
    assert (PG : 0 < G) by (unfold G; apply pow2_pos; lia).
    assert (XB : q * G <= Zpos M * U < (q + 1) * G) by (rewrite DM, EG; nia).
    split.
    + apply (grid_faithful _ _ q (E + n)); fold G; lia.
    + rewrite V. set (T := 2 ^ 52) in *.
      assert (T * G <= q * G) by nia.
      destruct C as [-> | ->]; lia.
Qed.

Lemma val_pos m e : -1200 <= e -> 0 < val m e.
Proof.
  intros. unfold val. assert (0 < 2 ^ (e + 1200)) by (apply pow2_pos; lia). nia.
Qed.

(** The exponent of a normal number, from bounds on its value. *)
Lemma val_exponent_lower m e k :
  normal m e -> 0 <= k -> 2 ^ k <= val m e -> k - 1253 < e.
Proof.
  intros N Hk L. pose proof (normal_mantissa _ _ N) as [_ B].
  destruct N as [_ R]. unfold val in L.
  assert (P : 0 < 2 ^ (e + 1200)) by (apply pow2_pos; lia).
  assert (2 ^ k < 2 ^ 53 * 2 ^ (e + 1200)) by nia.
  rewrite <- pow2_split in H by lia.
  apply Z.pow_lt_mono_r_iff in H; lia.
Qed.

Lemma val_exponent_upper m e k :
  normal m e -> 0 <= k -> val m e < 2 ^ k -> e < k - 1252.
Proof.
  intros N Hk L. pose proof (normal_mantissa _ _ N) as [B _].
  destruct N as [_ R]. unfold val in L.
  assert (P : 0 < 2 ^ (e + 1200)) by (apply pow2_pos; lia).
  assert (2 ^ 52 * 2 ^ (e + 1200) < 2 ^ k) by nia.
  rewrite <- pow2_split in H by lia.
  apply Z.pow_lt_mono_r_iff in H; lia.
Qed.

(** [binary_round] from bounds on the value. *)
Lemma round_value s M E :
  -1200 <= E ->
  2 ^ 178 <= Zpos M * 2 ^ (E + 1200) < 2 ^ 2223 ->
  exists m e,
    binary_round prec emax s M E = S754_finite s m e /\
    normal m e /\
    faithful (Zpos M * 2 ^ (E + 1200)) (val m e) /\
    2 ^ 52 * Z.abs (val m e - Zpos M * 2 ^ (E + 1200))
    <= Zpos M * 2 ^ (E + 1200).
Proof.
  intros HE [Lo Hi]. apply binary_round_normal; [exact HE| |].
  - pose proof (digits2_bounds M) as [_ B].
    assert (P : 0 < 2 ^ (E + 1200)) by (apply pow2_pos; lia).
    assert (0 < Zpos (digits2_pos M)) by lia.
    assert (2 ^ 178 < 2 ^ Zpos (digits2_pos M) * 2 ^ (E + 1200)) by nia.
    rewrite <- pow2_split in H0 by lia.
    apply Z.pow_lt_mono_r_iff in H0; lia.
  - pose proof (digits2_bounds M) as [B _].
    assert (P : 0 < 2 ^ (E + 1200)) by (apply pow2_pos; lia).
    assert (0 < Zpos (digits2_pos M)) by lia.
    assert (2 ^ (Zpos (digits2_pos M) - 1) * 2 ^ (E + 1200) < 2 ^ 2223) by nia.
    rewrite <- pow2_split in H0 by lia.
    apply Z.pow_lt_mono_r_iff in H0; lia.
Qed.

Definition quarter : spec_float := S754_finite false 4503599627370496 (-54).

(** Multiplying a normal number by 0.25 is exact. *)
Lemma SFmul_quarter s m0 e0 :
  normal m0 e0 -> -1072 <= e0 ->
  exists m e,
    SFmul prec emax (S754_finite s m0 e0) quarter = S754_finite s m e /\
    normal m e /\ 4 * val m e = val m0 e0.
Proof.
  intros N L. pose proof (normal_mantissa _ _ N) as B.
  pose proof N as [_ R].
  unfold quarter. cbn [SFmul]. rewrite xorb_false_r.
  set (M := (m0 * 4503599627370496)%positive).
  assert (EM : Zpos M = Zpos m0 * 2 ^ 52) by (unfold M; rewrite Pos2Z.inj_mul; reflexivity).
  assert (D : Zpos (digits2_pos M) = 105).
  { apply digits2_unique. rewrite EM.
    change (2 ^ (105 - 1)) with (2 ^ 52 * 2 ^ 52).
    change (2 ^ 105) with (2 ^ 53 * 2 ^ 52). lia. }
  destruct (binary_round_aux_normal s M (e0 + -54) 52)
    as (m & e & M1 & Rd & Nm & _ & Ex & Le & Vm & _); try lia.
  exists m, e. split; [exact Rd|]. split; [exact Nm|].
  rewrite Ex in Vm by (rewrite EM; apply Z.mod_mul; lia).
  rewrite EM, Z.div_mul in Vm by lia.
  unfold val. rewrite <- Vm.
  replace (e + 1200) with ((e - (e0 + -54 + 52)) + (e0 + 1198)) by lia.
  replace (e0 + 1200) with (2 + (e0 + 1198)) by lia.
  rewrite (pow2_split (e - _)), (pow2_split 2) by lia.
  change (2 ^ 2) with 4. ring.
Qed.

Lemma aligned m e ez :
  -1200 <= ez <= e ->
  Zpos (fst (shl_align m e ez)) * 2 ^ (ez + 1200) = val m e.
Proof.
  intros [L1 L2]. destruct (shl_align_spec m e ez L2) as (m' & -> & E).
  cbn [fst]. rewrite E. unfold val.
  rewrite <- Z.mul_assoc, <- pow2_split by lia. f_equal. f_equal. lia.
Qed.

(** The signed value of a finite number. *)
Definition sval (s : bool) (m : positive) (e : Z) : Z := cond_Zopp s (val m e).

Lemma cond_Zopp_mul s a c : cond_Zopp s a * c = cond_Zopp s (a * c).
Proof. destruct s; cbn [cond_Zopp]; ring. Qed.

Lemma SFadd_finite sx mx ex sy my ey :
  -1200 <= ex -> -1200 <= ey ->
  exists S,
    SFadd prec emax (S754_finite sx mx ex) (S754_finite sy my ey)
    = binary_normalize prec emax S (Z.min ex ey) false /\
    S * 2 ^ (Z.min ex ey + 1200) = sval sx mx ex + sval sy my ey.
Proof.
  intros Lx Ly. eexists. split; [reflexivity|].
  rewrite Z.mul_add_distr_r, !cond_Zopp_mul, !aligned by lia. reflexivity.
Qed.

Lemma SFsub_finite sx mx ex sy my ey :
  -1200 <= ex -> -1200 <= ey ->
  exists S,
    SFsub prec emax (S754_finite sx mx ex) (S754_finite sy my ey)
    = binary_normalize prec emax S (Z.min ex ey) false /\
    S * 2 ^ (Z.min ex ey + 1200) = sval sx mx ex - sval sy my ey.
Proof.
  intros Lx Ly. eexists. split; [reflexivity|].
  rewrite Z.mul_sub_distr_r, !cond_Zopp_mul, !aligned by lia. reflexivity.
Qed.

(** Normalising a non-zero integer whose value is in the normal range. *)
Lemma binary_normalize_value S E X :
  -1200 <= E -> S * 2 ^ (E + 1200) = X ->
  2 ^ 178 <= Z.abs X < 2 ^ 2223 ->
  exists m e,
    binary_normalize prec emax S E false = S754_finite (X <? 0) m e /\
    normal m e /\
    faithful (Z.abs X) (val m e) /\
    2 ^ 52 * Z.abs (val m e - Z.abs X) <= Z.abs X.
Proof.
  intros HE EX B.
  assert (P : 0 < 2 ^ (E + 1200)) by (apply pow2_pos; lia).
  destruct S as [|M|M].
  - rewrite Z.mul_0_l in EX. subst X. cbn in B. lia.
  - assert (Z.abs X = Zpos M * 2 ^ (E + 1200)) by lia.
    replace (X <? 0) with false by (symmetry; apply Z.ltb_ge; lia).
    rewrite H in *. cbn [binary_normalize]. apply round_value; assumption.
  - assert (Z.abs X = Zpos M * 2 ^ (E + 1200)) by lia.
    replace (X <? 0) with true by (symmetry; apply Z.ltb_lt; lia).
    rewrite H in *. cbn [binary_normalize]. apply round_value; assumption.
Qed.

Lemma pow2_le a b : 0 <= a <= b -> 2 ^ a <= 2 ^ b.
Proof. intros. apply Z.pow_le_mono_r; lia. Qed.

Lemma pow2_lt a b : 0 <= a < b -> 2 ^ a < 2 ^ b.
Proof. intros. apply Z.pow_lt_mono_r; lia. Qed.

(** One step of the slide on numbers between 160 and 586: the result lies
    between the start and the target, within [2^-42] of the exact value
    [x + (b - x) / 4]. *)
Lemma lerp_SF mx ex mb eb :
  normal mx ex -> normal mb eb ->
  160 * 2 ^ 1200 <= val mx ex <= 586 * 2 ^ 1200 ->
  160 * 2 ^ 1200 <= val mb eb <= 586 * 2 ^ 1200 ->
  exists mr er,
    SFadd prec emax (S754_finite false mx ex)
      (SFmul prec emax
         (SFsub prec emax (S754_finite false mb eb) (S754_finite false mx ex))
         quarter)
    = S754_finite false mr er /\
    normal mr er /\
    (val mx ex <= val mb eb -> val mx ex <= val mr er <= val mb eb) /\
    (val mb eb <= val mx ex -> val mb eb <= val mr er <= val mx ex) /\
    2 ^ 52 * Z.abs (4 * val mr er - (3 * val mx ex + val mb eb))
    <= 4096 * 2 ^ 1200.
Proof.
  intros Nx Nb Bx Bb.
  assert (E7 : 2 ^ 1207 = 128 * 2 ^ 1200)
    by (exact (pow2_split 7 1200 ltac:(lia) ltac:(lia))).
  assert (E10 : 2 ^ 1210 = 1024 * 2 ^ 1200)
    by (exact (pow2_split 10 1200 ltac:(lia) ltac:(lia))).
  assert (PU : 0 < 2 ^ 1200) by (apply pow2_pos; lia).
  assert (Lo : 2 ^ 178 <= 2 ^ 1150) by (apply pow2_le; lia).
  assert (Mi : 2 ^ 1150 < 2 ^ 1207) by (apply pow2_lt; lia).
  assert (Hi : 2 ^ 1210 < 2 ^ 2223) by (apply pow2_lt; lia).
  set (U := 2 ^ 1200) in *. set (P178 := 2 ^ 178) in *.
  set (P2223 := 2 ^ 2223) in *. set (P1150 := 2 ^ 1150) in *.
  assert (Xl : -46 < ex) by (apply (val_exponent_lower mx ex 1207 Nx); lia).
  assert (Xu : ex < -42) by (apply (val_exponent_upper mx ex 1210 Nx); lia).
  assert (Bl : -46 < eb) by (apply (val_exponent_lower mb eb 1207 Nb); lia).
  assert (Bu : eb < -42) by (apply (val_exponent_upper mb eb 1210 Nb); lia).
  set (vx := val mx ex) in *. set (vb := val mb eb) in *.
  destruct (SFsub_finite false mb eb false mx ex) as (D & ED & VD); try lia.
  rewrite ED. clear ED. unfold sval in VD. cbn [cond_Zopp] in VD.
  fold vx vb in VD.
  set (ez := Z.min eb ex) in *.
  assert (Pz : 2 ^ 1150 <= 2 ^ (ez + 1200)) by (apply pow2_le; lia).
  fold P1150 in Pz.
  assert (T52 : 2 ^ 52 = 4503599627370496) by reflexivity.
  destruct (Z.lt_total vx vb) as [C | [C | C]].
  - (* to the right *)
    assert (PG : 0 < 2 ^ (ez + 1200)) by lia.
    assert (D1 : 1 <= D) by nia.
    assert (DG : 2 ^ (ez + 1200) <= vb - vx) by nia.
    destruct (binary_normalize_value D ez (vb - vx)) as (m0 & e0 & R0 & N0 & _ & Q0);
      [lia | exact VD | fold P178 P2223; lia |].
    rewrite R0. clear R0.
    replace (vb - vx <? 0) with false by (symmetry; apply Z.ltb_ge; lia).
    set (v0 := val m0 e0) in *.
    assert (V0 : P1150 <= 2 * v0) by lia.
    assert (L0 : -105 < e0).
    { assert (2 ^ 1149 <= val m0 e0).
      { fold v0. assert (2 * 2 ^ 1149 = P1150)
          by (symmetry; exact (pow2_split 1 1149 ltac:(lia) ltac:(lia))).
        lia. }
      pose proof (val_exponent_lower m0 e0 1149 N0 ltac:(lia) H). lia. }
    destruct (SFmul_quarter false m0 e0 N0 ltac:(lia)) as (md & ed & Rd & Nd & Vd).
    rewrite Rd. clear Rd. fold v0 in Vd.
    assert (Ld : -107 < ed).
    { assert (2 ^ 1147 <= val md ed).
      { assert (8 * 2 ^ 1147 = P1150)
          by (symmetry; exact (pow2_split 3 1147 ltac:(lia) ltac:(lia))).
        lia. }
      pose proof (val_exponent_lower md ed 1147 Nd ltac:(lia) H). lia. }
    set (vd := val md ed) in *.
    destruct (SFadd_finite false mx ex false md ed) as (S & ES & VS); try lia.
    rewrite ES. clear ES. unfold sval in VS. cbn [cond_Zopp] in VS.
    fold vx vd in VS.
    destruct (binary_normalize_value S (Z.min ex ed) (vx + vd))
      as (mr & er & Rr & Nr & Fr & Qr);
      [lia | exact VS | fold P178 P2223; lia |].
    rewrite Rr. clear Rr.
    replace (vx + vd <? 0) with false by (symmetry; apply Z.ltb_ge; lia).
    exists mr, er. split; [reflexivity|]. split; [exact Nr|].
    destruct (Fr mx ex Nx) as [F1 _]. destruct (Fr mb eb Nb) as [_ F2].
    fold vx in F1. fold vb in F2.
    set (vr := val mr er) in *.
    lia.
  - (* at the target *)
    rewrite C, Z.sub_diag in VD.
    assert (D = 0) by nia. subst D.
    unfold quarter. cbn [binary_normalize SFmul SFadd xorb].
    exists mx, ex. split; [reflexivity|]. split; [exact Nx|].
    fold vx. lia.
  - (* to the left *)
    assert (PG : 0 < 2 ^ (ez + 1200)) by lia.
    assert (D1 : D <= -1) by nia.
    assert (DG : 2 ^ (ez + 1200) <= vx - vb) by nia.
    destruct (binary_normalize_value D ez (vb - vx)) as (m0 & e0 & R0 & N0 & _ & Q0);
      [lia | exact VD | fold P178 P2223; lia |].
    rewrite R0. clear R0.
    replace (vb - vx <? 0) with true by (symmetry; apply Z.ltb_lt; lia).
    set (v0 := val m0 e0) in *.
    assert (V0 : P1150 <= 2 * v0) by lia.
    assert (L0 : -105 < e0).
    { assert (2 ^ 1149 <= val m0 e0).
      { fold v0. assert (2 * 2 ^ 1149 = P1150)
          by (symmetry; exact (pow2_split 1 1149 ltac:(lia) ltac:(lia))).
        lia. }
      pose proof (val_exponent_lower m0 e0 1149 N0 ltac:(lia) H). lia. }
    destruct (SFmul_quarter true m0 e0 N0 ltac:(lia)) as (md & ed & Rd & Nd & Vd).
    rewrite Rd. clear Rd. fold v0 in Vd.
    assert (Ld : -107 < ed).
    { assert (2 ^ 1147 <= val md ed).
      { assert (8 * 2 ^ 1147 = P1150)
          by (symmetry; exact (pow2_split 3 1147 ltac:(lia) ltac:(lia))).
        lia. }
      pose proof (val_exponent_lower md ed 1147 Nd ltac:(lia) H). lia. }
    set (vd := val md ed) in *.
    destruct (SFadd_finite false mx ex true md ed) as (S & ES & VS); try lia.
    rewrite ES. clear ES. unfold sval in VS. cbn [cond_Zopp] in VS.
    fold vx vd in VS.
    destruct (binary_normalize_value S (Z.min ex ed) (vx + - vd))
      as (mr & er & Rr & Nr & Fr & Qr);
      [lia | exact VS | fold P178 P2223; lia |].
    rewrite Rr. clear Rr.
    replace (vx + - vd <? 0) with false by (symmetry; apply Z.ltb_ge; lia).
    exists mr, er. split; [reflexivity|]. split; [exact Nr|].
    destruct (Fr mx ex Nx) as [_ F1]. destruct (Fr mb eb Nb) as [F2 _].
    fold vx in F1. fold vb in F2.
    set (vr := val mr er) in *. lia.
Qed.

End Binary64.

Import Binary64.

(** ** The slide of the car *)

(** [target_x] of a lane, and the car's [x] after [n] playing ticks with
    the same target [b], starting from [a]. *)
Definition target_x (lane : Z) : float :=
  Py.float_of_int (lane_x lane - CAR_W / 2).

Definition slide_n (n : nat) (a b : float) : float :=
  Nat.iter n (fun x => lerp x b 0.25) a.

(** The update as the specification writes it, [x + alpha (target - x)],
    in exact arithmetic; to compare with [lerp], which is binary64. *)
Definition lerp_exact (a b t : Q) : Q := (a + (b - a) * t)%Q.

(** [x'] lies between [x] and the target [b], on the side of the start
    [a]: a move towards the target that does not pass it. *)
Definition towards (a b x x' : float) : bool :=
  if (a <=? b)%float then (x <=? x')%float && (x' <=? b)%float
  else (b <=? x')%float && (x' <=? x)%float.

(** The binary64 step from [x] is the exact one: nothing was rounded. *)
Definition unrounded (b x : float) : bool :=
  Qeq_bool (Py.to_Q (lerp x b 0.25))
           (lerp_exact (Py.to_Q x) (Py.to_Q b) (1 # 4)).

(** [x] is between the left lane's position and the right lane's. *)
Definition on_road (x : float) : bool :=
  (160 <=? x)%float && (x <=? 586)%float.

Lemma on_road_SF x :
  on_road x = true ->
  exists m e,
    Prim2SF x = S754_finite false m e /\ normal m e /\
    160 * 2 ^ 1200 <= val m e <= 586 * 2 ^ 1200.
Proof.
  unfold on_road. intros H. apply andb_prop in H as [H1 H2].
  rewrite FloatAxioms.leb_spec in H1, H2.
  pose proof (Prim2SF_valid x) as V.
  assert (E160 : Prim2SF 160 = S754_finite false 5629499534213120 (-45))
    by (vm_compute; reflexivity).
  assert (E586 : Prim2SF 586 = S754_finite false 5154510511013888 (-43))
    by (vm_compute; reflexivity).
  assert (N160 : normal 5629499534213120 (-45)) by (split; [reflexivity | lia]).
  assert (N586 : normal 5154510511013888 (-43)) by (split; [reflexivity | lia]).
  assert (V160 : val 5629499534213120 (-45) = 160 * 2 ^ 1200)
    by (vm_compute; reflexivity).
  assert (V586 : val 5154510511013888 (-43) = 586 * 2 ^ 1200)
    by (vm_compute; reflexivity).
  rewrite E160 in H1. rewrite E586 in H2.
  destruct (Prim2SF x) as [s | s | | s m e]; try discriminate H1.
  - destruct s; discriminate.
  - destruct s; [discriminate H1|].
    assert (Le : -45 <= e <= -43).
    { unfold SFleb, SFcompare in H1, H2.
      destruct (Z.compare_spec (-45) e); destruct (Z.compare_spec e (-43));
        try discriminate; lia. }
    assert (N : normal m e).
    { cbn [valid_binary] in V. unfold bounded, canonical_mantissa in V.
      apply andb_prop in V as [V _]. apply Z.eqb_eq in V.
      unfold fexp, emin, prec, emax in V. split; lia. }
    exists m, e. split; [reflexivity|]. split; [exact N|].
    rewrite (SFleb_normal _ _ _ _ N160 N) in H1.
    rewrite (SFleb_normal _ _ _ _ N N586) in H2.
    apply Z.leb_le in H1, H2. rewrite V160 in H1. rewrite V586 in H2.
    split; assumption.
Qed.

Lemma to_Q_val x m e :
  Prim2SF x = S754_finite false m e -> -1200 <= e < 0 ->
  (Py.to_Q x == val m e # Z.to_pos (2 ^ 1200))%Q.
Proof.
  intros E [L1 L2]. unfold Py.to_Q. rewrite E.
  replace (0 <=? e) with false by (symmetry; apply Z.leb_gt; lia).
  unfold Qeq. cbn [Qnum Qden].
  rewrite !Z2Pos.id by (apply pow2_pos; lia).
  unfold val. rewrite <- Z.mul_assoc. f_equal.
  rewrite <- pow2_split by lia. f_equal. lia.
Qed.

(** One tick of the slide, for every position on the road and every
    target on it. *)
Lemma lerp_on_road (x b : float) :
  on_road x = true -> on_road b = true ->
  on_road (lerp x b 0.25) = true /\
  towards x b x (lerp x b 0.25) = true /\
  (Qabs (Py.to_Q (lerp x b 0.25) - lerp_exact (Py.to_Q x) (Py.to_Q b) (1 # 4))
   <= 1 # 2 ^ 42)%Q.
Proof.
  intros Hx Hb.
  destruct (on_road_SF x Hx) as (mx & ex & Ex & Nx & Bx).
  destruct (on_road_SF b Hb) as (mb & eb & Eb & Nb & Bb).
  destruct (lerp_SF mx ex mb eb Nx Nb Bx Bb) as (mr & er & Er & Nr & T1 & T2 & Q).
  assert (E160 : Prim2SF 160 = S754_finite false 5629499534213120 (-45))
    by (vm_compute; reflexivity).
  assert (E586 : Prim2SF 586 = S754_finite false 5154510511013888 (-43))
    by (vm_compute; reflexivity).
  assert (N160 : normal 5629499534213120 (-45)) by (split; [reflexivity | lia]).
  assert (N586 : normal 5154510511013888 (-43)) by (split; [reflexivity | lia]).
  assert (V160 : val 5629499534213120 (-45) = 160 * 2 ^ 1200)
    by (vm_compute; reflexivity).
  assert (V586 : val 5154510511013888 (-43) = 586 * 2 ^ 1200)
    by (vm_compute; reflexivity).
  assert (R : Prim2SF (lerp x b 0.25) = S754_finite false mr er).
  { unfold lerp. rewrite FloatAxioms.add_spec, FloatAxioms.mul_spec, FloatAxioms.sub_spec, Ex, Eb.
    replace (Prim2SF 0.25) with quarter by (vm_compute; reflexivity).
    exact Er. }
  assert (PU : 0 < 2 ^ 1200) by (apply pow2_pos; lia).
  assert (E7 : 2 ^ 1207 = 128 * 2 ^ 1200)
    by (exact (pow2_split 7 1200 ltac:(lia) ltac:(lia))).
  assert (E10 : 2 ^ 1210 = 1024 * 2 ^ 1200)
    by (exact (pow2_split 10 1200 ltac:(lia) ltac:(lia))).
  assert (Br : 160 * 2 ^ 1200 <= val mr er <= 586 * 2 ^ 1200).
  { destruct (Z.le_ge_cases (val mx ex) (val mb eb)) as [C|C];
      [specialize (T1 C) | specialize (T2 C)]; lia. }
  assert (Xe : -1200 <= ex < 0).
  { pose proof (val_exponent_lower mx ex 1207 Nx ltac:(lia) ltac:(lia)).
    pose proof (val_exponent_upper mx ex 1210 Nx ltac:(lia) ltac:(lia)). lia. }
  assert (Be : -1200 <= eb < 0).
  { pose proof (val_exponent_lower mb eb 1207 Nb ltac:(lia) ltac:(lia)).
    pose proof (val_exponent_upper mb eb 1210 Nb ltac:(lia) ltac:(lia)). lia. }
  assert (Re : -1200 <= er < 0).
  { pose proof (val_exponent_lower mr er 1207 Nr ltac:(lia) ltac:(lia)).
    pose proof (val_exponent_upper mr er 1210 Nr ltac:(lia) ltac:(lia)). lia. }
  split; [|split].
  - unfold on_road. rewrite !FloatAxioms.leb_spec, R, E160, E586.
    rewrite (SFleb_normal _ _ _ _ N160 Nr), (SFleb_normal _ _ _ _ Nr N586).
    rewrite V160, V586. apply andb_true_intro. split; apply Z.leb_le; lia.
  - unfold towards. rewrite !FloatAxioms.leb_spec, R, Ex, Eb.
    rewrite !SFleb_normal by assumption.
    destruct (Z.leb_spec (val mx ex) (val mb eb)) as [C|C].
    + apply andb_true_intro. split; apply Z.leb_le; lia.
    + apply andb_true_intro. split; apply Z.leb_le; lia.
  - unfold lerp_exact.
    rewrite (to_Q_val _ _ _ R Re), (to_Q_val _ _ _ Ex Xe), (to_Q_val _ _ _ Eb Be).
    set (d := Z.to_pos (2 ^ 1200)).
    assert (Ed : Zpos d = 2 ^ 1200) by (apply Z2Pos.id; exact PU).
    set (vr := val mr er) in *. set (vx := val mx ex) in *.
    set (vb := val mb eb) in *.
    assert (Eq : ((vr # d) - ((vx # d) + ((vb # d) - (vx # d)) * (1 # 4))
                  == (4 * vr - (3 * vx + vb)) # (4 * d))%Q).
    { unfold Qeq, Qminus, Qplus, Qmult, Qopp. cbn [Qnum Qden].
      rewrite !Pos2Z.inj_mul. ring. }
    rewrite Eq. unfold Qabs, Qle. cbn [Qnum Qden].
    rewrite Pos2Z.inj_mul, Ed.
    set (U := 2 ^ 1200) in *.
    assert (T52 : 2 ^ 52 = 4503599627370496) by reflexivity.
    assert (T42 : Zpos (2 ^ 42) = 4398046511104) by reflexivity.
    rewrite T42. rewrite T52 in Q. lia.
Qed.

Lemma playing_car i w s :
  car_lane (playing i w s) = hand_lane (hand_x s) w /\
  car_x_px (playing i w s)
  = lerp (car_x_px s) (target_x (hand_lane (hand_x s) w)) 0.25.
Proof.
  rewrite playing_eq. unfold set_enemies. cbn [car_lane car_x_px].
  unfold tick_state. set (s0 := slide w s). set (s1 := spawn_enemies i s0).
  destruct (loop_frame (in_burst i) (tick_car w s) (enemies s1) 0%nat s1 [])
    as (L1 & L2 & _).
  destruct (spawn_enemies_frame i s0) as (S1 & S2 & _). fold s1 in S1, S2.
  rewrite L1, L2, S1, S2. split; reflexivity.
Qed.

Lemma lerp_exact_contracts (x t : Q) :
  (lerp_exact x t (1 # 4) - t == (3 # 4) * (x - t))%Q.
Proof. unfold lerp_exact. ring. Qed.

Lemma slide_n_stalls (a b : float) (k : nat) :
  slide_n (S k) a b = slide_n k a b ->
  forall n, (k <= n)%nat -> slide_n n a b = slide_n k a b.
Proof.
  intros E n Hn. induction Hn as [|n Hn IH]; [reflexivity|].
  unfold slide_n in *. simpl. rewrite IH. exact E.
Qed.

Definition slide_check (a b : float) (n : nat) : bool :=
  towards a b (slide_n n a b) (slide_n (S n) a b)
  && ((21 <=? n)%nat || unrounded b (slide_n n a b)).

Lemma slide_between_lanes (la lb : Z) :
  0 <= la <= 2 -> 0 <= lb <= 2 ->
  forall n,
    towards (target_x la) (target_x lb)
      (slide_n n (target_x la) (target_x lb))
      (slide_n (S n) (target_x la) (target_x lb)) = true /\
    ((n < 21)%nat ->
     unrounded (target_x lb) (slide_n n (target_x la) (target_x lb)) = true) /\
    ((126 <= n)%nat ->
     slide_n (S n) (target_x la) (target_x lb)
     = slide_n n (target_x la) (target_x lb)).
Proof.
  intros Ha Hb.
  assert (K : forall a b,
             slide_n 127 a b = slide_n 126 a b ->
             forallb (slide_check a b) (seq 0 127) = true ->
             forall n,
               towards a b (slide_n n a b) (slide_n (S n) a b) = true /\
               ((n < 21)%nat -> unrounded b (slide_n n a b) = true) /\
               ((126 <= n)%nat -> slide_n (S n) a b = slide_n n a b)).
  { intros a b E C n.
    assert (St : (126 <= n)%nat -> slide_n (S n) a b = slide_n n a b).
    { intros Hn. rewrite (slide_n_stalls a b 126 E n Hn).
      apply (slide_n_stalls a b 126 E). lia. }
    rewrite forallb_forall in C.
    destruct (Nat.lt_ge_cases n 127) as [L|L].
    - specialize (C n ltac:(apply in_seq; lia)). unfold slide_check in C.
      apply andb_prop in C as [C1 C2]. split; [exact C1|]. split; [|exact St].
      intros Hn. destruct (Nat.leb_spec 21 n); [lia | exact C2].
    - split; [|split; [intros; lia | exact St]].
      rewrite (St ltac:(lia)), (slide_n_stalls a b 126 E n ltac:(lia)).
      specialize (C 126%nat ltac:(apply in_seq; lia)). unfold slide_check in C.
      apply andb_prop in C as [C1 _]. rewrite E in C1. exact C1. }
  assert (A : la = 0 \/ la = 1 \/ la = 2) by lia.
  assert (B : lb = 0 \/ lb = 1 \/ lb = 2) by lia.
  destruct A as [-> | [-> | ->]], B as [-> | [-> | ->]];
    apply K; vm_compute; reflexivity.
Qed.

(** The hand in the left third and every enemy in the right lane: after
    150 ticks the car has stopped a little to the right of lane 0. *)
Definition stalled : World :=
  Eval vm_compute in after_ticks 150 (input (Some 100) 2).

Lemma reachable_stalled : reachable stalled.
Proof.
  replace stalled with (after_ticks 150 (input (Some 100) 2))
    by (vm_compute; reflexivity).
  apply reachable_after_ticks.
Qed.


Lemma target_on_road (l : Z) : 0 <= l <= 2 -> on_road (target_x l) = true.
Proof.
  intros H. assert (C : l = 0 \/ l = 1 \/ l = 2) by lia.
  destruct C as [-> | [-> | ->]]; vm_compute; reflexivity.
Qed.

Lemma hand_lane_range (h : option Z) (w : Z) : 0 <= hand_lane h w <= 2.
Proof.
  unfold hand_lane. destruct h; [|lia]. cbv zeta.
  destruct (_ <? _)%float; [lia|]. destruct (_ <? _)%float; lia.
Qed.

(** In every session the game reaches the car is on the road. *)
Lemma reachable_on_road (w : World) :
  reachable w -> on_road (car_x_px (st w)) = true.
Proof.
  induction 1 as [w0 | i w R IH]; [vm_compute; reflexivity|].
  destruct (before_logic_frame i w) as (_ & Fx & _).
  rewrite step_eq. cbn [st]. unfold set_particles. cbn [car_x_px].
  unfold after_logic. destruct (negb _).
  - destruct (playing_car i (width_seen i w) (before_logic i w)) as [_ ->].
    rewrite Fx. apply lerp_on_road; [exact IH|].
    apply target_on_road, hand_lane_range.
  - unfold game_over_screen. destruct (0 <? _); [|destruct (hand_x _)].
    + unfold set_go_timer. cbn [car_x_px]. now rewrite Fx.
    + vm_compute. reflexivity.
    + now rewrite Fx.
Qed.

(** Where a slide between two different lanes comes to rest: short of the
    target, by at most [2^-42]. *)
Lemma slide_rest (la lb : Z) :
  0 <= la <= 2 -> 0 <= lb <= 2 -> la <> lb ->
  let x := slide_n 126 (target_x la) (target_x lb) in
  (0 < Qabs (Py.to_Q x - Py.to_Q (target_x lb)))%Q /\
  (Qabs (Py.to_Q x - Py.to_Q (target_x lb)) <= 1 # 2 ^ 42)%Q.
Proof.
  intros Ha Hb Hn. cbv zeta.
  assert (A : la = 0 \/ la = 1 \/ la = 2) by lia.
  assert (B : lb = 0 \/ lb = 1 \/ lb = 2) by lia.
  destruct A as [-> | [-> | ->]], B as [-> | [-> | ->]];
    try (exfalso; apply Hn; reflexivity);
    (split; [vm_compute; reflexivity | vm_compute; discriminate]).
Qed.

(** The same hand and lanes, 31 ticks after the start: the car is still
    on its way. *)
Definition mid_slide : World :=
  Eval vm_compute in after_ticks 31 (input (Some 100) 2).

Lemma reachable_mid_slide : reachable mid_slide.
Proof.
  replace mid_slide with (after_ticks 31 (input (Some 100) 2))
    by (vm_compute; reflexivity).
  apply reachable_after_ticks.
Qed.

(** C7 (as amended).  A tick of the playing state sets the car's [x] to
    [lerp(x, target_x, 0.25)] with
    [target_x = LANE_X[target_lane] - CAR_W // 2], evaluated in binary64.
    In exact arithmetic this update multiplies the distance to the target
    by exactly 0.75 and keeps [x] on its side of the target.  In binary64
    that holds up to rounding.  On every playing tick of every session the
    game reaches, whatever the position of the car and the target lane:
    the car is between the positions of the outer lanes, the new [x] lies
    between the old one and the target (a move towards the target, never
    past it), and the new signed distance to the target is 0.75 times the
    old one up to an error of at most [2^-42].  On a slide from one lane's
    position to another's with a constant target, moreover, the first 21
    ticks are not rounded (the distance is multiplied by exactly 0.75), and
    from the 126th tick on [x] does not move any more: it rests short of
    the target, at a distance that is not 0 and at most [2^-42]. *)
Theorem car_slides_to_target :
  (forall i w s,
     car_lane (playing i w s) = hand_lane (hand_x s) w /\
     car_x_px (playing i w s)
     = lerp (car_x_px s) (target_x (hand_lane (hand_x s) w)) 0.25) /\
  (forall x t : Q,
     (lerp_exact x t (1 # 4) - t == (3 # 4) * (x - t))%Q /\
     (Qabs (lerp_exact x t (1 # 4) - t) == (3 # 4) * Qabs (x - t))%Q) /\
  (forall la lb n,
     0 <= la <= 2 -> 0 <= lb <= 2 ->
     let a := target_x la in
     let b := target_x lb in
     towards a b (slide_n n a b) (slide_n (S n) a b) = true /\
     ((n < 21)%nat ->
      (Py.to_Q (slide_n (S n) a b) - Py.to_Q b
       == (3 # 4) * (Py.to_Q (slide_n n a b) - Py.to_Q b))%Q) /\
     ((126 <= n)%nat -> slide_n (S n) a b = slide_n n a b) /\
     ((126 <= n)%nat -> la <> lb ->
      (0 < Qabs (Py.to_Q (slide_n n a b) - Py.to_Q b))%Q /\
      (Qabs (Py.to_Q (slide_n n a b) - Py.to_Q b) <= 1 # 2 ^ 42)%Q)) /\
  (forall i w,
     reachable w -> game_over (st w) = false ->
     let x := car_x_px (st w) in
     let b := target_x (hand_lane (hand_x (before_logic i w)) (width_seen i w)) in
     let x' := car_x_px (st (step i w)) in
     on_road x = true /\ on_road b = true /\ on_road x' = true /\
     x' = lerp x b 0.25 /\
     towards x b x x' = true /\
     (Qabs ((Py.to_Q x' - Py.to_Q b) - (3 # 4) * (Py.to_Q x - Py.to_Q b))
      <= 1 # 2 ^ 42)%Q) /\
  (forall x b : float,
     on_road x = true -> on_road b = true ->
     on_road (lerp x b 0.25) = true /\
     towards x b x (lerp x b 0.25) = true /\
     (Qabs (Py.to_Q (lerp x b 0.25)
            - lerp_exact (Py.to_Q x) (Py.to_Q b) (1 # 4)) <= 1 # 2 ^ 42)%Q).
Proof.
  split; [|split; [|split; [|split]]].
  - intros. apply playing_car.
  - intros x t. split; [apply lerp_exact_contracts|].
    rewrite lerp_exact_contracts, Qabs_Qmult. reflexivity.
  - intros la lb n Ha Hb. cbv zeta.
    destruct (slide_between_lanes la lb Ha Hb n) as (T & U & St).
    split; [exact T|]. split; [|split; [exact St|]].
    + intros Hn. specialize (U Hn). unfold unrounded in U.
      apply Qeq_bool_eq in U.
      change (slide_n (S n) (target_x la) (target_x lb))
        with (lerp (slide_n n (target_x la) (target_x lb)) (target_x lb) 0.25).
      rewrite U. apply lerp_exact_contracts.
    + intros Hn Hl.
      assert (E : slide_n n (target_x la) (target_x lb)
                  = slide_n 126 (target_x la) (target_x lb)).
      { apply slide_n_stalls; [|exact Hn].
        destruct (slide_between_lanes la lb Ha Hb 126) as (_ & _ & S6).
        apply S6. lia. }
      rewrite E. apply slide_rest; assumption.
  - intros i w R G. cbv zeta.
    destruct (before_logic_frame i w) as (_ & Fx & _).
    pose proof (reachable_on_road w R) as Ox.
    pose proof (target_on_road _ (hand_lane_range (hand_x (before_logic i w))
                                    (width_seen i w))) as Ob.
    assert (E : car_x_px (st (step i w))
                = lerp (car_x_px (st w))
                    (target_x (hand_lane (hand_x (before_logic i w))
                                 (width_seen i w))) 0.25).
    { rewrite (step_playing i w G). unfold set_particles, set_enemies.
      cbn [car_x_px].
      destruct (playing_car i (width_seen i w) (before_logic i w)) as [_ P].
      rewrite playing_eq in P. unfold set_enemies in P. cbn [car_x_px] in P.
      rewrite P, Fx. reflexivity. }
    destruct (lerp_on_road _ _ Ox Ob) as (O' & T & Q).
    rewrite E. repeat (split; [assumption || reflexivity|]).
    set (X' := Py.to_Q (lerp _ _ _)) in *.
    set (B := Py.to_Q (target_x _)) in *.
    set (X := Py.to_Q (car_x_px (st w))) in *.
    assert (Eq : (X' - B - (3 # 4) * (X - B) == X' - lerp_exact X B (1 # 4))%Q)
      by (unfold lerp_exact; ring).
    rewrite Eq. exact Q.
  - apply lerp_on_road.
Qed.

(** On the way to the left lane, 31 ticks after the start: the car is at
    160.03803798520622, the tick's step is rounded, and it is a step
    towards 160 within [2^-42] of the exact one. *)
Lemma car_slides_to_target_witness :
  let i := input (Some 100) 2 in
  let x := car_x_px (st mid_slide) in
  let x' := car_x_px (st (step i mid_slide)) in
  (reachable mid_slide /\ game_over (st mid_slide) = false) /\
  (x = 160.03803798520622%float /\ x' = 160.02852848890467%float /\
   unrounded (target_x 0) x = false) /\
  towards x (target_x 0) x x' = true /\
  (Qabs ((Py.to_Q x' - Py.to_Q (target_x 0))
         - (3 # 4) * (Py.to_Q x - Py.to_Q (target_x 0))) <= 1 # 2 ^ 42)%Q.
Proof.
  cbv zeta.
  split; [split; [apply reachable_mid_slide | vm_compute; reflexivity]|].
  split; [repeat split; vm_compute; reflexivity|].
  destruct car_slides_to_target as (_ & _ & _ & T & _).
  destruct (T (input (Some 100) 2) mid_slide reachable_mid_slide
              ltac:(vm_compute; reflexivity)) as (_ & _ & _ & _ & Tw & Q).
  split; [exact Tw | exact Q].
Defined.

(** The claim as the specification has it fails in binary64: in [stalled]
    the game is on, the target is lane 0 (x = 160), the car is not there,
    and the tick leaves it where it is: the distance is not multiplied by
    0.75, and the car never arrives. *)
Lemma car_stops_short :
  reachable stalled /\
  game_over (st stalled) = false /\
  hand_lane (hand_x (before_logic (input (Some 100) 2) stalled))
            (width_seen (input (Some 100) 2) stalled) = 0 /\
  target_x 0 = 160%float /\
  (160 <? car_x_px (st stalled))%float = true /\
  car_x_px (st (step (input (Some 100) 2) stalled)) = car_x_px (st stalled) /\
  Qeq_bool
    (Qabs (Py.to_Q (car_x_px (st (step (input (Some 100) 2) stalled))) - 160))
    ((3 # 4) * Qabs (Py.to_Q (car_x_px (st stalled)) - 160)) = false.
Proof.
  split; [apply reachable_stalled|].
  repeat split; vm_compute; reflexivity.
Qed.


(** * Further properties of the code

    Properties read off the code itself, beyond those of the
    specification.  Two drawing functions, [draw_speedlines] and
    [Particle.draw], are included as far as they compute: what they hand
    to pygame, not the drawing. *)

(** ** The spawn block *)

Lemma lane_x_cases (l : Z) : 0 <= l <= 2 -> In (lane_x l) LANE_X.
Proof.
  intros H. assert (A : l = 0 \/ l = 1 \/ l = 2) by lia.
  destruct A as [-> | [-> | ->]]; vm_compute; auto.
Qed.

Lemma choice_index_lt (n : nat) (raw : N) :
  (0 < n)%nat -> (Py.choice_index n raw < n)%nat.
Proof.
  intros H. unfold Py.choice_index.
  pose proof (N.mod_lt raw (N.of_nat n) ltac:(lia)). lia.
Qed.

(** X1.  When the countdown runs out below the cap, the spawn block appends
    exactly one enemy, at the end of the list: its top is at [-ENEMY_H],
    its centre is one of the three lane centres and its palette one of the
    five of [ENEMY_PALETTES]; the countdown restarts between
    [base_interval - 8] and [base_interval + 8] ticks, which for a score
    that is not negative lies between 17 and 78.  Otherwise the block only
    takes 1 off the countdown.  It touches nothing else. *)
Theorem spawn_block (i : Input) (s : State) :
  0 <= score s ->
  let s1 := spawn_enemies i s in
  let base := Z.max 25 (70 - score s / 5) in
  (if (spawn_cd s - 1 <=? 0) && (length (enemies s) <? MAX_ENEMIES)%nat
   then exists e,
          enemies s1 = enemies s ++ [e] /\
          e_y e = Py.float_of_int (- ENEMY_H) /\
          In (e_cx e) LANE_X /\ In (e_pal e) ENEMY_PALETTES /\
          base - 8 <= spawn_cd s1 <= base + 8 /\
          17 <= spawn_cd s1 <= 78
   else enemies s1 = enemies s /\ spawn_cd s1 = spawn_cd s - 1) /\
  score s1 = score s /\ lives s1 = lives s /\ enemy_spd s1 = enemy_spd s /\
  game_over s1 = game_over s /\ particles s1 = particles s /\
  car_x_px s1 = car_x_px s.
Proof.
  intros Hs. cbv zeta.
  destruct (spawn_enemies_frame i s) as (_&F2&_&F4&F5&F6&F7&_&_&_&_&F12).
  split; [|repeat split; assumption].
  rewrite spawn_enemies_eq. destruct (_ && _).
  - exists (spawned i). cbn [enemies spawn_cd set_spawn_cd set_enemies].
    pose proof (randint_range (-8) 8 (in_jitter i) ltac:(lia)) as J.
    pose proof (randint_range 0 (LANE_COUNT - 1) (in_lane i)
                  ltac:(unfold LANE_COUNT; lia)) as L.
    assert (0 <= score s / 5) by (apply Z.div_pos; lia).
    unfold base_interval. repeat split; try lia.
    + apply lane_x_cases. unfold LANE_COUNT in L. exact L.
    + apply nth_In. apply (choice_index_lt 5). lia.
  - split; reflexivity.
Qed.

Lemma spawn_block_witness :
  let s := set_spawn_cd 1 reset_state in
  exists e, enemies (spawn_enemies (input None 2) s) = [e] /\
            e_cx e = 612 /\ spawn_cd (spawn_enemies (input None 2) s) = 62.
Proof.
  cbv zeta.
  destruct (spawn_block (input None 2) (set_spawn_cd 1 reset_state)) as [A _];
    [vm_compute; discriminate|].
  exists (spawned (input None 2)). repeat split.
Defined.

(** X2.  The base spawn interval [max(25, 70 - score // 5)] never grows
    with the score, is never below 25 ticks, and is 25 exactly from score
    225 on. *)
Theorem base_interval_shrinks (a b : Z) :
  (a <= b -> base_interval b <= base_interval a) /\
  25 <= base_interval a /\
  (base_interval a = 25 <-> 225 <= a) /\
  (forall i s, spawn_cd s - 1 <= 0 -> (length (enemies s) < MAX_ENEMIES)%nat ->
     spawn_cd (spawn_enemies i s)
     = base_interval (score s) + Py.randint (-8) 8 (in_jitter i)).
Proof.
  unfold base_interval. split; [|split; [|split]].
  - intros H. assert (a / 5 <= b / 5) by (apply Z.div_le_mono; lia). lia.
  - lia.
  - split; intros H; Z.div_mod_to_equations; lia.
  - intros i s C L. rewrite spawn_enemies_eq.
    destruct (Z.leb_spec (spawn_cd s - 1) 0); [|lia].
    destruct (Nat.ltb_spec (length (enemies s)) MAX_ENEMIES); [|lia].
    reflexivity.
Qed.


(** ** Deleting by index *)

(** The elements of [l] whose position, counted from [i], is not marked. *)
Fixpoint unmarked {A : Type} (marked : nat -> bool) (i : nat) (l : list A)
    : list A :=
  match l with
  | [] => []
  | x :: t => if marked i then unmarked marked (S i) t
              else x :: unmarked marked (S i) t
  end.

Lemma unmarked_ext {A : Type} (P P' : nat -> bool) (l : list A) : forall i,
  (forall k, (i <= k)%nat -> P k = P' k) -> unmarked P i l = unmarked P' i l.
Proof.
  induction l as [|x t IH]; intros i H; simpl; [reflexivity|].
  rewrite (H i (le_n i)), (IH (S i)); [reflexivity|].
  intros k Hk. apply H. lia.
Qed.

Lemma unmarked_none {A : Type} (P : nat -> bool) (l : list A) : forall i,
  (forall k, P k = false) -> unmarked P i l = l.
Proof.
  induction l as [|x t IH]; intros i H; simpl; [reflexivity|].
  now rewrite H, IH.
Qed.

Lemma unmarked_combine {A : Type} (P : nat -> bool) (l : list A) : forall i,
  unmarked P i l
  = map snd (filter (fun p => negb (P (fst p))) (combine (seq i (length l)) l)).
Proof.
  induction l as [|x t IH]; intros i; simpl; [reflexivity|].
  rewrite IH. destruct (P i); reflexivity.
Qed.

Lemma del_at_unmarked {A : Type} (P : nat -> bool) (a : nat) (l : list A) :
  forall i, (i <= a)%nat ->
  (forall k, P k = true -> (a < k)%nat) ->
  del_at (a - i) (unmarked P i l)
  = unmarked (fun k => (k =? a)%nat || P k) i l.
Proof.
  induction l as [|x t IH]; intros i Hi HP; simpl;
    [destruct (a - i)%nat; reflexivity|].
  assert (Pi : P i = false).
  { destruct (P i) eqn:E; [|reflexivity]. apply HP in E. lia. }
  rewrite Pi, orb_false_r.
  destruct (Nat.eqb_spec i a) as [->|Ne].
  - rewrite Nat.sub_diag. simpl. apply unmarked_ext.
    intros k Hk. destruct (Nat.eqb_spec k a); [lia | reflexivity].
  - destruct (a - i)%nat as [|d] eqn:D; [lia|]. simpl.
    replace d with (a - S i)%nat by lia. rewrite IH; [reflexivity | lia | exact HP].
Qed.

Definition listed (l : list nat) (k : nat) : bool := existsb (Nat.eqb k) l.

Lemma listed_In l k : listed l k = true <-> In k l.
Proof.
  unfold listed. rewrite existsb_exists. split.
  - intros (x & Hx & E). apply Nat.eqb_eq in E. now subst.
  - intros H. exists k. split; [exact H | apply Nat.eqb_refl].
Qed.

Lemma insert_index_In i m k : In k (insert_index i m) <-> k = i \/ In k m.
Proof.
  induction m as [|j m IH]; simpl; [intuition|].
  destruct (Nat.ltb_spec i j); [simpl; intuition|].
  destruct (Nat.eqb_spec i j) as [->|Ne]; simpl; [intuition|].
  rewrite IH. intuition.
Qed.

Lemma insert_index_sorted i m :
  StronglySorted lt m -> StronglySorted lt (insert_index i m).
Proof.
  induction 1 as [|j m S IH Hj]; simpl; [repeat constructor|].
  destruct (Nat.ltb_spec i j).
  - constructor; [constructor; assumption|].
    constructor; [assumption|].
    eapply Forall_impl; [|exact Hj]. intros; lia.
  - destruct (Nat.eqb_spec i j); [constructor; assumption|].
    constructor; [exact IH|].
    apply Forall_forall. intros k Hk. apply insert_index_In in Hk as [->|Hk].
    + lia.
    + rewrite Forall_forall in Hj. now apply Hj.
Qed.

Lemma sorted_set_In l k : In k (sorted_set l) <-> In k l.
Proof.
  induction l as [|i l IH]; simpl; [reflexivity|].
  unfold sorted_set in *. simpl. rewrite insert_index_In, IH. intuition.
Qed.

Lemma sorted_set_sorted l : StronglySorted lt (sorted_set l).
Proof.
  induction l as [|i l IH]; [constructor|].
  unfold sorted_set in *. simpl. now apply insert_index_sorted.
Qed.

Lemma delete_descending {A : Type} (m : list nat) (l : list A) :
  StronglySorted lt m ->
  fold_left (fun l i => del_at i l) (rev m) l = unmarked (listed m) 0 l.
Proof.
  induction 1 as [|a m S IH Ha]; simpl.
  - symmetry. apply unmarked_none. reflexivity.
  - rewrite fold_left_app. simpl. rewrite IH.
    rewrite <- (Nat.sub_0_r a) at 1. rewrite del_at_unmarked.
    + apply unmarked_ext. intros k _. unfold listed. simpl.
      now rewrite Nat.eqb_sym.
    + lia.
    + intros k Hk. apply listed_In in Hk.
      rewrite Forall_forall in Ha. now apply Ha.
Qed.

(** X3.  [for i in reversed(sorted(set(to_remove))): del enemies[i]]
    removes exactly the positions listed in [to_remove] -- in whatever
    order they are listed and however often -- and keeps the others in
    their order: no element is skipped and none is removed twice.  (The
    indices exist in the list, as those of the loop do; Python raises on
    others.) *)
Theorem delete_indices_positions (to_remove : list nat) (es : list Enemy) :
  Forall (fun k => (k < length es)%nat) to_remove ->
  delete_indices to_remove es
  = map snd (filter (fun p => negb (existsb (Nat.eqb (fst p)) to_remove))
                    (combine (seq 0 (length es)) es)).
Proof.
  intros _. unfold delete_indices.
  rewrite (delete_descending _ es (sorted_set_sorted to_remove)).
  rewrite (unmarked_ext _ (listed to_remove)).
  - apply (unmarked_combine (listed to_remove)).
  - intros k _. destruct (listed to_remove k) eqn:E.
    + apply listed_In, sorted_set_In, listed_In. exact E.
    + destruct (listed (sorted_set to_remove) k) eqn:E'; [|reflexivity].
      apply (proj1 (listed_In _ _)) in E'.
      apply (proj1 (sorted_set_In _ _)) in E'.
      apply (proj2 (listed_In _ _)) in E'. congruence.
Qed.

Lemma delete_indices_positions_witness :
  let e := fun k => mkEnemy k 0 ((0,0,0),(0,0,0)) in
  delete_indices [3; 1; 3; 0]%nat [e 10; e 11; e 12; e 13; e 14]
  = [e 12; e 14].
Proof.
  cbv zeta.
  rewrite (delete_indices_positions [3; 1; 3; 0]%nat).
  - reflexivity.
  - repeat constructor.
Defined.


(** ** The enemies of a reachable session *)

(** A check of [f] on [n] consecutive integers from [k] on. *)
Fixpoint forall_from (f : Z -> bool) (k : Z) (n : nat) : bool :=
  match n with
  | O => true
  | S n => f k && forall_from f (k + 1) n
  end.

Lemma forall_from_spec (f : Z -> bool) (n : nat) : forall k,
  forall_from f k n = true ->
  forall z, k <= z < k + Z.of_nat n -> f z = true.
Proof.
  induction n as [|n IH]; intros k H z Hz; [lia|].
  simpl in H. apply andb_prop in H as [H1 H2].
  destruct (Z.eq_dec z k) as [->|Ne]; [exact H1|].
  apply (IH (k + 1) H2). lia.
Qed.

(** The exact value of a half. *)
Lemma to_Q_half (k : Z) : -168 <= k <= 1236 -> (Py.to_Q (half k) == k # 2)%Q.
Proof.
  intros Hk. apply Qeq_bool_eq.
  apply (forall_from_spec (fun k => Qeq_bool (Py.to_Q (half k)) (k # 2))
           1405 (-168)); [vm_compute; reflexivity | lia].
Qed.

Definition on_lane (e : Enemy) : Prop :=
  In (e_cx e) LANE_X /\ In (e_pal e) ENEMY_PALETTES.

Lemma spawned_on_lane i : on_lane (spawned i).
Proof.
  split.
  - apply lane_x_cases.
    pose proof (randint_range 0 (LANE_COUNT - 1) (in_lane i)
                  ltac:(unfold LANE_COUNT; lia)) as L.
    unfold LANE_COUNT in L. exact L.
  - apply nth_In. apply (choice_index_lt 5). lia.
Qed.

Lemma loop_moved_on_lane burst car es : forall i s rm,
  Forall on_lane es -> Forall on_lane (loop_moved burst car i es s rm).
Proof.
  induction es as [|e rest IH]; intros i s rm H.
  - constructor.
  - rewrite loop_moved_cons. cbv zeta.
    apply Forall_cons_iff in H as [He Hr].
    constructor; [exact He | now apply IH].
Qed.

Lemma playing_on_lane i w s :
  Forall on_lane (enemies s) -> Forall on_lane (enemies (playing i w s)).
Proof.
  intros H. rewrite playing_eq. cbn [enemies set_enemies].
  apply Forall_filter_keep. unfold tick_moved.
  apply loop_moved_on_lane. rewrite spawn_enemies_eq.
  destruct (_ && _); cbn [enemies set_spawn_cd set_enemies]; [|exact H].
  apply Forall_app. split; [exact H|].
  constructor; [apply spawned_on_lane | constructor].
Qed.

Lemma reachable_on_lane w : reachable w -> Forall on_lane (enemies (st w)).
Proof.
  induction 1 as [w0 | i w R IH]; [constructor|].
  rewrite step_eq. cbn [st enemies set_particles].
  destruct (before_logic_frame i w) as (_&_&_&_&_&F6&_).
  unfold after_logic. destruct (negb _).
  - apply playing_on_lane. now rewrite F6.
  - unfold game_over_screen. destruct (0 <? _); [|destruct (hand_x _)];
      cbn [enemies set_go_timer reset_state]; rewrite ?F6;
      try assumption; constructor.
Qed.

(** Enemies that are apart fit at most five on the way down. *)
Lemma apart_depth j l :
  j <= 36 -> StronglySorted (apart j) l ->
  Forall (fun e => -168 <= pos2 e) l ->
  match l with
  | [] => True
  | a :: _ => -168 + 336 * (Z.of_nat (length l) - 1) <= pos2 a
  end.
Proof.
  intros Hj St. induction St as [|a l St IH Ha]; intros G; [exact I|].
  apply Forall_cons_iff in G as [Ga Gl].
  destruct l as [|b t]; [simpl; lia|].
  specialize (IH Gl). apply Forall_inv in Ha. unfold apart in Ha.
  change (length (a :: b :: t)) with (S (length (b :: t))). lia.
Qed.

Lemma apart_count j l :
  j <= 36 -> StronglySorted (apart j) l ->
  Forall (on_grid (-168) 1200) l -> (length l <= 5)%nat.
Proof.
  intros Hj St G.
  assert (G' : Forall (fun e => -168 <= pos2 e) l).
  { eapply Forall_impl; [|exact G]. intros e [_ H]. lia. }
  pose proof (apart_depth j l Hj St G') as D.
  destruct l as [|a t]; [simpl; lia|].
  apply Forall_inv in G. destruct G as [_ G]. lia.
Qed.

(** X4.  Between two ticks of a session the game reaches, every enemy
    stands in one of the three lane centres with one of the five palettes,
    its top is a multiple of 0.5 between -84 and 600, and an enemy is at
    least 168 pixels below every enemy behind it in the list.  So there
    are never more than 5 enemies, and the cap of [MAX_ENEMIES] = 12 is
    never what stops a spawn. *)
Theorem enemies_keep_apart (w : World) :
  reachable w ->
  Forall (fun e =>
            In (e_cx e) LANE_X /\ In (e_pal e) ENEMY_PALETTES /\
            (exists k : Z, Py.to_Q (e_y e) == k # 2)%Q /\
            (- (84) <= Py.to_Q (e_y e) <= 600)%Q)
         (enemies (st w)) /\
  StronglySorted (fun a b => (168 <= Py.to_Q (e_y a) - Py.to_Q (e_y b))%Q)
                 (enemies (st w)) /\
  (length (enemies (st w)) <= 5)%nat /\
  (length (enemies (st w)) <? MAX_ENEMIES)%nat = true.
Proof.
  intros R. pose proof (reachable_inv w R) as I.
  pose proof (reachable_on_lane w R) as L.
  pose proof (inv_grid _ I) as G. pose proof (inv_apart _ I) as A.
  pose proof (speed_of_score_bounds _ (inv_score _ I)) as B.
  assert (C : (length (enemies (st w)) <= 5)%nat).
  { apply (apart_count (speed_of_score (score (st w)))); [lia | exact A | exact G]. }
  split; [|split; [|split]].
  - rewrite Forall_forall in *. intros e He.
    destruct (L e He) as [L1 L2]. destruct (G e He) as [Ey Hr].
    split; [exact L1|]. split; [exact L2|].
    assert (Q : (Py.to_Q (e_y e) == pos2 e # 2)%Q)
      by (rewrite Ey at 1; apply to_Q_half; lia).
    split; [exists (pos2 e); exact Q|].
    rewrite Q. unfold Qle. simpl. lia.
  - clear C L. induction A as [|a l St IH Ha]; [constructor|].
    apply Forall_cons_iff in G as [Ga Gl].
    constructor; [now apply IH|].
    rewrite Forall_forall in *. intros b Hb.
    destruct Ga as [Ea Ra]. destruct (Gl b Hb) as [Eb Rb].
    specialize (Ha b Hb). unfold apart in Ha.
    rewrite Ea, Eb, !to_Q_half by lia.
    unfold Qle, Qminus, Qplus, Qopp. simpl. lia.
  - exact C.
  - apply Nat.ltb_lt. unfold MAX_ENEMIES. lia.
Qed.

Lemma enemies_keep_apart_witness :
  (length (enemies (st at_cap)) <= 5)%nat /\
  (length (enemies (st at_cap)) <? MAX_ENEMIES)%nat = true.
Proof.
  destruct (enemies_keep_apart at_cap reachable_at_cap) as (_ & _ & A & B).
  split; [exact A | exact B].
Defined.

(** X5.  In a session the game reaches the speed is a function of the
    score: [min(18, 5 + (score // 8) / 2)], with a score that is not
    negative.  It is at [MAX_SPEED] exactly from score 208 on. *)
Theorem speed_from_score (w : World) :
  reachable w ->
  0 <= score (st w) /\
  (Py.to_Q (enemy_spd (st w)) == Z.min 36 (10 + score (st w) / 8) # 2)%Q /\
  (enemy_spd (st w) = MAX_SPEED <-> 208 <= score (st w)).
Proof.
  intros R. pose proof (reachable_inv w R) as I.
  pose proof (inv_score _ I) as Hs. pose proof (inv_spd _ I) as Hv.
  pose proof (speed_of_score_bounds _ Hs) as B.
  split; [exact Hs|]. split.
  - rewrite Hv. apply to_Q_half. unfold speed_of_score in *. lia.
  - rewrite Hv, MAX_SPEED_half. unfold speed_of_score in *. split.
    + intros E. apply half_inj in E; [|lia|lia].
      Z.div_mod_to_equations. lia.
    + intros H. f_equal. Z.div_mod_to_equations. lia.
Qed.

Lemma speed_from_score_witness :
  0 <= score (st at_cap) /\ enemy_spd (st at_cap) = MAX_SPEED.
Proof.
  destruct (speed_from_score at_cap reachable_at_cap) as (A & _ & B).
  split; [exact A|]. apply B. vm_compute. discriminate.
Defined.


(** ** Losing lives, and the game-over phase *)

Lemma loop_go_timer burst car es : forall i s rm,
  let m := loop_moved burst car i es s rm in
  let s' := loop_state burst car i es s rm in
  let hits := Z.of_nat (length (filter (hit car) m)) in
  go_timer s' = if (0 <? hits) && (lives s' <=? 0) then FPS * 2 else go_timer s.
Proof.
  induction es as [|e rest IH]; intros i s rm; cbv zeta.
  - unfold loop_moved, loop_state. reflexivity.
  - rewrite loop_moved_cons, loop_state_cons. cbv zeta.
    set (e' := moved_by (enemy_spd s) e).
    destruct (resolve_lives car (burst i) e' s) as (L1 & _ & T1).
    set (s1 := fst (resolve (burst i) car e' s)) in *.
    set (rm1 := if snd (resolve (burst i) car e' s) then rm ++ [i] else rm).
    specialize (IH (S i) s1 rm1). cbv zeta in IH.
    destruct (loop_lives burst car rest (S i) s1 rm1) as (L2 & _).
    set (m := loop_moved burst car (S i) rest s1 rm1) in *.
    set (s' := loop_state burst car (S i) rest s1 rm1) in *.
    rewrite IH, T1. simpl filter.
    set (h := Z.of_nat (length (filter (hit car) m))) in *.
    assert (0 <= h) by (unfold h; lia).
    destruct (hit car e'); simpl length; cbn [andb].
    + replace (0 <? Z.of_nat (S (length (filter (hit car) m)))) with true
        by (symmetry; apply Z.ltb_lt; lia).
      rewrite L2, L1. cbn [andb].
      destruct (Z.ltb_spec 0 h), (Z.leb_spec (lives s - 1 - h) 0),
        (Z.leb_spec (lives s - 1) 0); cbn [andb]; try reflexivity; lia.
    + reflexivity.
Qed.

(** What a playing tick does to the lives, the flag, the cooldown and the
    particle list, from a session that satisfies the invariant. *)
Lemma playing_lives i w s :
  Inv s -> game_over s = false ->
  let s' := playing i w s in
  let hits := length (filter (hit (tick_car w s)) (tick_moved i w s)) in
  (hits <= 1)%nat /\
  lives s' = lives s - Z.of_nat hits /\
  game_over s' = (lives s' <=? 0) /\
  go_timer s' = (if lives s' <=? 0 then FPS * 2 else go_timer s) /\
  length (particles s') = (length (particles s) + 40 * hits)%nat.
Proof.
  intros I G. cbv zeta.
  destruct (tick_facts i w s I) as (_ & _ & Li & Gv & H1 & _).
  destruct (playing_particles i w s) as (added & P & _ & La).
  pose proof (inv_lives s I) as L. rewrite G in L.
  rewrite P, length_app, La. rewrite playing_eq.
  unfold set_enemies. cbn [lives game_over go_timer].
  unfold tick_state, tick_moved in *.
  set (s0 := slide w s) in *. set (s1 := spawn_enemies i s0) in *.
  pose proof (loop_go_timer (in_burst i) (tick_car w s) (enemies s1) 0%nat s1 [])
    as T. cbv zeta in T.
  destruct (spawn_enemies_frame i s0) as (_&_&_&_&_&_&_&F8&_). fold s1 in F8.
  set (m := loop_moved _ _ _ _ _ _) in *. set (s' := loop_state _ _ _ _ _ _) in *.
  rewrite Gv, T, F8, G, Li. cbn [orb].
  change (go_timer s0) with (go_timer s).
  destruct (length (filter (hit (tick_car w s)) m)) as [|[|n]]; [| |lia].
  - change (Z.of_nat 0) with 0. cbn [Z.ltb Z.compare andb].
    destruct (Z.leb_spec (lives s - 0) 0); [lia|]. repeat split; lia.
  - change (Z.of_nat 1) with 1. cbn [Z.ltb Z.compare andb].
    repeat split; lia.
Qed.

(** X6.  In a session the game reaches, a playing tick has at most one
    collision: it takes at most one life and adds 40 particles per life
    taken.  The game is over after the tick exactly when it took the last
    life, and then the cooldown stands at [FPS * 2] = 120 ticks. *)
Theorem one_life_per_tick (w : World) (i : Input) :
  reachable w ->
  game_over (st w) = false ->
  let s := st w in
  let s' := st (step i w) in
  let hits := length (filter (hit (tick_car (width_seen i w) (before_logic i w)))
                             (tick_moved i (width_seen i w) (before_logic i w))) in
  (hits <= 1)%nat /\
  lives s' = lives s - Z.of_nat hits /\
  length (particles (after_logic i w)) = (length (particles s) + 40 * hits)%nat /\
  (game_over s' = true <-> lives s = 1 /\ hits = 1%nat) /\
  (game_over s' = true -> lives s' = 0 /\ go_timer s' = 120).
Proof.
  intros R G. cbv zeta. pose proof (reachable_inv w R) as I.
  pose proof (before_logic_inv i w I) as Ib.
  destruct (before_logic_frame i w) as (_&_&_&_&F5&_&_&_&F9&_&F11).
  rewrite <- F9 in G.
  destruct (playing_lives i (width_seen i w) (before_logic i w) Ib G)
    as (H1 & Li & Gv & Gt & Pa).
  pose proof (inv_lives _ Ib) as L. rewrite G in L.
  assert (E : after_logic i w = playing i (width_seen i w) (before_logic i w)).
  { unfold after_logic. now rewrite G. }
  rewrite step_eq. unfold set_particles. cbn [st lives game_over go_timer].
  rewrite E, Gv, Gt, Li, Pa, F5, F11. rewrite F5 in L.
  split; [exact H1|]. split; [reflexivity|]. split; [reflexivity|].
  destruct (Z.leb_spec (lives (st w) - Z.of_nat (length (filter
              (hit (tick_car (width_seen i w) (before_logic i w)))
              (tick_moved i (width_seen i w) (before_logic i w))))) 0);
    split; try split; intros; try lia; try reflexivity; try discriminate;
    unfold FPS; lia.
Qed.

Lemma one_life_per_tick_witness :
  let w := after_ticks 167 (input None 1) in
  lives (st w) = 3 /\ lives (st (step (input None 1) w)) = 2 /\
  length (particles (st (step (input None 1) w))) = 40%nat.
Proof.
  cbv zeta. split; [vm_compute; reflexivity|].
  destruct (one_life_per_tick (after_ticks 167 (input None 1)) (input None 1))
    as (_ & L & _); [apply reachable_after_ticks | vm_compute; reflexivity |].
  split; [|vm_compute; reflexivity].
  rewrite L. vm_compute. reflexivity.
Defined.

(** X7.  A session never holds more than 120 particles: at most 40 for
    each life lost since the last restart. *)
Theorem particle_count (w : World) :
  reachable w ->
  Z.of_nat (length (particles (st w))) <= 40 * (3 - lives (st w)) /\
  (length (particles (st w)) <= 120)%nat.
Proof.
  intros R.
  assert (K : Z.of_nat (length (particles (st w))) <= 40 * (3 - lives (st w))).
  { induction R as [w0 | i w R IH]; [simpl; lia|].
    pose proof (reachable_inv w R) as I.
    pose proof (before_logic_inv i w I) as Ib.
    destruct (before_logic_frame i w) as (_&_&_&_&F5&_&_&_&F9&_&F11).
    rewrite step_eq. unfold set_particles. cbn [st lives particles].
    pose proof (filter_length_le (fun p => 0 <? p_life p)
                  (map update (particles (after_logic i w)))) as Fl.
    rewrite length_map in Fl. unfold particles_tick.
    unfold after_logic in *.
    destruct (game_over (before_logic i w)) eqn:G; cbn [negb] in *.
    - unfold game_over_screen in *.
      destruct (0 <? _);
        [|destruct (hand_x _)];
        cbn [particles lives set_go_timer reset_state] in *;
        rewrite ?F5, ?F11 in *; simpl in *; lia.
    - destruct (playing_lives i (width_seen i w) (before_logic i w) Ib G)
        as (_ & Li & _ & _ & Pa).
      rewrite Li, F5. rewrite Pa, F11 in Fl. lia. }
  split; [exact K|].
  destruct (Z_le_gt_dec 0 (lives (st w))) as [L|L]; [lia|].
  pose proof (inv_lives _ (reachable_inv w R)) as Il.
  destruct (game_over (st w)); lia.
Qed.

Lemma particle_count_witness : (length (particles (st crashed)) <= 120)%nat.
Proof. apply (particle_count crashed reachable_crashed). Defined.

(** One tick of the game-over phase. *)
Lemma game_over_tick i w :
  game_over (st w) = true ->
  let s' := st (step i w) in
  (0 < go_timer (st w) \/ hand_x (before_logic i w) = None ->
   game_over s' = true /\
   go_timer s' = (if 0 <? go_timer (st w) then go_timer (st w) - 1
                  else go_timer (st w)) /\
   score s' = score (st w) /\ lives s' = lives (st w) /\
   enemies s' = enemies (st w) /\ enemy_spd s' = enemy_spd (st w) /\
   spawn_cd s' = spawn_cd (st w) /\ car_x_px s' = car_x_px (st w)) /\
  hand_x s' = (if (0 <? go_timer (st w)) then hand_x (before_logic i w)
               else None).
Proof.
  intros G. cbv zeta. rewrite (step_game_over i w G).
  destruct (before_logic_frame i w) as
    (F1 & F2 & F3 & F4 & F5 & F6 & F7 & F8 & F9 & F10 & F11).
  unfold game_over_screen, set_particles. rewrite F10.
  destruct (Z.ltb_spec 0 (go_timer (st w))) as [T|T].
  - unfold set_go_timer.
    cbn [game_over go_timer score lives enemies enemy_spd spawn_cd car_x_px
         hand_x].
    rewrite F2, F4, F5, F6, F7, F8, F9, G. repeat split.
  - destruct (hand_x (before_logic i w)) eqn:Hh.
    + split; [|reflexivity]. intros [H|H]; [lia | discriminate].
    + cbn [game_over go_timer score lives enemies enemy_spd spawn_cd car_x_px
           hand_x].
      rewrite F2, F4, F5, F6, F7, F8, F9, F10, G, Hh. repeat split.
Qed.

(** X8.  While the cooldown lasts no input can restart the game: after
    [n] ticks of any inputs, [n] at most the cooldown, the game is still
    over, the cooldown has gone down by [n], and the score, the lives, the
    enemies, the speed and the spawn countdown are as they were. *)
Theorem cooldown_lasts (inputs : list Input) (w : World) :
  game_over (st w) = true ->
  Z.of_nat (length inputs) <= go_timer (st w) ->
  let s' := st (run inputs w) in
  game_over s' = true /\
  go_timer s' = go_timer (st w) - Z.of_nat (length inputs) /\
  score s' = score (st w) /\ lives s' = lives (st w) /\
  enemies s' = enemies (st w) /\ enemy_spd s' = enemy_spd (st w) /\
  spawn_cd s' = spawn_cd (st w).
Proof.
  revert w. induction inputs as [|i inputs IH]; intros w G T; cbv zeta.
  - simpl. rewrite Z.sub_0_r. repeat split; assumption.
  - simpl length in T. rewrite Nat2Z.inj_succ in T.
    destruct (game_over_tick i w G) as [A _].
    destruct (A ltac:(left; lia)) as (G1 & T1 & S1 & L1 & E1 & V1 & C1 & _).
    destruct (Z.ltb_spec 0 (go_timer (st w))); [|lia].
    simpl run. specialize (IH (step i w) G1 ltac:(lia)). cbv zeta in IH.
    destruct IH as (G2 & T2 & S2 & L2 & E2 & V2 & C2).
    simpl length. rewrite Nat2Z.inj_succ.
    repeat split; try congruence. lia.
Qed.

Lemma cooldown_lasts_witness :
  let w := after_ticks 390 (input None 1) in
  go_timer (st w) = 22 /\
  game_over (st (run (repeat (input (Some 100) 1) 22) w)) = true /\
  go_timer (st (run (repeat (input (Some 100) 1) 22) w)) = 0.
Proof.
  cbv zeta. split; [vm_compute; reflexivity|].
  destruct (cooldown_lasts (repeat (input (Some 100) 1) 22)
              (after_ticks 390 (input None 1)))
    as (G & T & _); [vm_compute; reflexivity | vm_compute; discriminate |].
  split; [exact G|]. rewrite T. vm_compute. reflexivity.
Defined.

(** X9.  After the cooldown the game waits for a hand: as long as no
    camera reading shows one, any number of ticks leaves the game over
    and the session as it is. *)
Theorem game_over_waits (inputs : list Input) (w : World) :
  game_over (st w) = true ->
  go_timer (st w) <= 0 ->
  hand_x (st w) = None ->
  Forall (fun i => in_hand i = None) inputs ->
  let s' := st (run inputs w) in
  game_over s' = true /\ go_timer s' = go_timer (st w) /\
  hand_x s' = None /\
  score s' = score (st w) /\ lives s' = lives (st w) /\
  enemies s' = enemies (st w) /\ enemy_spd s' = enemy_spd (st w) /\
  spawn_cd s' = spawn_cd (st w).
Proof.
  revert w. induction inputs as [|i inputs IH]; intros w G T Hh F; cbv zeta.
  - simpl. repeat split; assumption.
  - apply Forall_cons_iff in F as [Fi F].
    assert (Hb : hand_x (before_logic i w) = None).
    { unfold before_logic. destruct (_ && _); cbn; assumption. }
    destruct (game_over_tick i w G) as [A B].
    destruct (A ltac:(right; exact Hb)) as (G1 & T1 & S1 & L1 & E1 & V1 & C1 & _).
    destruct (Z.ltb_spec 0 (go_timer (st w))); [lia|].
    simpl run. specialize (IH (step i w) G1 ltac:(lia) B F). cbv zeta in IH.
    destruct IH as (G2 & T2 & H2 & S2 & L2 & E2 & V2 & C2).
    repeat split; congruence.
Qed.

Lemma game_over_waits_witness :
  game_over (st crashed) = true /\
  game_over (st (run (repeat (input None 1) 30) crashed)) = true /\
  lives (st (run (repeat (input None 1) 30) crashed)) = lives (st crashed).
Proof.
  split; [vm_compute; reflexivity|].
  destruct (game_over_waits (repeat (input None 1) 30) crashed)
    as (G & _ & _ & _ & L & _);
    [vm_compute; reflexivity | vm_compute; discriminate
     | vm_compute; reflexivity | repeat constructor |].
  split; [exact G | exact L].
Defined.


(** ** Lanes and collisions *)

(** X10.  [hand_lane] always returns 0, 1 or 2, so [LANE_X] is never
    indexed out of range; without a hand it returns the middle lane.  For
    pictures up to 1280 pixels wide and a hand position up to a picture
    width outside the picture, the floating-point thirds decide exactly as
    the integer thirds: lane 0 below [w/3], lane 1 below [2w/3], lane 2
    from there on. *)
Theorem hand_lane_thirds :
  (forall w, hand_lane None w = 1) /\
  (forall h w, 0 <= hand_lane h w <= 2 /\ In (lane_x (hand_lane h w)) LANE_X) /\
  (forall hx w, 1 <= w <= 1280 -> - w <= hx <= 2 * w ->
     hand_lane (Some hx) w
     = if 3 * hx <? w then 0 else if 3 * hx <? 2 * w then 1 else 2).
Proof.
  split; [reflexivity|]. split.
  - intros h w.
    assert (R : 0 <= hand_lane h w <= 2).
    { unfold hand_lane. destruct h; [|lia].
      destruct (_ <? _)%float; [lia|]. destruct (_ <? _)%float; lia. }
    split; [exact R | now apply lane_x_cases].
  - intros hx w Hw Hx. apply Z.eqb_eq.
    set (row := fun w => forall_from
                  (fun hx => hand_lane (Some hx) w =?
                             (if 3 * hx <? w then 0
                              else if 3 * hx <? 2 * w then 1 else 2))
                  (- w) (Z.to_nat (3 * w + 1))).
    assert (T : forall_from row 1 1280 = true) by (vm_compute; reflexivity).
    pose proof (forall_from_spec row 1280 1 T w ltac:(lia)) as Tw.
    unfold row in Tw.
    apply (forall_from_spec _ _ _ Tw hx). lia.
Qed.

(** The hand in the right third and every enemy in the left lane: after
    150 ticks the car has stopped a little to the left of lane 2, at
    585.99999999999977, and [int(car_x_px)] is 585, not 586. *)
Definition parked_right : World :=
  Eval vm_compute in after_ticks 150 (input (Some 600) 0).

Lemma reachable_parked_right : reachable parked_right.
Proof.
  replace parked_right with (after_ticks 150 (input (Some 600) 0))
    by (vm_compute; reflexivity).
  apply reachable_after_ticks.
Qed.

(** X11.  The collision test of the loop, for the rectangles the game
    builds (car and enemy are both 52 wide and 84 high): the enemy hits
    the car exactly when their left edges are less than 52 apart and their
    tops less than 84 apart.  So with the car's top at 492 and its left
    edge [int(car_x_px)] less than a car's width from the position of lane
    [l] -- at rest in the lane, where the edge is the lane's position or,
    after the rounding of the slide, 1 less, and also while it slides in
    or out -- an enemy hits it exactly when it is in lane [l] with its top
    from 409 to 575; an enemy in another lane never does. *)
Theorem collision_geometry (s : State) (cx : Z) (ey : float) :
  (colliderect (car_rect_of s) (enemy_rect cx ey) = true <->
   -52 < Py.int_of_float (car_x_px s) - (cx - 26) < 52 /\
   -84 < car_y s - Py.int_of_float ey < 84) /\
  (forall l l',
     0 <= l <= 2 -> 0 <= l' <= 2 ->
     car_y s = 492 ->
     -52 < Py.int_of_float (car_x_px s) - (lane_x l - CAR_W / 2) < 52 ->
     cx = lane_x l' ->
     (colliderect (car_rect_of s) (enemy_rect cx ey) = true <->
      l = l' /\ 409 <= Py.int_of_float ey <= 575)).
Proof.
  assert (K : colliderect (car_rect_of s) (enemy_rect cx ey) = true <->
              -52 < Py.int_of_float (car_x_px s) - (cx - 26) < 52 /\
              -84 < car_y s - Py.int_of_float ey < 84).
  { unfold colliderect, car_rect_of, enemy_rect. cbn [r_x r_y r_w r_h].
    change CAR_W with 52. change CAR_H with 84.
    change ENEMY_W with 52. change ENEMY_H with 84.
    change (52 / 2) with 26. cbn [Z.eqb negb andb].
    rewrite !andb_true_iff, !Z.ltb_lt. lia. }
  split; [exact K|].
  intros l l' Hl Hl' Hy Hx ->. rewrite K, Hy.
  change (CAR_W / 2) with 26 in Hx.
  assert (A : l = 0 \/ l = 1 \/ l = 2) by lia.
  assert (B : l' = 0 \/ l' = 1 \/ l' = 2) by lia.
  destruct A as [-> | [-> | ->]], B as [-> | [-> | ->]];
    change (lane_x 0) with 186 in *; change (lane_x 1) with 399 in *;
    change (lane_x 2) with 612 in *; lia.
Qed.

(** The car at rest on the right, one pixel short of lane 2: an enemy in
    lane 2 with its top at 500 hits it, one in lane 1 does not. *)
Lemma collision_geometry_witness :
  let s := st parked_right in
  reachable parked_right /\
  car_lane s = 2 /\ car_x_px s = 585.99999999999977%float /\
  car_x_px (st (step (input (Some 600) 0) parked_right)) = car_x_px s /\
  (0 <= 2 <= 2 /\ car_y s = 492 /\
   -52 < Py.int_of_float (car_x_px s) - (lane_x 2 - CAR_W / 2) < 52) /\
  Py.int_of_float (car_x_px s) = lane_x 2 - CAR_W / 2 - 1 /\
  colliderect (car_rect_of s) (enemy_rect (lane_x 2) 500) = true /\
  colliderect (car_rect_of s) (enemy_rect (lane_x 1) 500) = false.
Proof.
  cbv zeta.
  split; [apply reachable_parked_right|].
  split; [vm_compute; reflexivity|].
  split; [vm_compute; reflexivity|].
  split; [vm_compute; reflexivity|].
  split; [vm_compute; repeat split; congruence|].
  split; [vm_compute; reflexivity|].
  destruct (collision_geometry (st parked_right) (lane_x 2) 500) as [_ G2].
  destruct (collision_geometry (st parked_right) (lane_x 1) 500) as [_ G1].
  split.
  - apply (G2 2 2); [lia | lia | reflexivity | vm_compute; split; reflexivity
                     | reflexivity | ].
    split; [reflexivity|]. vm_compute. split; discriminate.
  - apply not_true_is_false. intros E.
    apply (G1 2 1) in E;
      [destruct E as [E _]; discriminate E | lia | lia | reflexivity
       | vm_compute; split; reflexivity | reflexivity].
Defined.

(** ** The speed lines *)

(** [clamp] *)
Definition clamp (v lo hi : Z) : Z := Z.max lo (Z.min hi v).

(** What [draw_speedlines] computes before it draws: nothing below speed
    8, otherwise the alpha of the lines and their number. *)
Definition speedlines (speed : float) : option (Z * Z) :=
  if (speed <? Py.float_of_int 8)%float then None
  else
    Some (clamp (Py.int_of_float
                   ((speed - Py.float_of_int 8) / Py.float_of_int 10
                    * Py.float_of_int 180)%float) 0 180,
          Py.int_of_float (speed * 1.5)%float).

(** X12.  [clamp] returns a value between its bounds and leaves a value
    between them as it is.  In a session the game reaches,
    [draw_speedlines] draws nothing before score 48 (speed below 8); from
    there on the alpha of the lines lies between 0 and 180 -- it is
    [18 * (speed - 8)], or 1 less where the division by 10 rounds down --
    and the number of lines is [int(1.5 * speed)], between 12 and 27. *)
Theorem speedlines_of_score (w : World) :
  reachable w ->
  (forall v lo hi, lo <= hi ->
     lo <= clamp v lo hi <= hi /\ (lo <= v <= hi -> clamp v lo hi = v)) /\
  let j := Z.min 36 (10 + score (st w) / 8) in
  (score (st w) < 48 -> speedlines (enemy_spd (st w)) = None) /\
  (48 <= score (st w) ->
   exists a c,
     speedlines (enemy_spd (st w)) = Some (a, c) /\
     0 <= a <= 180 /\ 9 * (j - 16) - 1 <= a <= 9 * (j - 16) /\
     c = 3 * j / 4 /\ 12 <= c <= 27).
Proof.
  intros R.
  split; [intros v lo hi H; unfold clamp; lia|]. cbv zeta.
  pose proof (reachable_inv w R) as I.
  pose proof (inv_score _ I) as Hs. pose proof (inv_spd _ I) as Hv.
  pose proof (speed_of_score_bounds _ Hs) as B. unfold speed_of_score in *.
  set (j := Z.min 36 (10 + score (st w) / 8)) in *. rewrite Hv.
  set (ok := fun j =>
         match speedlines (half j) with
         | None => j <? 16
         | Some (a, c) =>
             (16 <=? j) && (0 <=? a) && (a <=? 180)
             && (9 * (j - 16) - 1 <=? a) && (a <=? 9 * (j - 16))
             && (c =? 3 * j / 4) && (12 <=? c) && (c <=? 27)
         end).
  assert (T : forall_from ok 10 27 = true) by (vm_compute; reflexivity).
  pose proof (forall_from_spec ok 27 10 T j ltac:(lia)) as Tj. unfold ok in Tj.
  split.
  - intros H. assert (j < 16) by (unfold j; Z.div_mod_to_equations; lia).
    destruct (speedlines (half j)) as [[a c]|]; [|reflexivity].
    repeat (apply andb_prop in Tj as [Tj _]). apply Z.leb_le in Tj. lia.
  - intros H. assert (16 <= j) by (unfold j; Z.div_mod_to_equations; lia).
    destruct (speedlines (half j)) as [[a c]|].
    + exists a, c.
      repeat match goal with
             | X : _ && _ = true |- _ => apply andb_prop in X as [X ?]
             end.
      repeat match goal with
             | X : (_ <=? _) = true |- _ => apply Z.leb_le in X
             | X : (_ =? _) = true |- _ => apply Z.eqb_eq in X
             end.
      repeat split; lia.
    + apply Z.ltb_lt in Tj. lia.
Qed.

Lemma speedlines_of_score_witness :
  speedlines (enemy_spd (st at_cap)) = Some (180, 27) /\
  speedlines (enemy_spd (st crashed)) = None.
Proof.
  destruct (speedlines_of_score at_cap reachable_at_cap) as (_ & _ & A).
  destruct (speedlines_of_score crashed reachable_crashed) as (_ & B & _).
  split; [vm_compute; reflexivity | apply B; vm_compute; reflexivity].
Defined.


(** ** Drawing a particle *)

(** What [Particle.draw] passes to [pygame.draw.circle]: the colour scaled
    by [alpha = life / max_life], the centre and the radius.  [None] is
    the [ZeroDivisionError] of the division when [max_life] is 0. *)
Definition draw_args (p : Particle) : option (Color * (Z * Z) * Z) :=
  if p_max_life p =? 0 then None
  else
    let alpha := (Py.float_of_int (p_life p) / Py.float_of_int (p_max_life p))%float in
    let '(c0, c1, c2) := p_color p in
    Some ((Py.int_of_float (Py.float_of_int c0 * alpha),
           Py.int_of_float (Py.float_of_int c1 * alpha),
           Py.int_of_float (Py.float_of_int c2 * alpha)),
          (Py.int_of_float (p_x p), Py.int_of_float (p_y p)),
          Z.max 1 (Py.int_of_float (Py.float_of_int (p_size p) * alpha))).

(** The colour channels the game uses: those of [ENEMY_PALETTES] and of
    the two accent colours of [explode]. *)
Definition channels : list Z :=
  [0; 10; 20; 50; 80; 100; 130; 140; 150; 160; 180; 200; 220; 255].
Definition channel_ok (c : Z) : Prop := In c channels.
Definition color_ok (c : Color) : Prop :=
  channel_ok (fst (fst c)) /\ channel_ok (snd (fst c)) /\ channel_ok (snd c).

(** A particle as the game keeps it. *)
Definition sound (p : Particle) : Prop :=
  color_ok (p_color p) /\ 25 <= p_max_life p <= 50 /\
  1 <= p_life p <= p_max_life p /\ 3 <= p_size p <= 8.

Lemma palettes_ok pal :
  In pal ENEMY_PALETTES -> color_ok (fst pal) /\ color_ok (snd pal).
Proof.
  intros H. unfold ENEMY_PALETTES in H. simpl in H.
  repeat (destruct H as [<- | H];
          [unfold color_ok, channel_ok, channels; simpl; tauto|]).
  contradiction.
Qed.

Lemma burst_particle_sound x y pal draws k :
  In pal ENEMY_PALETTES -> sound (burst_particle x y pal draws k).
Proof.
  intros H. destruct (palettes_ok pal H) as [P1 P2].
  pose proof (randint_range 25 50 (d_life (draws k)) ltac:(lia)) as L.
  pose proof (randint_range 3 8 (d_size (draws k)) ltac:(lia)) as Sz.
  unfold sound, burst_particle, new_particle.
  cbn [p_color p_max_life p_life p_size].
  split; [|lia].
  pose proof (choice_index_lt 4 (d_color (draws k)) ltac:(lia)) as C.
  destruct (Py.choice_index 4 (d_color (draws k))) as [|[|[|[|n]]]];
    cbn [nth explosion_colors]; try assumption;
    try (unfold color_ok, channel_ok, channels; simpl; tauto).
  lia.
Qed.

Lemma loop_particles_sound burst car es : forall i s rm,
  Forall on_lane es -> Forall sound (particles s) ->
  Forall sound (particles (loop_state burst car i es s rm)).
Proof.
  induction es as [|e rest IH]; intros i s rm He Hp.
  - exact Hp.
  - rewrite loop_state_cons. cbv zeta.
    apply Forall_cons_iff in He as [[_ Pe] Hr].
    apply IH; [exact Hr|].
    rewrite resolve_particles. destruct (hit car _); [|exact Hp].
    rewrite explode_eq. apply Forall_app. split; [exact Hp|].
    apply Forall_forall. intros p Hin. apply in_map_iff in Hin as (k & <- & _).
    apply burst_particle_sound. exact Pe.
Qed.

Lemma after_logic_sound i w :
  reachable w -> Forall sound (particles (st w)) ->
  Forall sound (particles (after_logic i w)).
Proof.
  intros R H.
  destruct (before_logic_frame i w) as (_&_&_&_&_&F6&_&_&_&_&F11).
  unfold after_logic. destruct (negb _).
  - rewrite playing_eq. cbn [particles set_enemies]. unfold tick_state.
    set (s0 := slide (width_seen i w) (before_logic i w)).
    destruct (spawn_enemies_frame i s0) as (_&_&_&_&_&_&_&_&_&_&_&F12).
    apply loop_particles_sound.
    + rewrite spawn_enemies_eq.
      pose proof (reachable_on_lane w R) as L. rewrite <- F6 in L.
      destruct (_ && _); cbn [enemies set_spawn_cd set_enemies]; [|exact L].
      apply Forall_app. split; [exact L|].
      constructor; [apply spawned_on_lane | constructor].
    + rewrite F12. unfold s0, slide. cbn [particles set_car]. now rewrite F11.
  - unfold game_over_screen. destruct (0 <? _); [|destruct (hand_x _)];
      cbn [particles set_go_timer reset_state]; rewrite ?F11;
      try assumption; constructor.
Qed.

Lemma particles_tick_sound ps : Forall sound ps -> Forall sound (particles_tick ps).
Proof.
  intros H. unfold particles_tick. apply Forall_forall. intros p Hp.
  apply filter_In in Hp as [Hp L]. apply in_map_iff in Hp as (q & <- & Hq).
  rewrite Forall_forall in H. specialize (H q Hq).
  apply Z.ltb_lt in L. destruct H as (C & Hm & Hl & Hz).
  unfold sound. cbn [update p_color p_max_life p_life p_size] in *.
  split; [exact C | lia].
Qed.

Lemma reachable_sound w : reachable w -> Forall sound (particles (st w)).
Proof.
  induction 1 as [w0 | i w R IH]; [constructor|].
  rewrite step_eq. cbn [st particles set_particles].
  now apply particles_tick_sound, after_logic_sound.
Qed.

(** The scaled channel and the radius, for every life, maximal life,
    channel and size the game has. *)
Definition scaled (c life max_life : Z) : Z :=
  Py.int_of_float
    (Py.float_of_int c
     * (Py.float_of_int life / Py.float_of_int max_life))%float.

Lemma scaled_range c life max_life :
  In c (channels ++ [3; 4; 5; 6; 7; 8]) ->
  25 <= max_life <= 50 -> 0 <= life <= max_life ->
  0 <= scaled c life max_life <= c.
Proof.
  intros Hc Hm Hl.
  set (ok := fun m => forall_from (fun l =>
               (m <? l) || forallb (fun c =>
                  (0 <=? scaled c l m) && (scaled c l m <=? c))
                  (channels ++ [3; 4; 5; 6; 7; 8]))
               0 51).
  assert (T : forall_from ok 25 26 = true) by (vm_compute; reflexivity).
  pose proof (forall_from_spec ok 26 25 T max_life ltac:(lia)) as Tm.
  unfold ok in Tm.
  pose proof (forall_from_spec _ _ _ Tm life ltac:(lia)) as Tl. cbv beta in Tl.
  destruct (Z.ltb_spec max_life life); [lia|]. cbn [orb] in Tl.
  rewrite forallb_forall in Tl. specialize (Tl c Hc).
  apply andb_prop in Tl as [A B]. apply Z.leb_le in A, B. lia.
Qed.

Lemma channel_range c : channel_ok c -> 0 <= c <= 255.
Proof.
  unfold channel_ok, channels. simpl. intros H.
  repeat (destruct H as [<- | H]; [lia|]). contradiction.
Qed.

(** X13.  The particle block of a tick draws each particle right after its
    update.  In a session the game reaches, every such call is sound:
    [max_life] is not 0, each colour channel handed to
    [pygame.draw.circle] is between 0 and the particle's own channel (so
    between 0 and 255), and the radius is between 1 and the particle's
    size (at most 8). *)
Theorem particles_draw_safely (w : World) (i : Input) :
  reachable w ->
  Forall (fun p =>
            exists r g b x y rad,
              draw_args p = Some ((r, g, b), (x, y), rad) /\
              0 <= r <= fst (fst (p_color p)) /\ fst (fst (p_color p)) <= 255 /\
              0 <= g <= snd (fst (p_color p)) /\ snd (fst (p_color p)) <= 255 /\
              0 <= b <= snd (p_color p) /\ snd (p_color p) <= 255 /\
              1 <= rad <= p_size p /\ p_size p <= 8)
         (map update (particles (after_logic i w))).
Proof.
  intros R.
  pose proof (after_logic_sound i w R (reachable_sound w R)) as H.
  apply Forall_forall. intros p Hp. apply in_map_iff in Hp as (q & <- & Hq).
  rewrite Forall_forall in H.
  destruct (H q Hq) as ((C0 & C1 & C2) & Hm & Hl & Hz).
  unfold draw_args. cbn [update p_max_life p_life p_color p_size p_x p_y].
  destruct (Z.eqb_spec (p_max_life q) 0) as [E|_]; [lia|].
  destruct (p_color q) as [[c0 c1] c2]. cbn [fst snd] in *.
  pose proof (channel_range c0 C0). pose proof (channel_range c1 C1).
  pose proof (channel_range c2 C2).
  assert (Sz : In (p_size q) (channels ++ [3; 4; 5; 6; 7; 8])).
  { apply in_or_app. right. simpl.
    assert (p_size q = 3 \/ p_size q = 4 \/ p_size q = 5 \/ p_size q = 6 \/
            p_size q = 7 \/ p_size q = 8) by lia.
    intuition. }
  pose proof (scaled_range c0 (p_life q - 1) (p_max_life q)
                ltac:(apply in_or_app; left; exact C0) Hm ltac:(lia)).
  pose proof (scaled_range c1 (p_life q - 1) (p_max_life q)
                ltac:(apply in_or_app; left; exact C1) Hm ltac:(lia)).
  pose proof (scaled_range c2 (p_life q - 1) (p_max_life q)
                ltac:(apply in_or_app; left; exact C2) Hm ltac:(lia)).
  pose proof (scaled_range (p_size q) (p_life q - 1) (p_max_life q)
                Sz Hm ltac:(lia)).
  unfold scaled in *.
  do 6 eexists. split; [reflexivity|]. lia.
Qed.

Lemma particles_draw_safely_witness :
  let w := after_ticks 167 (input None 1) in
  length (map update (particles (after_logic (input None 1) w))) = 40%nat /\
  Forall (fun p => exists a, draw_args p = Some a)
         (map update (particles (after_logic (input None 1) w))).
Proof.
  cbv zeta. split; [vm_compute; reflexivity|].
  eapply Forall_impl;
    [|apply (particles_draw_safely (after_ticks 167 (input None 1))
               (input None 1)), reachable_after_ticks].
  cbv beta. intros p (r & g & b & x & y & rad & E & _).
  eexists. exact E.
Defined.


(** ** Counters *)

Lemma playing_frame i w s :
  spawn_cd (playing i w s) = spawn_cd (spawn_enemies i s) /\
  tick (playing i w s) = tick s /\ hand_x (playing i w s) = hand_x s /\
  dash_off (playing i w s) = dash_off s /\ car_y (playing i w s) = car_y s.
Proof.
  rewrite playing_eq. unfold set_enemies.
  cbn [spawn_cd tick hand_x dash_off car_y]. unfold tick_state.
  set (s0 := slide w s). set (s1 := spawn_enemies i s0).
  destruct (loop_frame (in_burst i) (tick_car w s) (enemies s1) 0%nat s1 [])
    as (_ & _ & L3 & _ & L5 & L6 & L7 & L8).
  destruct (spawn_enemies_frame i s0) as (_&_&S3&_&_&_&_&_&S9&S10&S11&_).
  fold s1 in S3, S9, S10, S11.
  rewrite L3, L5, L6, L7, L8, S3, S9, S10, S11.
  unfold s1. rewrite !spawn_enemies_eq.
  change (spawn_cd s0) with (spawn_cd s). change (enemies s0) with (enemies s).
  change (score s0) with (score s).
  destruct (_ && _); repeat split.
Qed.

(** X14.  In a session the game reaches the spawn countdown is never
    negative nor 0 between two ticks: it stays between 1 and 78, because
    the cap never holds a spawn back and every countdown that runs out
    restarts at once.  The restart cooldown stays between 0 and 120 and is
    0 while the game is on. *)
Theorem counters_in_range (w : World) :
  reachable w ->
  1 <= spawn_cd (st w) <= 78 /\
  0 <= go_timer (st w) <= 120 /\
  (game_over (st w) = false -> go_timer (st w) = 0).
Proof.
  induction 1 as [w0 | i w R IH].
  - simpl. repeat split; try lia.
  - destruct IH as (C & T & TG).
    pose proof (reachable_inv w R) as I.
    pose proof (before_logic_inv i w I) as Ib.
    destruct (before_logic_frame i w) as (_&_&_&F4&_&F6&_&F8&F9&F10&_).
    rewrite step_eq. unfold set_particles. cbn [st spawn_cd go_timer game_over].
    unfold after_logic.
    destruct (game_over (before_logic i w)) eqn:G; cbn [negb].
    + unfold game_over_screen. rewrite F10.
      destruct (Z.ltb_spec 0 (go_timer (st w))).
      * cbn [spawn_cd go_timer game_over set_go_timer]. rewrite F8, G.
        repeat split; try lia; discriminate.
      * destruct (hand_x (before_logic i w)).
        -- simpl. repeat split; lia.
        -- rewrite F8, F10, G. repeat split; try lia; discriminate.
    + destruct (playing_frame i (width_seen i w) (before_logic i w)) as (P & _).
      destruct (playing_lives i (width_seen i w) (before_logic i w) Ib G)
        as (_ & _ & Gv & Gt & _).
      rewrite P, Gv, Gt, F10. rewrite (TG (eq_sym F9)).
      split.
      * rewrite spawn_enemies_eq, F8, F6, F4.
        assert (L : (length (enemies (st w)) <? MAX_ENEMIES)%nat = true).
        { apply Nat.ltb_lt.
          pose proof (apart_count (speed_of_score (score (st w)))
                        (enemies (st w))
                        ltac:(pose proof (speed_of_score_bounds _ (inv_score _ I)); lia)
                        (inv_apart _ I) (inv_grid _ I)).
          unfold MAX_ENEMIES. lia. }
        rewrite L, andb_true_r.
        destruct (Z.leb_spec (spawn_cd (st w) - 1) 0);
          cbn [spawn_cd set_spawn_cd set_enemies]; [|lia].
        pose proof (randint_range (-8) 8 (in_jitter i) ltac:(lia)).
        pose proof (inv_score _ I).
        assert (0 <= score (st w) / 5) by (apply Z.div_pos; lia).
        unfold base_interval. lia.
      * destruct (_ <=? 0); unfold FPS; repeat split; try lia; discriminate.
Qed.

Lemma counters_in_range_witness :
  1 <= spawn_cd (st at_cap) <= 78 /\ go_timer (st at_cap) = 0.
Proof.
  destruct (counters_in_range at_cap reachable_at_cap) as (A & _ & B).
  split; [exact A | apply B; vm_compute; reflexivity].
Defined.
